(** * Chat-session gateway: resilience fabric, pool and turn pipeline

    A shallow embedding of the Python sources under [src/core]
    ([circuit_breaker.py], [rate_limiter.py], [input_validator.py],
    [cache_manager.py], [claude_handler.py]) together with the properties
    the specification states about them.

    Conventions.
    - Wall-clock values ([time.time()], [datetime.now()]) are integers
      counting microseconds; a number of seconds [n] is [Clock.seconds n].
      Every read of the wall clock in the source is one [Clock.now] here,
      so two reads inside one call may return different values.
    - Python objects mutated in place are threaded through a state monad
      [M S A]: a computation takes the object and the clock and returns a
      result, the new object and the advanced clock.
    - A raised exception is a value of [Outcome]; state changes made before
      the raise persist, as in Python. *)

From Stdlib Require Import ZArith Ascii String List Bool Lia.
From stdpp Require Import base option list gmap strings.
Import ListNotations.
Open Scope Z_scope.

(** ** The wall clock *)

Module Clock.

(** The sequence of values the clock will return, and how many reads have
    been made so far. *)
Record t : Type := mk { readings : nat -> Z; cursor : nat }.

Definition us_per_second : Z := 1000000.

Definition seconds (n : Z) : Z := n * us_per_second.

(** Python's [int(x)] on a duration in seconds: truncation toward zero. *)
Definition int_seconds (d : Z) : Z := Z.quot d us_per_second.

Definition peek (c : t) : Z := readings c (cursor c).

Definition advance (c : t) : t := mk (readings c) (S (cursor c)).

(** A clock that always shows the same instant. *)
Definition frozen (z : Z) : t := mk (fun _ => z) 0.


Definition monotone (c : t) : Prop :=
  forall i j : nat, (i <= j)%nat -> readings c i <= readings c j.

End Clock.

(** ** State and clock monad *)

Definition M (S A : Type) : Type := S -> Clock.t -> A * S * Clock.t.

Definition ret {S A} (a : A) : M S A := fun s c => (a, s, c).

Definition bind {S A B} (m : M S A) (k : A -> M S B) : M S B :=
  fun s c => let '(a, s', c') := m s c in k a s' c'.

Definition get {S} : M S S := fun s c => (s, s, c).

Definition put {S} (s : S) : M S unit := fun _ c => (tt, s, c).

Definition modify {S} (f : S -> S) : M S unit := fun s c => (tt, f s, c).

(** One read of the wall clock. *)
Definition now {S} : M S Z := fun s c => (Clock.peek c, s, Clock.advance c).

Definition when {S} (b : bool) (m : M S unit) : M S unit :=
  if b then m else ret tt.

Declare Scope monad_scope.
Delimit Scope monad_scope with monad.
Notation "x <- m ;; k" := (bind m (fun x => k))
  (at level 20, m at level 99, k at level 200, only parsing) : monad_scope.
Notation "m ;;; k" := (bind m (fun _ => k))
  (at level 20, k at level 200, only parsing) : monad_scope.
Open Scope monad_scope.

Definition result_of {S A} (r : A * S * Clock.t) : A := fst (fst r).
Definition state_of {S A} (r : A * S * Clock.t) : S := snd (fst r).
Definition clock_of {S A} (r : A * S * Clock.t) : Clock.t := snd r.

(** What a Python call produces: a value or a raised exception. *)
Inductive Outcome (E A : Type) : Type :=
| Returned (a : A)
| Raised (e : E).
Arguments Returned {E A} a.
Arguments Raised {E A} e.

(** ** [circuit_breaker.py] *)

Module CircuitBreaker.

Inductive CircuitState : Type := CLOSED | OPEN | HALF_OPEN.

Definition CircuitState_eqb (a b : CircuitState) : bool :=
  match a, b with
  | CLOSED, CLOSED | OPEN, OPEN | HALF_OPEN, HALF_OPEN => true
  | _, _ => false
  end.

(** One entry of [stats["state_changes"]]. *)
Record StateChange : Type := {
  sc_from : CircuitState;
  sc_to : CircuitState;
  sc_timestamp : Z
}.

Record t : Type := {
  name : string;
  failure_threshold : Z;
  recovery_timeout : Z;
  success_threshold : Z;
  state : CircuitState;
  failure_count : Z;
  success_count : Z;
  last_failure_time : option Z;
  last_success_time : option Z;
  total_calls : Z;
  successful_calls : Z;
  failed_calls : Z;
  rejected_calls : Z;
  state_changes : list StateChange
}.

(** [CircuitBreaker.__init__] *)
Definition init (nm : string) (ft rt st : Z) : t := {|
  name := nm;
  failure_threshold := ft;
  recovery_timeout := rt;
  success_threshold := st;
  state := CLOSED;
  failure_count := 0;
  success_count := 0;
  last_failure_time := None;
  last_success_time := None;
  total_calls := 0;
  successful_calls := 0;
  failed_calls := 0;
  rejected_calls := 0;
  state_changes := []
|}.

Definition set_state (x : CircuitState) (b : t) : t :=
  {| name := name b; failure_threshold := failure_threshold b;
     recovery_timeout := recovery_timeout b; success_threshold := success_threshold b;
     state := x; failure_count := failure_count b; success_count := success_count b;
     last_failure_time := last_failure_time b; last_success_time := last_success_time b;
     total_calls := total_calls b; successful_calls := successful_calls b;
     failed_calls := failed_calls b; rejected_calls := rejected_calls b;
     state_changes := state_changes b |}.

Definition set_failure_count (x : Z) (b : t) : t :=
  {| name := name b; failure_threshold := failure_threshold b;
     recovery_timeout := recovery_timeout b; success_threshold := success_threshold b;
     state := state b; failure_count := x; success_count := success_count b;
     last_failure_time := last_failure_time b; last_success_time := last_success_time b;
     total_calls := total_calls b; successful_calls := successful_calls b;
     failed_calls := failed_calls b; rejected_calls := rejected_calls b;
     state_changes := state_changes b |}.

Definition set_success_count (x : Z) (b : t) : t :=
  {| name := name b; failure_threshold := failure_threshold b;
     recovery_timeout := recovery_timeout b; success_threshold := success_threshold b;
     state := state b; failure_count := failure_count b; success_count := x;
     last_failure_time := last_failure_time b; last_success_time := last_success_time b;
     total_calls := total_calls b; successful_calls := successful_calls b;
     failed_calls := failed_calls b; rejected_calls := rejected_calls b;
     state_changes := state_changes b |}.

Definition set_last_failure_time (x : option Z) (b : t) : t :=
  {| name := name b; failure_threshold := failure_threshold b;
     recovery_timeout := recovery_timeout b; success_threshold := success_threshold b;
     state := state b; failure_count := failure_count b; success_count := success_count b;
     last_failure_time := x; last_success_time := last_success_time b;
     total_calls := total_calls b; successful_calls := successful_calls b;
     failed_calls := failed_calls b; rejected_calls := rejected_calls b;
     state_changes := state_changes b |}.

Definition set_last_success_time (x : option Z) (b : t) : t :=
  {| name := name b; failure_threshold := failure_threshold b;
     recovery_timeout := recovery_timeout b; success_threshold := success_threshold b;
     state := state b; failure_count := failure_count b; success_count := success_count b;
     last_failure_time := last_failure_time b; last_success_time := x;
     total_calls := total_calls b; successful_calls := successful_calls b;
     failed_calls := failed_calls b; rejected_calls := rejected_calls b;
     state_changes := state_changes b |}.

(** The four counters of [stats] and the journal. *)
Definition set_stats (tc sc fc rc : Z) (j : list StateChange) (b : t) : t :=
  {| name := name b; failure_threshold := failure_threshold b;
     recovery_timeout := recovery_timeout b; success_threshold := success_threshold b;
     state := state b; failure_count := failure_count b; success_count := success_count b;
     last_failure_time := last_failure_time b; last_success_time := last_success_time b;
     total_calls := tc; successful_calls := sc;
     failed_calls := fc; rejected_calls := rc;
     state_changes := j |}.

Definition bump_total_calls (b : t) : t :=
  set_stats (total_calls b + 1) (successful_calls b) (failed_calls b)
            (rejected_calls b) (state_changes b) b.
Definition bump_successful_calls (b : t) : t :=
  set_stats (total_calls b) (successful_calls b + 1) (failed_calls b)
            (rejected_calls b) (state_changes b) b.
Definition bump_failed_calls (b : t) : t :=
  set_stats (total_calls b) (successful_calls b) (failed_calls b + 1)
            (rejected_calls b) (state_changes b) b.
Definition bump_rejected_calls (b : t) : t :=
  set_stats (total_calls b) (successful_calls b) (failed_calls b)
            (rejected_calls b + 1) (state_changes b) b.
Definition journal (e : StateChange) (b : t) : t :=
  set_stats (total_calls b) (successful_calls b) (failed_calls b)
            (rejected_calls b) (state_changes b ++ [e]) b.

(** [_transition_to]: nothing happens when the state is already the
    target; otherwise the counters are reset for CLOSED and HALF_OPEN (not
    for OPEN) and the change is journaled with a fresh clock reading. *)
Definition _transition_to (new_state : CircuitState) : M t unit :=
  b <- get ;;
  if CircuitState_eqb (state b) new_state then ret tt
  else
    let old_state := state b in
    modify (set_state new_state) ;;;
    match new_state with
    | CLOSED => modify (set_failure_count 0) ;;; modify (set_success_count 0)
    | HALF_OPEN => modify (set_success_count 0) ;;; modify (set_failure_count 0)
    | OPEN => ret tt
    end ;;;
    ts <- now ;;
    modify (journal {| sc_from := old_state; sc_to := new_state; sc_timestamp := ts |}).

(** [_get_current_state]: [time_since_failure >= recovery_timeout] compares
    a duration with a number of seconds. *)
Definition _get_current_state : M t CircuitState :=
  b <- get ;;
  match state b with
  | OPEN =>
      match last_failure_time b with
      | Some lf =>
          t_now <- now ;;
          let time_since_failure := t_now - lf in
          when (Clock.seconds (recovery_timeout b) <=? time_since_failure)
               (_transition_to HALF_OPEN)
      | None => ret tt
      end
  | _ => ret tt
  end ;;;
  b' <- get ;;
  ret (state b').

(** [_on_success] *)
Definition _on_success : M t unit :=
  modify bump_successful_calls ;;;
  t_now <- now ;;
  modify (set_last_success_time (Some t_now)) ;;;
  b <- get ;;
  match state b with
  | HALF_OPEN =>
      modify (set_success_count (success_count b + 1)) ;;;
      b' <- get ;;
      when (success_threshold b' <=? success_count b') (_transition_to CLOSED)
  | CLOSED => modify (set_failure_count 0)
  | OPEN => ret tt
  end.

(** [_on_failure] *)
Definition _on_failure : M t unit :=
  modify bump_failed_calls ;;;
  b0 <- get ;;
  modify (set_failure_count (failure_count b0 + 1)) ;;;
  t_now <- now ;;
  modify (set_last_failure_time (Some t_now)) ;;;
  b <- get ;;
  match state b with
  | HALF_OPEN => _transition_to OPEN
  | CLOSED =>
      when (failure_threshold b <=? failure_count b) (_transition_to OPEN)
  | OPEN => ret tt
  end.

(** [_get_remaining_timeout]: [max(0, recovery_timeout - int(elapsed))]. *)
Definition _get_remaining_timeout : M t Z :=
  b <- get ;;
  match last_failure_time b with
  | Some lf =>
      t_now <- now ;;
      let elapsed := t_now - lf in
      ret (Z.max 0 (recovery_timeout b - Clock.int_seconds elapsed))
  | None => ret 0
  end.

(** What the wrapped function does when it is run. *)
Inductive FuncOutcome (A : Type) : Type :=
| FuncReturns (a : A)
| FuncRaisesExpected (msg : string)
| FuncRaisesOther (msg : string).
Arguments FuncReturns {A} a.
Arguments FuncRaisesExpected {A} msg.
Arguments FuncRaisesOther {A} msg.

Inductive Error : Type :=
| CircuitOpenError (remaining : Z)
| FuncError (msg : string).

(** The first critical section of [call]: count the call, inspect the
    state, and reject when it is OPEN. [None] means the call is admitted. *)
Definition call_guard : M t (option Error) :=
  modify bump_total_calls ;;;
  current_state <- _get_current_state ;;
  match current_state with
  | OPEN =>
      modify bump_rejected_calls ;;;
      remaining <- _get_remaining_timeout ;;
      ret (Some (CircuitOpenError remaining))
  | _ => ret None
  end.

(** [call]: the guard, then the function, then the bookkeeping. Only an
    exception of the expected class is counted as a failure. *)
Definition call {A} (func : FuncOutcome A) : M t (Outcome Error A) :=
  rejected <- call_guard ;;
  match rejected with
  | Some e => ret (Raised e)
  | None =>
      match func with
      | FuncReturns a => _on_success ;;; ret (Returned a)
      | FuncRaisesExpected msg => _on_failure ;;; ret (Raised (FuncError msg))
      | FuncRaisesOther msg => ret (Raised (FuncError msg))
      end
  end.

(** [reset] *)
Definition reset : M t unit :=
  _transition_to CLOSED ;;;
  modify (set_failure_count 0) ;;;
  modify (set_success_count 0).

(** [n] failures in a row, each reported through [_on_failure]. *)
Fixpoint failures (n : nat) : M t unit :=
  match n with
  | O => ret tt
  | S n' => _on_failure ;;; failures n'
  end.

(** [n] successes in a row, each reported through [_on_success]. *)
Fixpoint successes (n : nat) : M t unit :=
  match n with
  | O => ret tt
  | S n' => _on_success ;;; successes n'
  end.

(** The breaker's lock makes each of these an atomic step; between the
    guard of a call and its bookkeeping other calls may take their own
    steps, so the reachable states are those of any interleaving. *)
Inductive Reachable : t -> Prop :=
| reach_init nm ft rt st : Reachable (init nm ft rt st)
| reach_guard b c : Reachable b -> Reachable (state_of (call_guard b c))
| reach_success b c : Reachable b -> Reachable (state_of (_on_success b c))
| reach_failure b c : Reachable b -> Reachable (state_of (_on_failure b c))
| reach_reset b c : Reachable b -> Reachable (state_of (reset b c)).

(** *** Single steps *)

Ltac run := cbv [_on_failure _on_success _get_current_state _get_remaining_timeout
                 _transition_to call_guard call reset bind ret get put modify now when
                 state_of result_of clock_of]; cbn.

Lemma on_failure_closed (b : t) (c : Clock.t) :
  state b = CLOSED ->
  let b' := state_of (_on_failure b c) in
  failure_count b' = failure_count b + 1 /\
  last_failure_time b' = Some (Clock.peek c) /\
  failure_threshold b' = failure_threshold b /\
  state b' = (if failure_threshold b <=? failure_count b + 1 then OPEN else CLOSED) /\
  clock_of (_on_failure b c) =
    (if failure_threshold b <=? failure_count b + 1
     then Clock.advance (Clock.advance c) else Clock.advance c).
Proof.
  intros Hst. run. rewrite Hst. cbn.
  destruct (failure_threshold b <=? failure_count b + 1); cbn;
    repeat (rewrite Hst; cbn); auto.
Qed.

Lemma on_failure_half_open (b : t) (c : Clock.t) :
  state b = HALF_OPEN ->
  let b' := state_of (_on_failure b c) in
  state b' = OPEN /\ last_failure_time b' = Some (Clock.peek c).
Proof. intros Hst. run. repeat (rewrite Hst; cbn). auto. Qed.

Lemma on_success_half_open (b : t) (c : Clock.t) :
  state b = HALF_OPEN ->
  let b' := state_of (_on_success b c) in
  success_threshold b' = success_threshold b /\
  (if success_threshold b <=? success_count b + 1
   then state b' = CLOSED /\ failure_count b' = 0 /\ success_count b' = 0
   else state b' = HALF_OPEN /\ success_count b' = success_count b + 1).
Proof.
  intros Hst. run. rewrite Hst. cbn.
  destruct (success_threshold b <=? success_count b + 1); cbn;
    repeat (rewrite Hst; cbn); auto.
Qed.

Lemma on_success_closed (b : t) (c : Clock.t) :
  state b = CLOSED ->
  let b' := state_of (_on_success b c) in
  state b' = CLOSED /\ failure_count b' = 0.
Proof. intros Hst. run. repeat (rewrite Hst; cbn). auto. Qed.

Lemma call_guard_open (b : t) (c : Clock.t) (lf : Z) :
  state b = OPEN ->
  last_failure_time b = Some lf ->
  let r := call_guard b c in
  if Clock.seconds (recovery_timeout b) <=? Clock.peek c - lf
  then result_of r = None /\ state (state_of r) = HALF_OPEN /\
       success_count (state_of r) = 0 /\ failure_count (state_of r) = 0
  else result_of r =
         Some (CircuitOpenError
                 (Z.max 0 (recovery_timeout b -
                           Clock.int_seconds (Clock.peek (Clock.advance c) - lf)))) /\
       state (state_of r) = OPEN /\
       rejected_calls (state_of r) = rejected_calls b + 1.
Proof.
  intros Hst Hlf. run. rewrite Hst, Hlf. cbn.
  destruct (Clock.seconds (recovery_timeout b) <=? Clock.peek c - lf); cbn;
    repeat (first [rewrite Hst | rewrite Hlf]; cbn); auto.
Qed.

(** A rejected call does not run the wrapped function: neither a success
    nor a failure is recorded. *)
Lemma call_open_rejected {A} (func : FuncOutcome A) (b : t) (c : Clock.t) (lf : Z) :
  state b = OPEN ->
  last_failure_time b = Some lf ->
  Clock.peek c - lf < Clock.seconds (recovery_timeout b) ->
  let r := call func b c in
  result_of r =
    Raised (CircuitOpenError
              (Z.max 0 (recovery_timeout b -
                        Clock.int_seconds (Clock.peek (Clock.advance c) - lf)))) /\
  state (state_of r) = OPEN /\
  successful_calls (state_of r) = successful_calls b /\
  failed_calls (state_of r) = failed_calls b /\
  failure_count (state_of r) = failure_count b.
Proof.
  intros Hst Hlf Hlt. run. rewrite Hst, Hlf. cbn.
  destruct (Z.leb_spec (Clock.seconds (recovery_timeout b)) (Clock.peek c - lf)); [lia|].
  cbn. repeat (first [rewrite Hst | rewrite Hlf]; cbn). auto.
Qed.

(** An OPEN breaker always carries the time of its last failure, so the
    recovery test of [_get_current_state] is never skipped. *)
Definition open_is_stamped (b : t) : Prop :=
  state b = OPEN -> exists lf, last_failure_time b = Some lf.

Lemma reachable_open_is_stamped (b : t) : Reachable b -> open_is_stamped b.
Proof.
  unfold open_is_stamped.
  induction 1 as [nm ft rt st | b c _ IH | b c _ IH | b c _ IH | b c _ IH].
  - discriminate.
  - destruct b as [? ? ? ? st ? ? lf ? ? ? ? ? ?]. revert IH. run.
    destruct st; cbn; try discriminate.
    destruct lf as [lf|]; cbn.
    + destruct (_ <=? _); cbn; [discriminate | eauto].
    + intros IH _. destruct (IH eq_refl); discriminate.
  - destruct b as [? ? ? ? st ? ? lf ? ? ? ? ? ?]. revert IH. run.
    destruct st; cbn; try discriminate; auto.
    destruct (_ <=? _); cbn; discriminate.
  - destruct b as [? ? ? ? st ? ? lf ? ? ? ? ? ?]. run.
    destruct st; cbn; eauto.
    destruct (_ <=? _); cbn; eauto.
  - destruct b as [? ? ? ? st ? ? lf ? ? ? ? ? ?]. run.
    destruct st; cbn; discriminate.
Qed.

(** *** Runs of failures and of successes *)

Lemma failures_below_threshold (k : nat) : forall (b : t) (c : Clock.t),
  state b = CLOSED ->
  failure_count b + Z.of_nat k < failure_threshold b ->
  let r := failures k b c in
  state (state_of r) = CLOSED /\
  failure_count (state_of r) = failure_count b + Z.of_nat k /\
  failure_threshold (state_of r) = failure_threshold b /\
  clock_of r = Nat.iter k Clock.advance c.
Proof.
  induction k as [|k IH]; intros b c Hst Hlt.
  - cbn. repeat split; first [assumption | reflexivity | lia].
  - cbv zeta. cbn [failures]. unfold bind.
    destruct (_on_failure b c) as [[u b1] c1] eqn:E.
    pose proof (on_failure_closed b c Hst) as (Hfc & _ & Hft & Hs & Hc).
    rewrite E in Hfc, Hft, Hs, Hc. cbn in Hfc, Hft, Hs, Hc.
    destruct (Z.leb_spec (failure_threshold b) (failure_count b + 1)); [lia|].
    destruct (IH b1 c1 Hs ltac:(lia)) as (H1 & H2 & H3 & H4).
    repeat split; [assumption|lia|congruence|].
    rewrite H4, Hc. rewrite Nat.iter_succ_r. reflexivity.
Qed.

Lemma successes_below_threshold (k : nat) : forall (b : t) (c : Clock.t),
  state b = HALF_OPEN ->
  success_count b + Z.of_nat k < success_threshold b ->
  let r := successes k b c in
  state (state_of r) = HALF_OPEN /\
  success_count (state_of r) = success_count b + Z.of_nat k /\
  success_threshold (state_of r) = success_threshold b.
Proof.
  induction k as [|k IH]; intros b c Hst Hlt.
  - cbn. repeat split; first [assumption | reflexivity | lia].
  - cbv zeta. cbn [successes]. unfold bind.
    destruct (_on_success b c) as [[u b1] c1] eqn:E.
    pose proof (on_success_half_open b c Hst) as (Hth & Hs).
    rewrite E in Hth, Hs. cbn in Hth, Hs.
    destruct (Z.leb_spec (success_threshold b) (success_count b + 1)); [lia|].
    destruct Hs as (Hs & Hsc).
    destruct (IH b1 c1 Hs ltac:(lia)) as (H1 & H2 & H3).
    repeat split; [assumption|lia|congruence].
Qed.

Lemma failures_snoc (k : nat) : forall (b : t) (c : Clock.t),
  failures (S k) b c =
  (let '(_, b1, c1) := failures k b c in _on_failure b1 c1).
Proof.
  induction k as [|k IH]; intros b c.
  - unfold failures, bind, ret. destruct (_on_failure b c) as [[[] b1] c1]. reflexivity.
  - change (failures (S (S k)) b c)
      with (let '(_, b1, c1) := _on_failure b c in failures (S k) b1 c1).
    destruct (_on_failure b c) as [[u b1] c1] eqn:E.
    rewrite IH. cbn [failures]. unfold bind at 1. rewrite E. reflexivity.
Qed.

Lemma successes_snoc (k : nat) : forall (b : t) (c : Clock.t),
  successes (S k) b c =
  (let '(_, b1, c1) := successes k b c in _on_success b1 c1).
Proof.
  induction k as [|k IH]; intros b c.
  - unfold successes, bind, ret. destruct (_on_success b c) as [[[] b1] c1]. reflexivity.
  - change (successes (S (S k)) b c)
      with (let '(_, b1, c1) := _on_success b c in successes (S k) b1 c1).
    destruct (_on_success b c) as [[u b1] c1] eqn:E.
    rewrite IH. cbn [successes]. unfold bind at 1. rewrite E. reflexivity.
Qed.

(** The [n]-th failure in a row, [n] the threshold, opens the circuit and
    stamps it with the clock value read by that failure. *)
Lemma failures_reach_threshold (n : nat) (b : t) (c : Clock.t) :
  state b = CLOSED ->
  failure_count b = 0 ->
  failure_threshold b = Z.of_nat (S n) ->
  let r := failures (S n) b c in
  state (state_of r) = OPEN /\
  last_failure_time (state_of r) = Some (Clock.peek (Nat.iter n Clock.advance c)).
Proof.
  intros Hst Hfc Hth. cbv zeta. rewrite failures_snoc.
  pose proof (failures_below_threshold n b c Hst ltac:(lia)) as (H1 & H2 & H3 & H4).
  destruct (failures n b c) as [[u b1] c1]. cbn in H1, H2, H3, H4.
  pose proof (on_failure_closed b1 c1 H1) as (_ & Hl & _ & Hs & _).
  destruct (Z.leb_spec (failure_threshold b1) (failure_count b1 + 1)); [|lia].
  subst c1. auto.
Qed.

Lemma successes_reach_threshold (n : nat) (b : t) (c : Clock.t) :
  state b = HALF_OPEN ->
  success_count b = 0 ->
  success_threshold b = Z.of_nat (S n) ->
  let r := successes (S n) b c in
  state (state_of r) = CLOSED /\
  failure_count (state_of r) = 0 /\ success_count (state_of r) = 0.
Proof.
  intros Hst Hfc Hth. cbv zeta. rewrite successes_snoc.
  pose proof (successes_below_threshold n b c Hst ltac:(lia)) as (H1 & H2 & H3).
  destruct (successes n b c) as [[u b1] c1]. cbn in H1, H2, H3.
  pose proof (on_success_half_open b1 c1 H1) as (_ & Hs).
  destruct (Z.leb_spec (success_threshold b1) (success_count b1 + 1)); [|lia].
  exact Hs.
Qed.

Lemma reachable_failures (k : nat) : forall (b : t) (c : Clock.t),
  Reachable b -> Reachable (state_of (failures k b c)).
Proof.
  induction k as [|k IH]; intros b c Hr; [exact Hr|].
  cbn [failures]. unfold bind.
  pose proof (reach_failure b c Hr) as Hr'.
  destruct (_on_failure b c) as [[u b1] c1]. apply IH, Hr'.
Qed.

(** C3. Circuit breaker step behaviour. For a reachable breaker [b] and any
    clock [c]:
    - CLOSED: a success resets the failure counter to zero; a counted
      failure opens the circuit exactly when it brings the counter to
      [failure_threshold]; starting from a zero counter, the first
      [failure_threshold - 1] failures in a row leave the circuit CLOSED and
      the next one makes it OPEN, stamped with the time of that failure;
    - OPEN: the time of the last failure is known; if [recovery_timeout]
      seconds have elapsed since then, the next inspected call is admitted
      and moves the circuit to HALF_OPEN with both counters at zero;
      otherwise the call is rejected with [CircuitOpenError] carrying
      [max(0, recovery_timeout - int(elapsed))] and the circuit stays OPEN;
    - HALF_OPEN: one counted failure re-opens the circuit; a success closes
      it exactly when it brings the success counter to [success_threshold],
      so from a zero counter [success_threshold] successes in a row are
      needed and enough. *)
Theorem circuit_step_behaviour (b : t) (c : Clock.t) :
  Reachable b ->
  (state b = CLOSED ->
     (state (state_of (_on_success b c)) = CLOSED /\
      failure_count (state_of (_on_success b c)) = 0) /\
     state (state_of (_on_failure b c)) =
       (if failure_threshold b <=? failure_count b + 1 then OPEN else CLOSED) /\
     (forall n : nat,
        failure_count b = 0 ->
        failure_threshold b = Z.of_nat (S n) ->
        (forall k : nat, (k <= n)%nat -> state (state_of (failures k b c)) = CLOSED) /\
        state (state_of (failures (S n) b c)) = OPEN /\
        last_failure_time (state_of (failures (S n) b c)) =
          Some (Clock.peek (Nat.iter n Clock.advance c)))) /\
  (state b = OPEN ->
     exists lf : Z,
       last_failure_time b = Some lf /\
       (Clock.seconds (recovery_timeout b) <= Clock.peek c - lf ->
          result_of (call_guard b c) = None /\
          state (state_of (call_guard b c)) = HALF_OPEN /\
          success_count (state_of (call_guard b c)) = 0 /\
          failure_count (state_of (call_guard b c)) = 0) /\
       (Clock.peek c - lf < Clock.seconds (recovery_timeout b) ->
          forall (A : Type) (func : FuncOutcome A),
            result_of (call func b c) =
              Raised (CircuitOpenError
                        (Z.max 0 (recovery_timeout b -
                                  Clock.int_seconds
                                    (Clock.peek (Clock.advance c) - lf)))) /\
            state (state_of (call func b c)) = OPEN)) /\
  (state b = HALF_OPEN ->
     state (state_of (_on_failure b c)) = OPEN /\
     state (state_of (_on_success b c)) =
       (if success_threshold b <=? success_count b + 1 then CLOSED else HALF_OPEN) /\
     (forall n : nat,
        success_count b = 0 ->
        success_threshold b = Z.of_nat (S n) ->
        (forall k : nat, (k <= n)%nat -> state (state_of (successes k b c)) = HALF_OPEN) /\
        state (state_of (successes (S n) b c)) = CLOSED)).
Proof.
  intros Hr. split; [|split].
  - intros Hst. split; [|split].
    + apply (on_success_closed b c Hst).
    + apply (on_failure_closed b c Hst).
    + intros n Hfc Hth. split; [|].
      * intros k Hk. apply (failures_below_threshold k b c Hst). lia.
      * apply (failures_reach_threshold n b c Hst Hfc Hth).
  - intros Hst. destruct (reachable_open_is_stamped b Hr Hst) as [lf Hlf].
    exists lf. split; [exact Hlf|]. split.
    + intros Hge. pose proof (call_guard_open b c lf Hst Hlf) as H.
      destruct (Z.leb_spec (Clock.seconds (recovery_timeout b)) (Clock.peek c - lf));
        [exact H | lia].
    + intros Hlt A func.
      destruct (call_open_rejected func b c lf Hst Hlf Hlt) as (H1 & H2 & _).
      split; assumption.
  - intros Hst. split; [|split].
    + apply (on_failure_half_open b c Hst).
    + destruct (on_success_half_open b c Hst) as (_ & H).
      destruct (success_threshold b <=? success_count b + 1); tauto.
    + intros n Hsc Hth. split.
      * intros k Hk. apply (successes_below_threshold k b c Hst). lia.
      * apply (successes_reach_threshold n b c Hst Hsc Hth).
Qed.

(** The default breaker: five failures open it; 61 seconds after the last
    failure the next call is admitted in HALF_OPEN; two successes close it. *)
Definition demo_closed : t := init "upstream" 5 60 2.
Definition demo_open : t := state_of (failures 5 demo_closed (Clock.frozen 0)).
Definition demo_half_open : t :=
  state_of (call_guard demo_open (Clock.frozen (Clock.seconds 61))).

Lemma circuit_step_behaviour_witness :
  state (state_of (failures 5 demo_closed (Clock.frozen 0))) = OPEN /\
  state (state_of (call_guard demo_open (Clock.frozen (Clock.seconds 61)))) = HALF_OPEN /\
  state (state_of (successes 2 demo_half_open (Clock.frozen (Clock.seconds 62)))) = CLOSED.
Proof.
  assert (Hr0 : Reachable demo_closed) by apply reach_init.
  assert (Hr1 : Reachable demo_open) by (apply reachable_failures, Hr0).
  assert (Hr2 : Reachable demo_half_open) by (apply reach_guard, Hr1).
  split; [|split].
  - destruct (circuit_step_behaviour demo_closed (Clock.frozen 0) Hr0) as (H & _ & _).
    destruct (H eq_refl) as (_ & _ & H').
    destruct (H' 4%nat eq_refl eq_refl) as (_ & H'' & _). exact H''.
  - destruct (circuit_step_behaviour demo_open (Clock.frozen (Clock.seconds 61)) Hr1)
      as (_ & H & _).
    destruct (H eq_refl) as (lf & Hlf & H' & _).
    assert (lf = 0) as -> by (cbv in Hlf; congruence).
    destruct (H' ltac:(vm_compute; discriminate)) as (_ & H'' & _). exact H''.
  - destruct (circuit_step_behaviour demo_half_open (Clock.frozen (Clock.seconds 62)) Hr2)
      as (_ & _ & H).
    destruct (H eq_refl) as (_ & _ & H').
    destruct (H' 1%nat eq_refl eq_refl) as (_ & H''). exact H''.
Defined.

(** *** Whole calls in a row, the journal, and the counters *)

(** Calls made one after the other, each to completion, results
    discarded. *)
Fixpoint calls {A} (funcs : list (FuncOutcome A)) : M t unit :=
  match funcs with
  | [] => ret tt
  | func :: rest => call func ;;; calls rest
  end.


(** The calls that [stats] files under an outcome. *)
Definition settled (b : t) : Z := successful_calls b + failed_calls b + rejected_calls b.

(** The journal read as a path: every entry leaves the state the previous
    one entered, and enters a different one. *)
Fixpoint replay (start : CircuitState) (j : list StateChange) : option CircuitState :=
  match j with
  | [] => Some start
  | e :: j' =>
      if CircuitState_eqb (sc_from e) start && negb (CircuitState_eqb (sc_to e) start)
      then replay (sc_to e) j'
      else None
  end.

Lemma call_counts {A} (func : FuncOutcome A) (b : t) (c : Clock.t) :
  total_calls (state_of (call func b c)) = total_calls b + 1 /\
  settled (state_of (call func b c)) =
    settled b +
    match result_of (call func b c), func with
    | Raised (CircuitOpenError _), _ => 1
    | _, FuncRaisesOther _ => 0
    | _, _ => 1
    end.
Proof.
  destruct b as [nm ft rt sth st fc sc lf ls tc suc fl rj j]. unfold settled.
  destruct st, lf as [lf|], func as [a|msg|msg]; run;
    repeat match goal with
           | |- context [if ?x <=? ?y then _ else _] => destruct (x <=? y); cbn
           end; split; lia.
Qed.


Lemma replay_snoc (j : list StateChange) (e : StateChange) : forall start : CircuitState,
  replay start (j ++ [e]) =
  match replay start j with
  | Some s =>
      if CircuitState_eqb (sc_from e) s && negb (CircuitState_eqb (sc_to e) s)
      then Some (sc_to e) else None
  | None => None
  end.
Proof.
  induction j as [|e' j IH]; intros start; cbn.
  - destruct (_ && _); reflexivity.
  - destruct (_ && _); [apply IH | reflexivity].
Qed.

(** X2. The journal is the history of the state. On every breaker
    reachable from [__init__], [stats["state_changes"]] read from CLOSED is
    an unbroken path (each entry starts where the one before ended and
    changes the state) that ends at the current state: no transition goes
    unrecorded and no entry records a change that did not happen. *)
Theorem journal_follows_state (b : t) :
  Reachable b -> replay CLOSED (state_changes b) = Some (state b).
Proof.
  induction 1 as [nm ft rt st | b c _ IH | b c _ IH | b c _ IH | b c _ IH];
    [reflexivity | | | |];
    destruct b as [nm ft rt sth st fc sc lf ls tc suc fl rj j]; cbn in IH;
    destruct st, lf as [lf|]; run;
    repeat match goal with
           | |- context [if ?x <=? ?y then _ else _] => destruct (x <=? y); cbn
           end;
    rewrite ?replay_snoc, ?IH; reflexivity.
Qed.

Lemma journal_follows_state_witness :
  replay CLOSED (state_changes demo_half_open) = Some HALF_OPEN.
Proof.
  apply (journal_follows_state demo_half_open).
  apply reach_guard, reachable_failures, reach_init.
Defined.

(** X3. The counters stay below their thresholds. On every reachable
    breaker: while CLOSED, [failure_count] is non-negative and below
    [failure_threshold] (below 1 for a threshold under 1) and
    [success_count] is zero; while HALF_OPEN, [success_count] is
    non-negative and below [success_threshold] and [failure_count] is
    zero. *)
Theorem counters_below_thresholds (b : t) :
  Reachable b ->
  (state b = CLOSED ->
   0 <= failure_count b < Z.max 1 (failure_threshold b) /\ success_count b = 0) /\
  (state b = HALF_OPEN ->
   0 <= success_count b < Z.max 1 (success_threshold b) /\ failure_count b = 0).
Proof.
  induction 1 as [nm ft rt st | b c _ IH | b c _ IH | b c _ IH | b c _ IH];
    [cbn; split; [intros _; lia | discriminate] | | | |];
    destruct b as [nm ft rt sth st fc sc lf ls tc suc fl rj j]; cbn in IH;
    destruct IH as [IH1 IH2];
    destruct st, lf as [lf|]; run;
    repeat match goal with
           | |- context [if ?x <=? ?y then _ else _] =>
               destruct (Z.leb_spec x y); cbn
           end;
    (split; intros Hst; try discriminate Hst;
     try specialize (IH1 eq_refl); try specialize (IH2 eq_refl); lia).
Qed.

Lemma counters_below_thresholds_witness :
  0 <= failure_count demo_closed < Z.max 1 (failure_threshold demo_closed) /\
  success_count demo_closed = 0.
Proof.
  destruct (counters_below_thresholds demo_closed (reach_init _ _ _ _)) as [H _].
  exact (H eq_refl).
Defined.

End CircuitBreaker.

(** ** Python containers used by the limiters and the cache *)

(** [collections.OrderedDict] with string keys: an association list in
    insertion order, without repeated keys. *)
Module OrderedDict.

Definition t (V : Type) : Type := list (string * V).

Fixpoint lookup {V} (k : string) (d : t V) : option V :=
  match d with
  | [] => None
  | (k', v) :: d' => if String.eqb k k' then Some v else lookup k d'
  end.

Definition contains {V} (k : string) (d : t V) : bool :=
  match lookup k d with Some _ => true | None => false end.

(** [d[k] = v]: an existing key keeps its position, a new key goes last. *)
Fixpoint set {V} (k : string) (v : V) (d : t V) : t V :=
  match d with
  | [] => [(k, v)]
  | (k', v') :: d' =>
      if String.eqb k k' then (k', v) :: d' else (k', v') :: set k v d'
  end.

(** [del d[k]] for a key that may be absent (callers test membership). *)
Fixpoint remove {V} (k : string) (d : t V) : t V :=
  match d with
  | [] => []
  | (k', v') :: d' =>
      if String.eqb k k' then d' else (k', v') :: remove k d'
  end.

(** [d.popitem(last=False)] on a non-empty dictionary; the empty one is
    left alone (callers test it first). *)
Definition pop_first {V} (d : t V) : t V := List.tl d.

(** [d.move_to_end(k)] *)
Definition move_to_end {V} (k : string) (d : t V) : t V :=
  match lookup k d with
  | Some v => remove k d ++ [(k, v)]
  | None => d
  end.

Definition keys {V} (d : t V) : list string := List.map fst d.

Definition len {V} (d : t V) : Z := Z.of_nat (List.length d).

(** *** Facts, for dictionaries without repeated keys *)

Lemma lookup_not_in {V} (k : string) (d : t V) :
  ~ In k (keys d) -> lookup k d = None.
Proof.
  induction d as [|[k' v] d IH]; cbn; [reflexivity|]. intros Hn.
  destruct (String.eqb_spec k k') as [->|Hne]; [tauto|]. apply IH. tauto.
Qed.

Lemma lookup_in {V} (k : string) (v : V) (d : t V) :
  lookup k d = Some v -> In k (keys d).
Proof.
  induction d as [|[k' v'] d IH]; cbn; [discriminate|].
  destruct (String.eqb_spec k k') as [->|Hne]; [tauto|]. intros H. right. auto.
Qed.

Lemma lookup_set_eq {V} (k : string) (v : V) (d : t V) :
  lookup k (set k v d) = Some v.
Proof.
  induction d as [|[k' v'] d IH]; cbn.
  - rewrite String.eqb_refl. reflexivity.
  - destruct (String.eqb_spec k k') as [->|Hne]; cbn.
    + rewrite String.eqb_refl. reflexivity.
    + destruct (String.eqb_spec k k'); [contradiction|]. exact IH.
Qed.

Lemma lookup_set_ne {V} (k k0 : string) (v : V) (d : t V) :
  k0 <> k -> lookup k0 (set k v d) = lookup k0 d.
Proof.
  intros Hne. induction d as [|[k' v'] d IH]; cbn.
  - destruct (String.eqb_spec k0 k); [contradiction|reflexivity].
  - destruct (String.eqb_spec k k') as [->|Hne']; cbn.
    + destruct (String.eqb_spec k0 k'); [contradiction|reflexivity].
    + rewrite IH. reflexivity.
Qed.

Lemma keys_set_in {V} (k : string) (v : V) (d : t V) (x : string) :
  In x (keys (set k v d)) -> x = k \/ In x (keys d).
Proof.
  induction d as [|[k' v'] d IH]; cbn.
  - intros [<-|[]]. auto.
  - destruct (String.eqb_spec k k') as [->|Hne]; cbn; [tauto|].
    intros [<-|H]; [tauto|]. destruct (IH H); tauto.
Qed.

Lemma NoDup_set {V} (k : string) (v : V) (d : t V) :
  NoDup (keys d) -> NoDup (keys (set k v d)).
Proof.
  induction d as [|[k' v'] d IH]; cbn; intros Hnd.
  - repeat constructor. rewrite list_elem_of_In. cbn. tauto.
  - apply NoDup_cons in Hnd as [Hk Hnd].
    destruct (String.eqb_spec k k') as [->|Hne]; cbn.
    + apply NoDup_cons. split; assumption.
    + apply NoDup_cons. split; [|auto].
      rewrite list_elem_of_In in *. intros Hin.
      destruct (keys_set_in _ _ _ _ Hin) as [->|Hin']; [congruence|contradiction].
Qed.

Lemma set_fresh {V} (k : string) (v : V) (d : t V) :
  lookup k d = None -> set k v d = d ++ [(k, v)].
Proof.
  induction d as [|[k' v'] d IH]; cbn; [reflexivity|].
  destruct (String.eqb_spec k k'); [discriminate|]. intros H. rewrite IH by exact H.
  reflexivity.
Qed.

Lemma set_same {V} (k : string) (v : V) (d : t V) :
  lookup k d = Some v -> set k v d = d.
Proof.
  induction d as [|[k' v'] d IH]; cbn; [discriminate|].
  destruct (String.eqb_spec k k') as [->|Hne].
  - intros [= ->]. reflexivity.
  - intros H. rewrite IH by exact H. reflexivity.
Qed.

Lemma lookup_filter {V} (P : string * V -> bool) (k : string) (d : t V) :
  NoDup (keys d) ->
  lookup k (List.filter P d) =
  match lookup k d with
  | Some v => if P (k, v) then Some v else None
  | None => None
  end.
Proof.
  induction d as [|[k' v] d IH]; cbn; [reflexivity|]. intros Hnd.
  apply NoDup_cons in Hnd as [Hk Hnd]. rewrite list_elem_of_In in Hk.
  destruct (String.eqb_spec k k') as [->|Hne].
  - destruct (P (k', v)) eqn:HP; cbn.
    + rewrite String.eqb_refl. reflexivity.
    + rewrite IH by exact Hnd. rewrite (lookup_not_in k' d Hk). reflexivity.
  - destruct (P (k', v)); cbn.
    + destruct (String.eqb_spec k k'); [contradiction|]. auto.
    + auto.
Qed.

Lemma NoDup_filter_keys {V} (P : string * V -> bool) (d : t V) :
  NoDup (keys d) -> NoDup (keys (List.filter P d)).
Proof.
  induction d as [|[k' v] d IH]; cbn; [auto|]. intros Hnd.
  apply NoDup_cons in Hnd as [Hk Hnd].
  destruct (P (k', v)); cbn; [|auto].
  apply NoDup_cons. split; [|auto].
  rewrite list_elem_of_In in *. intros Hin. apply Hk.
  unfold keys in *. apply in_map_iff in Hin as ([k1 v1] & <- & Hin).
  apply List.filter_In in Hin as [Hin _].
  apply in_map_iff. exists (k1, v1). auto.
Qed.

Lemma lookup_pop_first {V} (k : string) (d : t V) :
  NoDup (keys d) ->
  lookup k (pop_first d) = None \/ lookup k (pop_first d) = lookup k d.
Proof.
  destruct d as [|[k' v] d]; cbn; [auto|]. intros Hnd.
  apply NoDup_cons in Hnd as [Hk Hnd]. rewrite list_elem_of_In in Hk.
  destruct (String.eqb_spec k k') as [->|Hne]; [|auto].
  left. apply lookup_not_in, Hk.
Qed.

Lemma NoDup_pop_first {V} (d : t V) :
  NoDup (keys d) -> NoDup (keys (pop_first d)).
Proof.
  destruct d as [|[k' v] d]; cbn; [auto|]. intros Hnd.
  apply NoDup_cons in Hnd as [_ Hnd]. exact Hnd.
Qed.


Lemma lookup_app_last {V} (k : string) (v0 : V) (d : t V) :
  lookup k d = None ->
  lookup k (d ++ [(k, v0)]) = Some v0.
Proof.
  induction d as [|[k' v'] d IH]; cbn.
  - rewrite String.eqb_refl. reflexivity.
  - destruct (String.eqb_spec k k'); [discriminate|]. exact IH.
Qed.

Lemma lookup_app_other {V} (k k0 : string) (v0 : V) (d : t V) :
  k0 <> k ->
  lookup k0 (d ++ [(k, v0)]) = lookup k0 d.
Proof.
  intros Hne. induction d as [|[k' v'] d IH]; cbn.
  - destruct (String.eqb_spec k0 k); [contradiction|reflexivity].
  - rewrite IH. reflexivity.
Qed.


Lemma remove_absent {V} (k : string) (d : t V) :
  lookup k d = None -> remove k d = d.
Proof.
  induction d as [|[k' v] d IH]; cbn; [reflexivity|].
  destruct (String.eqb_spec k k'); [discriminate|]. intros H.
  rewrite IH by exact H. reflexivity.
Qed.

Lemma keys_remove_in {V} (k x : string) (d : t V) :
  In x (keys (remove k d)) -> In x (keys d).
Proof.
  induction d as [|[k' v] d IH]; cbn; [auto|].
  destruct (String.eqb_spec k k'); cbn; [auto|]. intros [H|H]; auto.
Qed.

Lemma NoDup_remove {V} (k : string) (d : t V) :
  NoDup (keys d) -> NoDup (keys (remove k d)).
Proof.
  induction d as [|[k' v] d IH]; cbn; [auto|]. intros Hnd.
  apply NoDup_cons in Hnd as [Hk Hnd].
  destruct (String.eqb_spec k k'); cbn; [exact Hnd|].
  apply NoDup_cons. split; [|auto].
  rewrite list_elem_of_In in *. intros Hin. apply Hk.
  apply (keys_remove_in k), Hin.
Qed.

Lemma lookup_remove_eq {V} (k : string) (d : t V) :
  NoDup (keys d) -> lookup k (remove k d) = None.
Proof.
  induction d as [|[k' v] d IH]; cbn; [reflexivity|]. intros Hnd.
  apply NoDup_cons in Hnd as [Hk Hnd]. rewrite list_elem_of_In in Hk.
  destruct (String.eqb_spec k k') as [->|Hne]; cbn.
  - apply lookup_not_in, Hk.
  - destruct (String.eqb_spec k k'); [contradiction|]. auto.
Qed.

Lemma lookup_remove_ne {V} (k k0 : string) (d : t V) :
  k0 <> k -> lookup k0 (remove k d) = lookup k0 d.
Proof.
  intros Hne. induction d as [|[k' v] d IH]; cbn; [reflexivity|].
  destruct (String.eqb_spec k k') as [->|Hne']; cbn.
  - destruct (String.eqb_spec k0 k'); [contradiction|reflexivity].
  - rewrite IH. reflexivity.
Qed.

Lemma keys_app {V} (d1 d2 : t V) : keys (d1 ++ d2) = keys d1 ++ keys d2.
Proof. unfold keys. apply List.map_app. Qed.

Lemma lookup_move_to_end {V} (k : string) (v : V) (d : t V) :
  NoDup (keys d) -> lookup k d = Some v -> lookup k (move_to_end k d) = Some v.
Proof.
  intros Hnd Hl. unfold move_to_end. rewrite Hl.
  apply lookup_app_last, lookup_remove_eq, Hnd.
Qed.

Lemma lookup_move_to_end_ne {V} (k k0 : string) (d : t V) :
  k0 <> k -> lookup k0 (move_to_end k d) = lookup k0 d.
Proof.
  intros Hne. unfold move_to_end. destruct (lookup k d) as [v|]; [|reflexivity].
  rewrite lookup_app_other by exact Hne. apply lookup_remove_ne, Hne.
Qed.

Lemma NoDup_app_last {V} (k : string) (v : V) (d : t V) :
  NoDup (keys d) -> lookup k d = None -> NoDup (keys (d ++ [(k, v)])).
Proof.
  intros Hd Hl. rewrite keys_app. cbn. apply NoDup_app.
  split; [exact Hd|]. split; [|apply NoDup_singleton].
  intros x Hx Hx'. apply list_elem_of_singleton in Hx'. subst x.
  rewrite list_elem_of_In in Hx. revert Hx Hl. clear.
  induction d as [|[k' v'] d IH]; cbn; [tauto|].
  destruct (String.eqb_spec k k'); [discriminate|].
  intros [?|?] ?; [congruence|auto].
Qed.

Lemma NoDup_move_to_end {V} (k : string) (d : t V) :
  NoDup (keys d) -> NoDup (keys (move_to_end k d)).
Proof.
  intros Hnd. unfold move_to_end. destruct (lookup k d) as [v|]; [|exact Hnd].
  apply NoDup_app_last; [apply NoDup_remove, Hnd | apply lookup_remove_eq, Hnd].
Qed.

Lemma iter_pop_first {V} (n : nat) (k : string) (d : t V) :
  NoDup (keys d) ->
  NoDup (keys (Nat.iter n pop_first d)) /\
  (lookup k (Nat.iter n pop_first d) = None \/
   lookup k (Nat.iter n pop_first d) = lookup k d).
Proof.
  intros Hnd. induction n as [|n [IHnd IH]]; [cbn; auto|].
  rewrite Nat.iter_succ.
  split; [apply NoDup_pop_first, IHnd|].
  destruct (lookup_pop_first k _ IHnd) as [H|H]; [auto|].
  rewrite H. exact IH.
Qed.

(** *** Sizes and properties of the values *)

Lemma set_set {V} (k : string) (v1 v2 : V) (d : t V) :
  set k v2 (set k v1 d) = set k v2 d.
Proof.
  induction d as [|[k' v'] d IH]; cbn.
  - rewrite String.eqb_refl. reflexivity.
  - destruct (String.eqb_spec k k') as [->|Hne]; cbn.
    + rewrite String.eqb_refl. reflexivity.
    + destruct (String.eqb_spec k k'); [contradiction|]. rewrite IH. reflexivity.
Qed.




Lemma length_remove_le {V} (k : string) (d : t V) :
  (length (remove k d) <= length d)%nat.
Proof.
  induction d as [|[k' v'] d IH]; cbn; [lia|].
  destruct (String.eqb k k'); cbn; lia.
Qed.



End OrderedDict.

(** [collections.deque(maxlen=n)] of clock readings. *)
Module Deque.

Record t : Type := mk { maxlen : Z; items : list Z }.

Definition len (d : t) : Z := Z.of_nat (List.length (items d)).

(** [while d and d[0] < cutoff: d.popleft()] *)
Fixpoint popleft_while_before (cutoff : Z) (l : list Z) : list Z :=
  match l with
  | [] => []
  | x :: l' => if x <? cutoff then popleft_while_before cutoff l' else l
  end.

Definition prune (cutoff : Z) (d : t) : t :=
  mk (maxlen d) (popleft_while_before cutoff (items d)).

(** [d.append(x)]: a full deque drops its leftmost item; with [maxlen = 0]
    nothing is kept. *)
Definition append (x : Z) (d : t) : t :=
  if maxlen d =? 0 then d
  else if maxlen d <=? len d then mk (maxlen d) (List.tl (items d) ++ [x])
  else mk (maxlen d) (items d ++ [x]).

(** [d[-1]] *)
Definition last (d : t) : option Z := List.last (List.map Some (items d)) None.

End Deque.

(** ** [circuit_breaker.py]: the manager and the decorator *)

Module CircuitBreakerManager.

Import CircuitBreaker.

(** [self.breakers]: the breakers by name. *)
Definition t : Type := OrderedDict.t CircuitBreaker.t.

(** [CircuitBreakerManager.__init__] *)
Definition init : t := [].

(** [get_or_create]. [success_threshold] travels in [**kwargs] and falls
    back on the default of [CircuitBreaker.__init__]. The arguments are
    used only when the name is new. *)
Definition get_or_create (name : string) (failure_threshold recovery_timeout : Z)
           (success_threshold : option Z) : M t CircuitBreaker.t :=
  breakers <- get ;;
  match OrderedDict.lookup name breakers with
  | Some breaker => ret breaker
  | None =>
      let breaker := CircuitBreaker.init name failure_threshold recovery_timeout
                                         (default 2 success_threshold) in
      put (OrderedDict.set name breaker breakers) ;;;
      ret breaker
  end.

(** The [wrapper] built by the decorator [circuit_breaker]: the breaker is
    fetched from the manager at every call, and the call works on the
    object the manager holds, so what the call does to the breaker is seen
    by every later user of that name. *)
Definition wrapper {A} (name : string) (failure_threshold recovery_timeout : Z)
           (func : FuncOutcome A) : M t (Outcome Error A) :=
  breaker <- get_or_create name failure_threshold recovery_timeout None ;;
  fun breakers c =>
    let '(r, breaker', c') := CircuitBreaker.call func breaker c in
    (r, OrderedDict.set name breaker' breakers, c').

(** [reset_all]: [reset] on every breaker, in the order of the
    dictionary. *)
Fixpoint reset_each (l : list (string * CircuitBreaker.t)) (c : Clock.t)
  : list (string * CircuitBreaker.t) * Clock.t :=
  match l with
  | [] => ([], c)
  | (name, breaker) :: rest =>
      let '(_, breaker', c') := CircuitBreaker.reset breaker c in
      let '(rest', c'') := reset_each rest c' in
      ((name, breaker') :: rest', c'')
  end.

Definition reset_all : M t unit :=
  fun breakers c => let '(breakers', c') := reset_each breakers c in (tt, breakers', c').

(** A call changes neither the name nor the configuration of a breaker. *)
Lemma call_keeps_configuration {A} (func : FuncOutcome A) (b : CircuitBreaker.t)
      (c : Clock.t) :
  name (state_of (call func b c)) = name b /\
  failure_threshold (state_of (call func b c)) = failure_threshold b /\
  recovery_timeout (state_of (call func b c)) = recovery_timeout b /\
  success_threshold (state_of (call func b c)) = success_threshold b.
Proof.
  destruct b as [nm ft rt sth st fc sc lf ls tc suc fl rj j].
  destruct st, lf as [lf|], func as [a|msg|msg];
    cbv [_on_failure _on_success _get_current_state _get_remaining_timeout
         _transition_to call_guard call bind ret get put modify now when
         state_of result_of clock_of]; cbn;
    repeat match goal with
           | |- context [if ?x <=? ?y then _ else _] => destruct (x <=? y); cbn
           end; auto.
Qed.

Lemma reset_closes (b : CircuitBreaker.t) (c : Clock.t) :
  state (state_of (reset b c)) = CLOSED /\
  failure_count (state_of (reset b c)) = 0 /\
  success_count (state_of (reset b c)) = 0 /\
  failure_threshold (state_of (reset b c)) = failure_threshold b /\
  recovery_timeout (state_of (reset b c)) = recovery_timeout b /\
  success_threshold (state_of (reset b c)) = success_threshold b.
Proof.
  destruct b as [nm ft rt sth st fc sc lf ls tc suc fl rj j].
  destruct st;
    cbv [_transition_to reset bind ret get put modify now when state_of]; cbn; auto 10.
Qed.

Lemma wrapper_new {A} (name : string) (ft rt : Z) (func : FuncOutcome A)
      (breakers : t) (c : Clock.t) :
  OrderedDict.lookup name breakers = None ->
  wrapper name ft rt func breakers c =
  (let '(r, breaker', c') := call func (CircuitBreaker.init name ft rt 2) c in
   (r, OrderedDict.set name breaker'
         (OrderedDict.set name (CircuitBreaker.init name ft rt 2) breakers), c')).
Proof.
  intros H. unfold wrapper, get_or_create, bind, get, put, ret. rewrite H. reflexivity.
Qed.

Lemma wrapper_known {A} (name : string) (ft rt : Z) (func : FuncOutcome A)
      (breaker : CircuitBreaker.t) (breakers : t) (c : Clock.t) :
  OrderedDict.lookup name breakers = Some breaker ->
  wrapper name ft rt func breakers c =
  (let '(r, breaker', c') := call func breaker c in
   (r, OrderedDict.set name breaker' breakers, c')).
Proof.
  intros H. unfold wrapper, get_or_create, bind, get, put, ret. rewrite H. reflexivity.
Qed.

(** X4. One breaker per name, first registration wins. When two decorated
    functions use the same breaker name, the second call finds the breaker
    the first one created: it keeps the thresholds given at creation (those
    passed with the second call are ignored), it has counted both calls,
    and the breakers under other names are untouched. *)
Theorem breaker_shared_by_name {A} (name : string) (ft rt ft' rt' : Z)
        (f g : FuncOutcome A) (breakers : t) (c : Clock.t) :
  OrderedDict.lookup name breakers = None ->
  let r1 := wrapper name ft rt f breakers c in
  let r2 := wrapper name ft' rt' g (state_of r1) (clock_of r1) in
  (exists b : CircuitBreaker.t,
     OrderedDict.lookup name (state_of r2) = Some b /\
     failure_threshold b = ft /\ recovery_timeout b = rt /\ success_threshold b = 2 /\
     total_calls b = 2) /\
  (forall other : string,
     other <> name ->
     OrderedDict.lookup other (state_of r2) = OrderedDict.lookup other breakers).
Proof.
  intros Hnew. cbv zeta.
  rewrite (wrapper_new name ft rt f breakers c Hnew).
  set (b0 := CircuitBreaker.init name ft rt 2).
  pose proof (call_keeps_configuration f b0 c) as (_ & K1 & K2 & K3).
  pose proof (call_counts f b0 c) as [T1 _].
  destruct (call f b0 c) as [[r1 b1] c1]. cbn in K1, K2, K3, T1.
  unfold state_of at 2 4, clock_of. cbn [fst snd].
  rewrite (wrapper_known name ft' rt' g b1 _ c1 (OrderedDict.lookup_set_eq _ _ _)).
  pose proof (call_keeps_configuration g b1 c1) as (_ & L1 & L2 & L3).
  pose proof (call_counts g b1 c1) as [T2 _].
  destruct (call g b1 c1) as [[r2 b2] c2]. cbn in L1, L2, L3, T2.
  unfold state_of. cbn [fst snd]. split.
  - exists b2. rewrite OrderedDict.lookup_set_eq.
    split; [reflexivity|]. repeat split; try congruence.
    rewrite T2, T1. reflexivity.
  - intros other Hne. rewrite !OrderedDict.lookup_set_ne by exact Hne. reflexivity.
Qed.

Lemma breaker_shared_by_name_witness :
  exists b : CircuitBreaker.t,
    OrderedDict.lookup "neo4j"
      (state_of (wrapper "neo4j" 9 99 (FuncReturns tt)
                   (state_of (wrapper (A:=unit) "neo4j" 3 30 (FuncRaisesExpected "down") init
                                      (Clock.frozen 0)))
                   (clock_of (wrapper (A:=unit) "neo4j" 3 30 (FuncRaisesExpected "down") init
                                      (Clock.frozen 0))))) = Some b /\
    failure_threshold b = 3 /\ recovery_timeout b = 30 /\ success_threshold b = 2 /\
    total_calls b = 2.
Proof.
  apply (breaker_shared_by_name (A:=unit) "neo4j" 3 30 9 99 (FuncRaisesExpected "down")
           (FuncReturns tt) init (Clock.frozen 0)).
  reflexivity.
Defined.

Lemma reset_each_spec (l : list (string * CircuitBreaker.t)) : forall c : Clock.t,
  OrderedDict.keys (fst (reset_each l c)) = OrderedDict.keys l /\
  Forall (fun kv => state (snd kv) = CLOSED /\ failure_count (snd kv) = 0 /\
                    success_count (snd kv) = 0)
         (fst (reset_each l c)) /\
  Forall2 (fun kv kv' => failure_threshold (snd kv') = failure_threshold (snd kv) /\
                         recovery_timeout (snd kv') = recovery_timeout (snd kv) /\
                         success_threshold (snd kv') = success_threshold (snd kv))
          l (fst (reset_each l c)).
Proof.
  induction l as [|[k b] l IH]; intros c; cbn.
  - repeat split; constructor.
  - pose proof (reset_closes b c) as (R1 & R2 & R3 & R4 & R5 & R6).
    destruct (reset b c) as [[u b'] c']. cbn in R1, R2, R3, R4, R5, R6.
    destruct (IH c') as (I1 & I2 & I3).
    destruct (reset_each l c') as [rest' c'']. cbn in *.
    split; [f_equal; exact I1|]. split; constructor; auto.
Qed.

(** X5. [reset_all] closes every circuit. Whatever the states of the
    registered breakers, after [reset_all] the manager holds the same names
    in the same order, every breaker is CLOSED with both counters at zero,
    and each keeps its thresholds and recovery timeout. *)
Theorem reset_all_closes_every_breaker (breakers : t) (c : Clock.t) :
  OrderedDict.keys (state_of (reset_all breakers c)) = OrderedDict.keys breakers /\
  Forall (fun kv => state (snd kv) = CLOSED /\ failure_count (snd kv) = 0 /\
                    success_count (snd kv) = 0)
         (state_of (reset_all breakers c)) /\
  Forall2 (fun kv kv' => failure_threshold (snd kv') = failure_threshold (snd kv) /\
                         recovery_timeout (snd kv') = recovery_timeout (snd kv) /\
                         success_threshold (snd kv') = success_threshold (snd kv))
          breakers (state_of (reset_all breakers c)).
Proof.
  pose proof (reset_each_spec breakers c) as H.
  unfold reset_all, state_of. destruct (reset_each breakers c) as [m' c']. exact H.
Qed.

End CircuitBreakerManager.

(** ** [rate_limiter.py] *)

Module RateLimiter.

(** The [stats] dictionary. *)
Record Stats : Type := {
  total_requests : Z;
  blocked_requests : Z;
  unique_ips : gset string;
  blacklisted_ips : Z
}.

(** The limiter object. [burst_tracker] is created by [__init__] and never
    read or written afterwards; it is left out. *)
Record t : Type := {
  requests_per_minute : Z;
  burst_size : Z;
  cleanup_interval : Z;
  MAX_TRACKED_IPS : Z;
  requests : OrderedDict.t Deque.t;
  last_cleanup : Z;
  blacklist : gmap string Z;
  stats : Stats
}.

(** Why a call was refused; [reason_text] gives the message of the source. *)
Inductive Reason : Type :=
| Blacklisted (remaining : Z)
| RateLimitExceeded (per_minute : Z)
| BurstLimitExceeded (burst : Z) (window : Z)
| Suspicious.

Inductive Error : Type :=
| ValueError (msg : string)
| KeyError (key : string).

Definition Verdict : Type := Outcome Error (bool * option Reason).

(** [RateLimiter.__init__] *)
Definition init (rpm bs ci : Z) (c : Clock.t) : t * Clock.t :=
  ({| requests_per_minute := rpm;
      burst_size := bs;
      cleanup_interval := ci;
      MAX_TRACKED_IPS := 10000;
      requests := [];
      last_cleanup := Clock.peek c;
      blacklist := ∅;
      stats := {| total_requests := 0; blocked_requests := 0;
                  unique_ips := ∅; blacklisted_ips := 0 |} |},
   Clock.advance c).

Definition set_requests_per_minute (x : Z) (s : t) : t :=
  {| requests_per_minute := x; burst_size := burst_size s;
     cleanup_interval := cleanup_interval s; MAX_TRACKED_IPS := MAX_TRACKED_IPS s;
     requests := requests s; last_cleanup := last_cleanup s;
     blacklist := blacklist s; stats := stats s |}.

Definition set_requests (x : OrderedDict.t Deque.t) (s : t) : t :=
  {| requests_per_minute := requests_per_minute s; burst_size := burst_size s;
     cleanup_interval := cleanup_interval s; MAX_TRACKED_IPS := MAX_TRACKED_IPS s;
     requests := x; last_cleanup := last_cleanup s;
     blacklist := blacklist s; stats := stats s |}.

Definition set_last_cleanup (x : Z) (s : t) : t :=
  {| requests_per_minute := requests_per_minute s; burst_size := burst_size s;
     cleanup_interval := cleanup_interval s; MAX_TRACKED_IPS := MAX_TRACKED_IPS s;
     requests := requests s; last_cleanup := x;
     blacklist := blacklist s; stats := stats s |}.

Definition set_blacklist (x : gmap string Z) (s : t) : t :=
  {| requests_per_minute := requests_per_minute s; burst_size := burst_size s;
     cleanup_interval := cleanup_interval s; MAX_TRACKED_IPS := MAX_TRACKED_IPS s;
     requests := requests s; last_cleanup := last_cleanup s;
     blacklist := x; stats := stats s |}.

Definition set_stats (x : Stats) (s : t) : t :=
  {| requests_per_minute := requests_per_minute s; burst_size := burst_size s;
     cleanup_interval := cleanup_interval s; MAX_TRACKED_IPS := MAX_TRACKED_IPS s;
     requests := requests s; last_cleanup := last_cleanup s;
     blacklist := blacklist s; stats := x |}.

Definition bump_blocked_requests (s : t) : t :=
  set_stats {| total_requests := total_requests (stats s);
               blocked_requests := blocked_requests (stats s) + 1;
               unique_ips := unique_ips (stats s);
               blacklisted_ips := blacklisted_ips (stats s) |} s.

Definition bump_blacklisted_ips (s : t) : t :=
  set_stats {| total_requests := total_requests (stats s);
               blocked_requests := blocked_requests (stats s);
               unique_ips := unique_ips (stats s);
               blacklisted_ips := blacklisted_ips (stats s) + 1 |} s.

Definition count_request (client_ip : string) (s : t) : t :=
  set_stats {| total_requests := total_requests (stats s) + 1;
               blocked_requests := blocked_requests (stats s);
               unique_ips := {[client_ip]} ∪ unique_ips (stats s);
               blacklisted_ips := blacklisted_ips (stats s) |} s.

(** [_add_to_blacklist]: the expiry is counted from a fresh clock reading. *)
Definition _add_to_blacklist (client_ip : string) (duration : Z) : M t unit :=
  t_now <- now ;;
  modify (fun s => set_blacklist (<[client_ip := t_now + Clock.seconds duration]> (blacklist s)) s) ;;;
  modify bump_blacklisted_ips.

(** The test of [_cleanup_old_data] on one record:
    [not ip_requests or ip_requests[-1] < cutoff_time]. *)
Definition stale (cutoff_time : Z) (d : Deque.t) : bool :=
  match Deque.last d with
  | None => true
  | Some t_last => t_last <? cutoff_time
  end.

(** [_cleanup_old_data] *)
Definition _cleanup_old_data : M t unit :=
  current_time <- now ;;
  let cutoff_time := current_time - Clock.seconds 3600 in
  modify (fun s =>
    set_requests (List.filter (fun kv => negb (stale cutoff_time (snd kv))) (requests s)) s) ;;;
  modify (fun s =>
    set_blacklist (filter (fun kv => negb (snd kv <? current_time)) (blacklist s)) s) ;;;
  modify (set_last_cleanup current_time).

(** [for _ in range(100): if self.requests: self.requests.popitem(last=False)] *)
Definition evict_oldest (d : OrderedDict.t Deque.t) : OrderedDict.t Deque.t :=
  Nat.iter 100 OrderedDict.pop_first d.
Arguments evict_oldest : simpl never.

(** Lines 70-79 of [is_allowed]: periodic cleanup, then the bound on the
    number of tracked clients. *)
Definition housekeeping (current_time : Z) : M t unit :=
  s <- get ;;
  when (Clock.seconds (cleanup_interval s) <? current_time - last_cleanup s)
       _cleanup_old_data ;;;
  s <- get ;;
  when (MAX_TRACKED_IPS s <? OrderedDict.len (requests s))
       (modify (fun s => set_requests (evict_oldest (requests s)) s)).

(** Lines 90-120 of [is_allowed]: the sliding window, the burst window and
    the recording of the request. [deque(maxlen=n)] raises [ValueError]
    for a negative [n]. *)
Definition check_windows (client_ip : string) (current_time : Z) : M t Verdict :=
  s <- get ;;
  if negb (OrderedDict.contains client_ip (requests s)) && (requests_per_minute s <? 0)
  then ret (Raised (ValueError "maxlen must be non-negative"))
  else
    when (negb (OrderedDict.contains client_ip (requests s)))
         (modify (fun s => set_requests
                    (OrderedDict.set client_ip (Deque.mk (requests_per_minute s) [])
                                     (requests s)) s)) ;;;
    s <- get ;;
    let ip_requests := default (Deque.mk 0 []) (OrderedDict.lookup client_ip (requests s)) in
    let cutoff_time := current_time - Clock.seconds 60 in
    let ip_requests := Deque.prune cutoff_time ip_requests in
    modify (fun s => set_requests (OrderedDict.set client_ip ip_requests (requests s)) s) ;;;
    s <- get ;;
    if requests_per_minute s <=? Deque.len ip_requests then
      modify bump_blocked_requests ;;;
      _add_to_blacklist client_ip 60 ;;;
      ret (Returned (false, Some (RateLimitExceeded (requests_per_minute s))))
    else
      let burst_window := 5 in
      let recent_requests :=
        List.filter (fun t_req => current_time - Clock.seconds burst_window <? t_req)
                    (Deque.items ip_requests) in
      if burst_size s <=? Z.of_nat (List.length recent_requests) then
        modify bump_blocked_requests ;;;
        _add_to_blacklist client_ip 30 ;;;
        ret (Returned (false, Some (BurstLimitExceeded (burst_size s) burst_window)))
      else
        modify (fun s => set_requests
                   (OrderedDict.set client_ip (Deque.append current_time ip_requests)
                                    (requests s)) s) ;;;
        modify (count_request client_ip) ;;;
        ret (Returned (true, None)).

(** [RateLimiter.is_allowed]. The [endpoint] argument is not used by the
    base class. *)
Definition is_allowed (client_ip : string) (endpoint : option string) : M t Verdict :=
  current_time <- now ;;
  housekeeping current_time ;;;
  s <- get ;;
  match blacklist s !! client_ip with
  | Some expiry =>
      if current_time <? expiry then
        modify bump_blocked_requests ;;;
        ret (Returned (false, Some (Blacklisted (Clock.int_seconds (expiry - current_time)))))
      else
        modify (fun s => set_blacklist (delete client_ip (blacklist s)) s) ;;;
        check_windows client_ip current_time
  | None => check_windows client_ip current_time
  end.

(** [reset_client] *)
Definition reset_client (client_ip : string) : M t unit :=
  modify (fun s => set_requests (OrderedDict.remove client_ip (requests s)) s) ;;;
  modify (fun s => set_blacklist (delete client_ip (blacklist s)) s).

(** The timestamps currently held for a client ([[]] when untracked). *)
Definition record (client_ip : string) (s : t) : list Z :=
  match OrderedDict.lookup client_ip (requests s) with
  | Some d => Deque.items d
  | None => []
  end.

(** The timestamps of a client that lie inside the trailing 60 seconds,
    as left by the pruning loop of [is_allowed]. *)
Definition pruned (client_ip : string) (current_time : Z) (s : t) : list Z :=
  Deque.popleft_while_before (current_time - Clock.seconds 60) (record client_ip s).

(** Keys of a Python dictionary are unique. *)
Definition wf (s : t) : Prop := NoDup (OrderedDict.keys (requests s)).

(** A sequence of calls, one per listed client, results discarded. *)
Fixpoint calls (ips : list string) : M t unit :=
  match ips with
  | [] => ret tt
  | ip :: rest => is_allowed ip None ;;; calls rest
  end.






(** A limiter with [requests_per_minute = 2], on a clock that shows 0
    throughout; its first client calls twice. *)
Definition s_init : t := fst (init 2 10 300 (Clock.frozen 0)).
Definition c_init : Clock.t := snd (init 2 10 300 (Clock.frozen 0)).
Definition s_victim : t := state_of (calls ["victim"; "victim"] s_init c_init).


(** No record holds a timestamp it did not hold before. *)
Definition nothing_recorded (s s' : t) : Prop :=
  forall k : string, record k s' `suffix_of` record k s.

(** *** Pruning *)

Lemma popleft_while_before_suffix (cutoff : Z) (l : list Z) :
  Deque.popleft_while_before cutoff l `suffix_of` l.
Proof.
  induction l as [|x l IH]; cbn; [reflexivity|].
  destruct (x <? cutoff); [|reflexivity].
  etransitivity; [exact IH|]. apply suffix_cons_r. reflexivity.
Qed.

Lemma nothing_recorded_refl (s : t) : nothing_recorded s s.
Proof. intros k. reflexivity. Qed.

Lemma nothing_recorded_trans (s1 s2 s3 : t) :
  nothing_recorded s1 s2 -> nothing_recorded s2 s3 -> nothing_recorded s1 s3.
Proof. intros H12 H23 k. etransitivity; [apply H23 | apply H12]. Qed.

Lemma nothing_recorded_same_requests (s s' : t) :
  requests s' = requests s -> nothing_recorded s s'.
Proof. intros H k. unfold record. rewrite H. reflexivity. Qed.

(** *** Housekeeping *)

Lemma evict_oldest_spec (k : string) (d : OrderedDict.t Deque.t) :
  NoDup (OrderedDict.keys d) ->
  NoDup (OrderedDict.keys (evict_oldest d)) /\
  (OrderedDict.lookup k (evict_oldest d) = None \/
   OrderedDict.lookup k (evict_oldest d) = OrderedDict.lookup k d).
Proof. apply OrderedDict.iter_pop_first. Qed.

Ltac run :=
  cbv [is_allowed check_windows housekeeping _cleanup_old_data _add_to_blacklist
       bind ret get put modify now when state_of result_of clock_of]; cbn.


Lemma housekeeping_spec (current_time : Z) (s : t) (c : Clock.t) :
  wf s ->
  let r := housekeeping current_time s c in
  wf (state_of r) /\
  requests_per_minute (state_of r) = requests_per_minute s /\
  burst_size (state_of r) = burst_size s /\
  (forall k : string,
     OrderedDict.lookup k (requests (state_of r)) = None \/
     OrderedDict.lookup k (requests (state_of r)) = OrderedDict.lookup k (requests s)) /\
  (forall k : string,
     blacklist (state_of r) !! k = None \/
     blacklist (state_of r) !! k = blacklist s !! k).
Proof.
  intros Hwf. unfold wf in *. run.
  destruct (Clock.seconds (cleanup_interval s) <? current_time - last_cleanup s); cbn.
  - set (P := fun kv : string * Deque.t =>
                negb (stale (Clock.peek c - Clock.seconds 3600) (snd kv))).
    pose proof (OrderedDict.NoDup_filter_keys P _ Hwf) as Hnd.
    destruct (MAX_TRACKED_IPS s <? OrderedDict.len (List.filter P (requests s))); cbn.
    + split; [apply (evict_oldest_spec "" _ Hnd)|].
      split; [reflexivity|]. split; [reflexivity|]. split.
      * intros k. destruct (evict_oldest_spec k _ Hnd) as [_ [H|H]];
          [left; exact H|].
        rewrite H, (OrderedDict.lookup_filter P k _ Hwf).
        destruct (OrderedDict.lookup k (requests s)); [|auto].
        destruct (P (k, t0)); auto.
      * intros k. rewrite map_lookup_filter.
        destruct (blacklist s !! k) as [e|]; cbn; [|auto].
        case_guard; cbn; auto.
    + split; [exact Hnd|]. split; [reflexivity|]. split; [reflexivity|]. split.
      * intros k. rewrite (OrderedDict.lookup_filter P k _ Hwf).
        destruct (OrderedDict.lookup k (requests s)); [|auto].
        destruct (P (k, t0)); auto.
      * intros k. rewrite map_lookup_filter.
        destruct (blacklist s !! k) as [e|]; cbn; [|auto].
        case_guard; cbn; auto.
  - destruct (MAX_TRACKED_IPS s <? OrderedDict.len (requests s)); cbn.
    + split; [apply (evict_oldest_spec "" _ Hwf)|].
      split; [reflexivity|]. split; [reflexivity|]. split; [|auto].
      intros k. destruct (evict_oldest_spec k _ Hwf) as [_ H]. exact H.
    + auto 10.
Qed.

Lemma housekeeping_nothing_recorded (current_time : Z) (s : t) (c : Clock.t) :
  wf s -> nothing_recorded s (state_of (housekeeping current_time s c)).
Proof.
  intros Hwf k. destruct (housekeeping_spec current_time s c Hwf) as (_ & _ & _ & H & _).
  unfold record. destruct (H k) as [-> | ->]; [|reflexivity].
  apply suffix_nil.
Qed.

(** *** The window checks *)

Lemma record_set (ip k : string) (d : Deque.t) (s s' : t) :
  requests s' = OrderedDict.set ip d (requests s) ->
  record k s' = if String.eqb k ip then Deque.items d else record k s.
Proof.
  intros H. unfold record. rewrite H.
  destruct (String.eqb_spec k ip) as [->|Hne].
  - rewrite OrderedDict.lookup_set_eq. reflexivity.
  - rewrite OrderedDict.lookup_set_ne by exact Hne. reflexivity.
Qed.

(** Replacing a client's deque by a pruned one records nothing. *)
Lemma pruning_records_nothing (ip : string) (cutoff : Z) (s s' : t) :
  requests s' =
    OrderedDict.set ip
      (Deque.prune cutoff
         (default (Deque.mk 0 []) (OrderedDict.lookup ip (requests s)))) (requests s) ->
  nothing_recorded s s'.
Proof.
  intros H k. rewrite (record_set ip k _ s s' H).
  destruct (String.eqb_spec k ip) as [->|]; [|reflexivity].
  unfold record. destruct (OrderedDict.lookup ip (requests s)); cbn.
  - apply popleft_while_before_suffix.
  - reflexivity.
Qed.

Lemma creating_records_nothing (ip : string) (m : Z) (s s' : t) :
  OrderedDict.lookup ip (requests s) = None ->
  requests s' = OrderedDict.set ip (Deque.mk m []) (requests s) ->
  nothing_recorded s s'.
Proof.
  intros Hl H k. rewrite (record_set ip k _ s s' H).
  destruct (String.eqb_spec k ip) as [->|]; [|reflexivity].
  cbn. apply suffix_nil.
Qed.

Lemma check_windows_rejected (client_ip : string) (current_time : Z)
      (s : t) (c : Clock.t) (reason : option Reason) :
  result_of (check_windows client_ip current_time s c) = Returned (false, reason) ->
  nothing_recorded s (state_of (check_windows client_ip current_time s c)).
Proof.
  unfold check_windows, OrderedDict.contains. run.
  destruct (OrderedDict.lookup client_ip (requests s)) as [dq|] eqn:Hl; cbn.
  - rewrite !Hl. cbn.
    destruct (requests_per_minute s <=? _); cbn.
    + intros _. apply (pruning_records_nothing client_ip (current_time - Clock.seconds 60)).
      cbn. rewrite Hl. reflexivity.
    + destruct (burst_size s <=? _); cbn; [|discriminate].
      intros _. apply (pruning_records_nothing client_ip (current_time - Clock.seconds 60)).
      cbn. rewrite Hl. reflexivity.
  - destruct (requests_per_minute s <? 0); cbn; [discriminate|].
    set (s1 := set_requests (OrderedDict.set client_ip
                               (Deque.mk (requests_per_minute s) []) (requests s)) s).
    assert (H1 : nothing_recorded s s1)
      by (apply (creating_records_nothing client_ip (requests_per_minute s));
          [exact Hl | reflexivity]).
    destruct (requests_per_minute s <=? _); cbn.
    + intros _. eapply nothing_recorded_trans; [exact H1|].
      apply (pruning_records_nothing client_ip (current_time - Clock.seconds 60)).
      reflexivity.
    + destruct (burst_size s <=? _); cbn; [|discriminate].
      intros _. eapply nothing_recorded_trans; [exact H1|].
      apply (pruning_records_nothing client_ip (current_time - Clock.seconds 60)).
      reflexivity.
Qed.

(** C10. A rejected call never consumes quota: whenever [is_allowed]
    returns [(False, reason)], whether because the client is blacklisted,
    over the per-minute limit or over the burst limit, the timestamps
    recorded for every client afterwards are a suffix of those recorded
    before the call (old ones may have been pruned or evicted, none was
    appended). *)
Theorem rejected_call_records_nothing (client_ip : string) (endpoint : option string)
        (s : t) (c : Clock.t) (reason : option Reason) :
  wf s ->
  result_of (is_allowed client_ip endpoint s c) = Returned (false, reason) ->
  nothing_recorded s (state_of (is_allowed client_ip endpoint s c)).
Proof.
  intros Hwf. unfold is_allowed, bind, now, get.
  pose proof (housekeeping_nothing_recorded (Clock.peek c) s (Clock.advance c) Hwf) as Hh.
  destruct (housekeeping (Clock.peek c) s (Clock.advance c)) as [[u s1] c1].
  cbn in Hh.
  destruct (blacklist s1 !! client_ip) as [expiry|].
  - destruct (Clock.peek c <? expiry).
    + intros _. cbn. eapply nothing_recorded_trans; [exact Hh|].
      apply nothing_recorded_same_requests. reflexivity.
    + unfold modify.
      set (s2 := set_blacklist (delete client_ip (blacklist s1)) s1).
      intros Hr. apply check_windows_rejected in Hr.
      eapply nothing_recorded_trans; [exact Hh|].
      eapply nothing_recorded_trans; [|exact Hr].
      apply nothing_recorded_same_requests. reflexivity.
  - intros Hr. apply check_windows_rejected in Hr.
    eapply nothing_recorded_trans; [exact Hh | exact Hr].
Qed.

(** *** The per-minute limit *)

(** Whether a call at [current_time] runs [_cleanup_old_data]. *)
Definition cleanup_due (current_time : Z) (s : t) : bool :=
  Clock.seconds (cleanup_interval s) <? current_time - last_cleanup s.

Lemma filter_len_le {V} (P : string * V -> bool) (d : OrderedDict.t V) :
  OrderedDict.len (List.filter P d) <= OrderedDict.len d.
Proof.
  unfold OrderedDict.len. apply inj_le. induction d as [|x d IH]; cbn; [lia|].
  destruct (P x); cbn; lia.
Qed.

Lemma housekeeping_keeps (client_ip : string) (dq : Deque.t) (current_time : Z)
      (s : t) (c : Clock.t) :
  wf s ->
  OrderedDict.lookup client_ip (requests s) = Some dq ->
  OrderedDict.len (requests s) <= MAX_TRACKED_IPS s ->
  (cleanup_due current_time s = true ->
   stale (Clock.peek c - Clock.seconds 3600) dq = false) ->
  let r := housekeeping current_time s c in
  OrderedDict.lookup client_ip (requests (state_of r)) = Some dq /\
  requests_per_minute (state_of r) = requests_per_minute s /\
  (forall e : Z, blacklist (state_of r) !! client_ip = Some e ->
                 blacklist s !! client_ip = Some e) /\
  clock_of r = (if cleanup_due current_time s then Clock.advance c else c).
Proof.
  intros Hwf Hl Hlen Hst. unfold cleanup_due in *. run.
  destruct (Clock.seconds (cleanup_interval s) <? current_time - last_cleanup s); cbn.
  - set (P := fun kv : string * Deque.t =>
                negb (stale (Clock.peek c - Clock.seconds 3600) (snd kv))).
    pose proof (filter_len_le P (requests s)) as Hle.
    destruct (Z.ltb_spec (MAX_TRACKED_IPS s) (OrderedDict.len (List.filter P (requests s))));
      [lia|]. cbn.
    split; [|split; [reflexivity|split; [|reflexivity]]].
    + rewrite (OrderedDict.lookup_filter P client_ip _ Hwf), Hl.
      unfold P. cbn. rewrite (Hst eq_refl). reflexivity.
    + intros e. rewrite map_lookup_filter.
      destruct (blacklist s !! client_ip) as [e'|]; cbn; [|discriminate].
      case_guard; cbn; [auto|discriminate].
  - destruct (Z.ltb_spec (MAX_TRACKED_IPS s) (OrderedDict.len (requests s))); [lia|].
    cbn. auto.
Qed.



(** *** A client evicted by the bound on tracked clients *)






(** *** Many first calls in a row *)




(** *** Client names *)





(** *** The two-per-minute limiter of the examples *)

Lemma s_victim_fields :
  requests s_victim = [("victim", Deque.mk 2 [0; 0])] /\
  blacklist s_victim = ∅ /\
  requests_per_minute s_victim = 2 /\
  burst_size s_victim = 10 /\
  cleanup_interval s_victim = 300 /\
  MAX_TRACKED_IPS s_victim = 10000 /\
  last_cleanup s_victim = 0.
Proof. repeat split; vm_compute; reflexivity. Qed.

Lemma wf_s_victim : wf s_victim.
Proof.
  unfold wf. destruct s_victim_fields as (-> & _). cbn. apply NoDup_singleton.
Qed.









Lemma rejected_call_records_nothing_witness :
  nothing_recorded s_victim (state_of (is_allowed "victim" None s_victim (Clock.frozen 0))).
Proof.
  apply (rejected_call_records_nothing "victim" None s_victim (Clock.frozen 0)
           (Some (RateLimitExceeded 2))).
  - exact wf_s_victim.
  - vm_compute. reflexivity.
Defined.

(** *** The other methods, and what every call does *)

Arguments check_windows : simpl never.
Arguments housekeeping : simpl never.
Arguments is_allowed : simpl never.

(** The dictionary returned by [get_remaining_quota]. *)
Record Quota : Type := {
  requests_remaining : Z;
  burst_remaining : Z;
  reset_in_seconds : Z
}.

(** [get_remaining_quota]: the clock is read first, then
    [self.requests[client_ip]] is a plain subscript. *)
Definition get_remaining_quota (client_ip : string) : M t (Outcome Error Quota) :=
  current_time <- now ;;
  s <- get ;;
  match OrderedDict.lookup client_ip (requests s) with
  | None => ret (Raised (KeyError client_ip))
  | Some ip_requests =>
      let cutoff_time := current_time - Clock.seconds 60 in
      let valid_requests :=
        List.filter (fun t_req => cutoff_time <? t_req) (Deque.items ip_requests) in
      ret (Returned
             {| requests_remaining :=
                  requests_per_minute s - Z.of_nat (length valid_requests);
                burst_remaining :=
                  burst_size s -
                  Z.of_nat (length (List.filter
                                      (fun t_req => current_time - Clock.seconds 5 <? t_req)
                                      valid_requests));
                reset_in_seconds := 60 |})
  end.

(** Limiters reachable from the constructor by the public methods. *)
Inductive Reachable : t -> Prop :=
| reach_init rpm bs ci c : Reachable (fst (init rpm bs ci c))
| reach_is_allowed ip ep s c : Reachable s -> Reachable (state_of (is_allowed ip ep s c))
| reach_reset_client ip s c : Reachable s -> Reachable (state_of (reset_client ip s c))
| reach_get_remaining_quota ip s c :
    Reachable s -> Reachable (state_of (get_remaining_quota ip s c)).

(** Every record was built for the limit in force and is within it. *)
Definition within_limit (rpm : Z) (d : Deque.t) : Prop :=
  Deque.maxlen d = rpm /\ Deque.len d <= rpm.

Definition Inv (s : t) : Prop :=
  wf s /\
  MAX_TRACKED_IPS s = 10000 /\
  OrderedDict.len (requests s) <= MAX_TRACKED_IPS s + 1 /\
  Forall (fun kv => within_limit (requests_per_minute s) (snd kv)) (requests s).

(** The record a call works on: the client's, or a new empty one. *)
Definition record_or_new (client_ip : string) (s : t) : Deque.t :=
  default (Deque.mk (requests_per_minute s) []) (OrderedDict.lookup client_ip (requests s)).

(** The timestamps of a record inside the burst window. *)
Definition recent (current_time : Z) (d : Deque.t) : list Z :=
  List.filter (fun t_req => current_time - Clock.seconds 5 <? t_req) (Deque.items d).

Lemma housekeeping_frame (current_time : Z) (s : t) (c : Clock.t) :
  let s1 := state_of (housekeeping current_time s c) in
  stats s1 = stats s /\
  requests_per_minute s1 = requests_per_minute s /\
  burst_size s1 = burst_size s /\
  MAX_TRACKED_IPS s1 = MAX_TRACKED_IPS s /\
  cleanup_interval s1 = cleanup_interval s.
Proof.
  run. destruct (Clock.seconds (cleanup_interval s) <? current_time - last_cleanup s); cbn;
    destruct (MAX_TRACKED_IPS s <? _); cbn; auto 10.
Qed.

Lemma housekeeping_blacklist (current_time : Z) (s : t) (c : Clock.t) :
  blacklist (state_of (housekeeping current_time s c)) =
  if cleanup_due current_time s
  then filter (fun kv => negb (snd kv <? Clock.peek c)) (blacklist s)
  else blacklist s.
Proof.
  unfold cleanup_due. run.
  destruct (Clock.seconds (cleanup_interval s) <? current_time - last_cleanup s); cbn;
    destruct (MAX_TRACKED_IPS s <? _); cbn; reflexivity.
Qed.




(** What lines 90-120 do, case by case. *)
Lemma check_windows_shape (client_ip : string) (current_time : Z) (s : t) (c : Clock.t) :
  let r := check_windows client_ip current_time s c in
  let dp := Deque.prune (current_time - Clock.seconds 60) (record_or_new client_ip s) in
  requests_per_minute (state_of r) = requests_per_minute s /\
  burst_size (state_of r) = burst_size s /\
  MAX_TRACKED_IPS (state_of r) = MAX_TRACKED_IPS s /\
  match result_of r with
  | Raised _ =>
      state_of r = s /\ OrderedDict.lookup client_ip (requests s) = None /\
      requests_per_minute s < 0
  | Returned (true, reason) =>
      reason = None /\
      (OrderedDict.lookup client_ip (requests s) = None -> 0 <= requests_per_minute s) /\
      requests (state_of r) =
        OrderedDict.set client_ip (Deque.append current_time dp) (requests s) /\
      Deque.len dp < requests_per_minute s /\
      Z.of_nat (length (recent current_time dp)) < burst_size s /\
      blacklist (state_of r) = blacklist s /\
      stats (state_of r) = stats (count_request client_ip s) /\
      clock_of r = c
  | Returned (false, reason) =>
      (OrderedDict.lookup client_ip (requests s) = None -> 0 <= requests_per_minute s) /\
      requests (state_of r) = OrderedDict.set client_ip dp (requests s) /\
      stats (state_of r) = stats (bump_blacklisted_ips (bump_blocked_requests s)) /\
      clock_of r = Clock.advance c /\
      ((reason = Some (RateLimitExceeded (requests_per_minute s)) /\
        requests_per_minute s <= Deque.len dp /\
        blacklist (state_of r) =
          <[client_ip := Clock.peek c + Clock.seconds 60]> (blacklist s)) \/
       (reason = Some (BurstLimitExceeded (burst_size s) 5) /\
        Deque.len dp < requests_per_minute s /\
        burst_size s <= Z.of_nat (length (recent current_time dp)) /\
        blacklist (state_of r) =
          <[client_ip := Clock.peek c + Clock.seconds 30]> (blacklist s)))
  end.
Proof.
  unfold record_or_new, recent, check_windows, OrderedDict.contains. run.
  destruct (OrderedDict.lookup client_ip (requests s)) as [dq|] eqn:Hl; cbn.
  - rewrite !Hl. cbn.
    destruct (Z.leb_spec (requests_per_minute s)
                (Deque.len (Deque.prune (current_time - Clock.seconds 60) dq))); cbn.
    + repeat (split; [solve [reflexivity | discriminate]|]). left. auto.
    + destruct (Z.leb_spec (burst_size s)
                  (Z.of_nat (length (List.filter
                     (fun t_req => current_time - Clock.seconds 5 <? t_req)
                     (Deque.popleft_while_before (current_time - Clock.seconds 60)
                                                 (Deque.items dq)))))); cbn.
      * repeat (split; [solve [reflexivity | discriminate]|]). right. auto.
      * rewrite OrderedDict.set_set.
        repeat (split; [solve [reflexivity | discriminate | assumption]|]). reflexivity.
  - destruct (Z.ltb_spec (requests_per_minute s) 0); cbn; [auto 10|].
    rewrite !OrderedDict.lookup_set_eq. cbn. rewrite !OrderedDict.set_set.
    destruct (Z.leb_spec (requests_per_minute s)
                (Deque.len (Deque.prune (current_time - Clock.seconds 60)
                              (Deque.mk (requests_per_minute s) [])))); cbn.
    + repeat (split; [solve [reflexivity | intros _; assumption]|]). left. auto.
    + destruct (Z.leb_spec (burst_size s) (Z.of_nat 0)); cbn.
      * repeat (split; [solve [reflexivity | intros _; assumption]|]). right. auto.
      * rewrite OrderedDict.set_set.
        repeat (split; [solve [reflexivity | assumption | intros _; assumption]|]).
        reflexivity.
Qed.

(** [is_allowed] as its three stages. *)
Lemma is_allowed_stages (client_ip : string) (endpoint : option string) (s : t) (c : Clock.t) :
  is_allowed client_ip endpoint s c =
  let h := housekeeping (Clock.peek c) s (Clock.advance c) in
  match blacklist (state_of h) !! client_ip with
  | Some expiry =>
      if Clock.peek c <? expiry then
        (Returned (false, Some (Blacklisted (Clock.int_seconds (expiry - Clock.peek c)))),
         bump_blocked_requests (state_of h), clock_of h)
      else
        check_windows client_ip (Clock.peek c)
          (set_blacklist (delete client_ip (blacklist (state_of h))) (state_of h))
          (clock_of h)
  | None => check_windows client_ip (Clock.peek c) (state_of h) (clock_of h)
  end.
Proof.
  unfold is_allowed, bind, now, get, modify, ret, state_of, clock_of.
  destruct (housekeeping (Clock.peek c) s (Clock.advance c)) as [[u s1] c1]. cbn.
  destruct (blacklist s1 !! client_ip) as [e|]; [|reflexivity].
  destruct (Clock.peek c <? e); reflexivity.
Qed.

(** *** The invariant of reachable limiters *)








(** *** Properties of single calls *)

(** X6. A blacklisted client is turned away until the ban expires, and a
    refused call does not prolong the ban. If [client_ip] is on the
    blacklist with an expiry later than the clock reading of the call (and
    the periodic clean-up, when it runs during the call, does not read a
    clock past the expiry), [is_allowed] returns
    [(False, "IP blacklisted for N seconds")] with [N] the whole seconds
    left, leaves the expiry as it was, and counts the call as blocked and
    not as a request. *)
Theorem blacklisted_client_is_refused (client_ip : string) (endpoint : option string)
        (expiry : Z) (s : t) (c : Clock.t) :
  blacklist s !! client_ip = Some expiry ->
  Clock.peek c < expiry ->
  (cleanup_due (Clock.peek c) s = true -> Clock.peek (Clock.advance c) <= expiry) ->
  let r := is_allowed client_ip endpoint s c in
  result_of r =
    Returned (false, Some (Blacklisted (Clock.int_seconds (expiry - Clock.peek c)))) /\
  blacklist (state_of r) !! client_ip = Some expiry /\
  blocked_requests (stats (state_of r)) = blocked_requests (stats s) + 1 /\
  total_requests (stats (state_of r)) = total_requests (stats s) /\
  blacklisted_ips (stats (state_of r)) = blacklisted_ips (stats s).
Proof.
  intros Hbl Hlt Hcl. cbv zeta. rewrite is_allowed_stages. cbv zeta.
  pose proof (housekeeping_blacklist (Clock.peek c) s (Clock.advance c)) as Hb.
  pose proof (housekeeping_frame (Clock.peek c) s (Clock.advance c)) as (Hst & _).
  cbv zeta in Hst.
  set (h := housekeeping (Clock.peek c) s (Clock.advance c)) in *.
  assert (Hb1 : blacklist (state_of h) !! client_ip = Some expiry).
  { rewrite Hb. destruct (cleanup_due (Clock.peek c) s); [|exact Hbl].
    apply map_lookup_filter_Some_2; [exact Hbl|]. cbn.
    specialize (Hcl eq_refl). cbn in Hcl.
    destruct (Z.ltb_spec expiry (Clock.readings c (S (Clock.cursor c)))); [lia | exact I]. }
  rewrite Hb1. destruct (Z.ltb_spec (Clock.peek c) expiry); [|lia].
  clearbody h. unfold result_of, state_of in *. cbn [fst snd] in *.
  split; [reflexivity|]. split; [exact Hb1|]. cbn. rewrite Hst. auto.
Qed.

(** A limiter with a burst size of two, called twice by one client at
    clock reading 0; and the same with the client banned. *)
Definition s_burst : t :=
  state_of (calls ["bot"; "bot"] (fst (init 10 2 300 (Clock.frozen 0)))
                  (snd (init 10 2 300 (Clock.frozen 0)))).

Definition s_banned : t :=
  state_of (is_allowed "bot" None s_burst (Clock.frozen 0)).

Lemma blacklisted_client_is_refused_witness :
  result_of (is_allowed "bot" None s_banned (Clock.frozen (Clock.seconds 10))) =
    Returned (false, Some (Blacklisted 20)).
Proof.
  apply (blacklisted_client_is_refused "bot" None (Clock.seconds 30) s_banned
           (Clock.frozen (Clock.seconds 10))).
  - vm_compute. reflexivity.
  - vm_compute. reflexivity.
  - vm_compute. discriminate.
Defined.

Lemma popleft_all (cutoff : Z) (l : list Z) :
  Forall (fun t_req => t_req < cutoff) l -> Deque.popleft_while_before cutoff l = [].
Proof.
  induction 1 as [|x l Hx _ IH]; cbn; [reflexivity|].
  destruct (Z.ltb_spec x cutoff); [exact IH | lia].
Qed.

(** A call that finds nothing recent on record passes both windows. *)
Lemma check_windows_idle (client_ip : string) (current_time : Z) (s : t) (c : Clock.t) :
  0 < requests_per_minute s ->
  0 < burst_size s ->
  Forall (fun t_req => t_req < current_time - Clock.seconds 60) (record client_ip s) ->
  result_of (check_windows client_ip current_time s c) = Returned (true, None).
Proof.
  intros Hrpm Hb Hold.
  pose proof (check_windows_shape client_ip current_time s c) as H. cbv zeta in H.
  destruct H as (_ & _ & _ & H).
  assert (Hdp : Deque.items (Deque.prune (current_time - Clock.seconds 60)
                               (record_or_new client_ip s)) = []).
  { unfold record_or_new, record in *. cbn.
    destruct (OrderedDict.lookup client_ip (requests s)); cbn; [|reflexivity].
    apply popleft_all, Hold. }
  unfold recent, Deque.len in H. rewrite Hdp in H. cbn in H.
  destruct (result_of (check_windows client_ip current_time s c)) as [[[] reason]|e].
  - destruct H as (-> & _). reflexivity.
  - destruct H as (_ & _ & _ & _ & [(_ & H & _)|(_ & _ & H & _)]); lia.
  - destruct H as (_ & _ & H). lia.
Qed.

Lemma is_allowed_idle (client_ip : string) (endpoint : option string) (s : t) (c : Clock.t) :
  wf s ->
  0 < requests_per_minute s ->
  0 < burst_size s ->
  (forall e : Z, blacklist s !! client_ip = Some e -> e <= Clock.peek c) ->
  Forall (fun t_req => t_req < Clock.peek c - Clock.seconds 60) (record client_ip s) ->
  result_of (is_allowed client_ip endpoint s c) = Returned (true, None).
Proof.
  intros Hwf Hrpm Hb Hbl Hold. rewrite is_allowed_stages. cbv zeta.
  pose proof (housekeeping_spec (Clock.peek c) s (Clock.advance c) Hwf)
    as (_ & Hr1 & Hb1 & Hl1 & Hbl1).
  set (h := housekeeping (Clock.peek c) s (Clock.advance c)) in *.
  assert (Hold1 : Forall (fun t_req => t_req < Clock.peek c - Clock.seconds 60)
                         (record client_ip (state_of h))).
  { unfold record in *. destruct (Hl1 client_ip) as [-> | ->]; [constructor | exact Hold]. }
  destruct (blacklist (state_of h) !! client_ip) as [e|] eqn:E.
  - assert (He : e <= Clock.peek c).
    { apply Hbl. destruct (Hbl1 client_ip) as [H|H]; congruence. }
    destruct (Z.ltb_spec (Clock.peek c) e); [lia|].
    apply check_windows_idle; cbn; try lia. exact Hold1.
  - apply check_windows_idle; try lia. exact Hold1.
Qed.

(** X7. The quota comes back once the window has passed. A client that is
    not banned (no blacklist entry, or one that has expired) and whose
    recorded timestamps are all older than 60 seconds is allowed, whatever
    it did before, on any limiter that allows at least one request per
    minute and per burst. *)
Theorem quota_recovers_after_window (client_ip : string) (endpoint : option string)
        (s : t) (c : Clock.t) :
  wf s ->
  0 < requests_per_minute s ->
  0 < burst_size s ->
  (forall e : Z, blacklist s !! client_ip = Some e -> e <= Clock.peek c) ->
  Forall (fun t_req => t_req < Clock.peek c - Clock.seconds 60) (record client_ip s) ->
  result_of (is_allowed client_ip endpoint s c) = Returned (true, None).
Proof. apply is_allowed_idle. Qed.

Lemma quota_recovers_after_window_witness :
  result_of (is_allowed "victim" None s_victim (Clock.frozen (Clock.seconds 61))) =
    Returned (true, None).
Proof.
  apply (quota_recovers_after_window "victim" None s_victim (Clock.frozen (Clock.seconds 61))).
  - exact wf_s_victim.
  - vm_compute. reflexivity.
  - vm_compute. reflexivity.
  - intros e H. vm_compute in H. discriminate H.
  - assert (E : record "victim" s_victim = [0; 0]) by (vm_compute; reflexivity).
    rewrite E. repeat (constructor; [vm_compute; reflexivity|]). constructor.
Defined.

(** X8. [reset_client] gives the client a clean slate. After
    [reset_client(ip)] the next [is_allowed(ip)] is allowed, whether the
    client was over a limit or blacklisted before, on any limiter that
    allows at least one request per minute and per burst. *)
Theorem reset_client_restores_quota (client_ip : string) (endpoint : option string)
        (s : t) (c c' : Clock.t) :
  wf s ->
  0 < requests_per_minute s ->
  0 < burst_size s ->
  result_of (is_allowed client_ip endpoint (state_of (reset_client client_ip s c)) c') =
    Returned (true, None).
Proof.
  intros Hwf Hrpm Hb. unfold reset_client, bind, modify, state_of. cbn.
  apply is_allowed_idle; cbn; try assumption.
  - apply OrderedDict.NoDup_remove, Hwf.
  - intros e. rewrite lookup_delete_eq. discriminate.
  - unfold record. cbn. rewrite OrderedDict.lookup_remove_eq by exact Hwf. constructor.
Qed.

Lemma reset_client_restores_quota_witness :
  result_of (is_allowed "bot" None
               (state_of (reset_client "bot" s_banned (Clock.frozen 0))) (Clock.frozen 0)) =
    Returned (true, None).
Proof.
  apply (reset_client_restores_quota "bot" None s_banned (Clock.frozen 0) (Clock.frozen 0)).
  - vm_compute. apply NoDup_singleton.
  - vm_compute. reflexivity.
  - vm_compute. reflexivity.
Defined.

(** X9. The burst limit. A client that is not banned and whose record is
    still tracked at the call (as for the per-minute limit), that is below
    the per-minute limit but has [burst_size] or more timestamps inside
    the last 5 seconds, is refused with
    [(False, "Burst limit exceeded: N in 5s")] and banned until 30 seconds
    after the clock reading taken by [_add_to_blacklist]; its record is
    left as the pruning made it. *)
Theorem burst_limit_trips (client_ip : string) (endpoint : option string)
        (dq : Deque.t) (s : t) (c : Clock.t) :
  wf s ->
  (forall e : Z, blacklist s !! client_ip = Some e -> e <= Clock.peek c) ->
  OrderedDict.lookup client_ip (requests s) = Some dq ->
  Z.of_nat (length (pruned client_ip (Clock.peek c) s)) < requests_per_minute s ->
  burst_size s <=
    Z.of_nat (length (List.filter (fun t_req => Clock.peek c - Clock.seconds 5 <? t_req)
                                  (pruned client_ip (Clock.peek c) s))) ->
  OrderedDict.len (requests s) <= MAX_TRACKED_IPS s ->
  (cleanup_due (Clock.peek c) s = true ->
   stale (Clock.peek (Clock.advance c) - Clock.seconds 3600) dq = false) ->
  let r := is_allowed client_ip endpoint s c in
  let c_blacklist :=
    if cleanup_due (Clock.peek c) s then Clock.advance (Clock.advance c)
    else Clock.advance c in
  result_of r = Returned (false, Some (BurstLimitExceeded (burst_size s) 5)) /\
  blacklist (state_of r) !! client_ip = Some (Clock.peek c_blacklist + Clock.seconds 30) /\
  record client_ip (state_of r) = pruned client_ip (Clock.peek c) s.
Proof.
  intros Hwf Hbl Hl Hlt Hburst Hmax Hst. cbv zeta. rewrite is_allowed_stages. cbv zeta.
  pose proof (housekeeping_keeps client_ip dq (Clock.peek c) s (Clock.advance c)
                Hwf Hl Hmax Hst) as (Hl1 & Hrpm & Hbl1 & Hc1).
  pose proof (housekeeping_frame (Clock.peek c) s (Clock.advance c)) as (_ & _ & Hbs & _).
  cbv zeta in Hl1, Hrpm, Hbl1, Hc1, Hbs.
  set (h := housekeeping (Clock.peek c) s (Clock.advance c)) in *. clearbody h.
  rewrite <- Hc1, <- Hbs. clear Hc1.
  unfold pruned, record in *. rewrite Hl in *.
  assert (Hgo : forall s2 : t,
             requests s2 = requests (state_of h) ->
             requests_per_minute s2 = requests_per_minute (state_of h) ->
             burst_size s2 = burst_size (state_of h) ->
             let r := check_windows client_ip (Clock.peek c) s2 (clock_of h) in
             result_of r =
               Returned (false, Some (BurstLimitExceeded (burst_size (state_of h)) 5)) /\
             blacklist (state_of r) !! client_ip =
               Some (Clock.peek (clock_of h) + Clock.seconds 30) /\
             match OrderedDict.lookup client_ip (requests (state_of r)) with
             | Some d => Deque.items d
             | None => []
             end = Deque.popleft_while_before (Clock.peek c - Clock.seconds 60)
                                              (Deque.items dq)).
  { intros s2 E1 E2 E3. cbv zeta.
    pose proof (check_windows_shape client_ip (Clock.peek c) s2 (clock_of h)) as H.
    cbv zeta in H. destruct H as (_ & _ & _ & H).
    unfold record_or_new, recent, Deque.len in H. rewrite E1, E2, E3, Hl1 in H.
    cbn [default from_option id Deque.prune Deque.items] in H.
    destruct (result_of (check_windows client_ip (Clock.peek c) s2 (clock_of h)))
      as [[[] reason]|e].
    - destruct H as (_ & _ & _ & _ & H & _). lia.
    - destruct H as (_ & Hreq & _ & _ & [(_ & H & _)|(-> & _ & _ & Hb)]); [lia|].
      split; [reflexivity|]. rewrite Hb, Hreq, lookup_insert_eq, OrderedDict.lookup_set_eq.
      split; reflexivity.
    - destruct H as (_ & H & _). discriminate H. }
  destruct (blacklist (state_of h) !! client_ip) as [e|] eqn:E.
  - specialize (Hbl e (Hbl1 e eq_refl)).
    destruct (Z.ltb_spec (Clock.peek c) e); [lia|].
    apply Hgo; reflexivity.
  - apply Hgo; reflexivity.
Qed.

Lemma burst_limit_trips_witness :
  result_of (is_allowed "bot" None s_burst (Clock.frozen 0)) =
    Returned (false, Some (BurstLimitExceeded 2 5)) /\
  blacklist (state_of (is_allowed "bot" None s_burst (Clock.frozen 0))) !! "bot" =
    Some (Clock.seconds 30) /\
  record "bot" (state_of (is_allowed "bot" None s_burst (Clock.frozen 0))) = [0; 0].
Proof.
  apply (burst_limit_trips "bot" None (Deque.mk 10 [0; 0]) s_burst (Clock.frozen 0)).
  - vm_compute. apply NoDup_singleton.
  - intros e H. vm_compute in H. discriminate H.
  - vm_compute. reflexivity.
  - vm_compute. reflexivity.
  - vm_compute. discriminate.
  - vm_compute. discriminate.
  - vm_compute. discriminate.
Defined.

Lemma check_windows_counts (client_ip : string) (current_time : Z) (s : t) (c : Clock.t) :
  let r := check_windows client_ip current_time s c in
  match result_of r with
  | Returned (true, _) =>
      total_requests (stats (state_of r)) = total_requests (stats s) + 1 /\
      blocked_requests (stats (state_of r)) = blocked_requests (stats s) /\
      blacklisted_ips (stats (state_of r)) = blacklisted_ips (stats s) /\
      client_ip ∈ unique_ips (stats (state_of r))
  | Returned (false, _) =>
      total_requests (stats (state_of r)) = total_requests (stats s) /\
      blocked_requests (stats (state_of r)) = blocked_requests (stats s) + 1 /\
      blacklisted_ips (stats (state_of r)) = blacklisted_ips (stats s) + 1
  | Raised _ => stats (state_of r) = stats s
  end.
Proof.
  pose proof (check_windows_shape client_ip current_time s c) as H. cbv zeta in *.
  destruct H as (_ & _ & _ & H).
  destruct (result_of (check_windows client_ip current_time s c)) as [[[] reason]|e].
  - destruct H as (_ & _ & _ & _ & _ & _ & -> & _). cbn.
    repeat split. apply elem_of_union_l, elem_of_singleton. reflexivity.
  - destruct H as (_ & _ & -> & _). cbn. auto.
  - destruct H as (-> & _). reflexivity.
Qed.

(** X10. Every verdict is counted once. A call that is allowed adds one to
    [total_requests], leaves [blocked_requests] alone and puts the client
    among [unique_ips]; a call that is refused adds one to
    [blocked_requests] and leaves [total_requests] alone, and
    [blacklisted_ips] grows by one exactly when the refusal is a new ban
    (a limit was exceeded) and not when the client was already banned; a
    call that raises changes no counter. *)
Theorem every_verdict_is_counted (client_ip : string) (endpoint : option string)
        (s : t) (c : Clock.t) :
  match result_of (is_allowed client_ip endpoint s c) with
  | Returned (true, _) =>
      total_requests (stats (state_of (is_allowed client_ip endpoint s c))) =
        total_requests (stats s) + 1 /\
      blocked_requests (stats (state_of (is_allowed client_ip endpoint s c))) =
        blocked_requests (stats s) /\
      blacklisted_ips (stats (state_of (is_allowed client_ip endpoint s c))) =
        blacklisted_ips (stats s) /\
      client_ip ∈ unique_ips (stats (state_of (is_allowed client_ip endpoint s c)))
  | Returned (false, reason) =>
      total_requests (stats (state_of (is_allowed client_ip endpoint s c))) =
        total_requests (stats s) /\
      blocked_requests (stats (state_of (is_allowed client_ip endpoint s c))) =
        blocked_requests (stats s) + 1 /\
      blacklisted_ips (stats (state_of (is_allowed client_ip endpoint s c))) =
        blacklisted_ips (stats s) +
        match reason with Some (Blacklisted _) => 0 | _ => 1 end
  | Raised _ => stats (state_of (is_allowed client_ip endpoint s c)) = stats s
  end.
Proof.
  rewrite is_allowed_stages. cbv zeta.
  pose proof (housekeeping_frame (Clock.peek c) s (Clock.advance c)) as (Hst & _).
  cbv zeta in Hst.
  set (h := housekeeping (Clock.peek c) s (Clock.advance c)) in *. clearbody h.
  assert (Hgo : forall s2 : t,
             stats s2 = stats (state_of h) ->
             let r := check_windows client_ip (Clock.peek c) s2 (clock_of h) in
             match result_of r with
             | Returned (true, _) =>
                 total_requests (stats (state_of r)) = total_requests (stats s) + 1 /\
                 blocked_requests (stats (state_of r)) = blocked_requests (stats s) /\
                 blacklisted_ips (stats (state_of r)) = blacklisted_ips (stats s) /\
                 client_ip ∈ unique_ips (stats (state_of r))
             | Returned (false, reason) =>
                 total_requests (stats (state_of r)) = total_requests (stats s) /\
                 blocked_requests (stats (state_of r)) = blocked_requests (stats s) + 1 /\
                 blacklisted_ips (stats (state_of r)) =
                   blacklisted_ips (stats s) +
                   match reason with Some (Blacklisted _) => 0 | _ => 1 end
             | Raised _ => stats (state_of r) = stats s
             end).
  { intros s2 E. cbv zeta.
    pose proof (check_windows_counts client_ip (Clock.peek c) s2 (clock_of h)) as H.
    pose proof (check_windows_shape client_ip (Clock.peek c) s2 (clock_of h)) as H'.
    cbv zeta in H, H'. destruct H' as (_ & _ & _ & H').
    rewrite E, Hst in H.
    destruct (result_of (check_windows client_ip (Clock.peek c) s2 (clock_of h)))
      as [[[] reason]|e]; [exact H | | exact H].
    destruct H as (H1 & H2 & H3). split; [exact H1|]. split; [exact H2|].
    destruct H' as (_ & _ & _ & _ & [(-> & _)|(-> & _)]); exact H3. }
  destruct (blacklist (state_of h) !! client_ip) as [e|].
  - destruct (Clock.peek c <? e).
    + unfold result_of, state_of in *. cbn [fst snd] in *. cbn. rewrite Hst.
      split; [reflexivity|]. split; [reflexivity|]. lia.
    + apply Hgo. reflexivity.
  - apply Hgo. reflexivity.
Qed.






(** *** Facts used by the subclass *)

Lemma check_windows_frame (client_ip : string) (current_time : Z) (s : t) (c : Clock.t) :
  requests_per_minute (state_of (check_windows client_ip current_time s c)) =
    requests_per_minute s /\
  (0 <= requests_per_minute s ->
   forall e : Error, result_of (check_windows client_ip current_time s c) <> Raised e).
Proof.
  pose proof (check_windows_shape client_ip current_time s c) as H. cbv zeta in H.
  destruct H as (Hrpm & _ & _ & H). split; [exact Hrpm|].
  intros Hpos e He. rewrite He in H. destruct H as (_ & _ & H). lia.
Qed.

(** The base call keeps the limit it was made with, and with a limit that
    is not negative it returns a verdict. *)
Lemma is_allowed_frame (client_ip : string) (endpoint : option string) (s : t) (c : Clock.t) :
  requests_per_minute (state_of (is_allowed client_ip endpoint s c)) =
    requests_per_minute s /\
  (0 <= requests_per_minute s ->
   forall e : Error, result_of (is_allowed client_ip endpoint s c) <> Raised e).
Proof.
  rewrite is_allowed_stages. cbv zeta.
  pose proof (housekeeping_frame (Clock.peek c) s (Clock.advance c)) as (_ & Hrpm & _).
  cbv zeta in Hrpm.
  set (h := housekeeping (Clock.peek c) s (Clock.advance c)) in *. clearbody h.
  destruct (blacklist (state_of h) !! client_ip) as [e|].
  - destruct (Clock.peek c <? e).
    + unfold result_of, state_of in *. cbn [fst snd] in *. cbn.
      split; [exact Hrpm | discriminate].
    + pose proof (check_windows_frame client_ip (Clock.peek c)
                    (set_blacklist (delete client_ip (blacklist (state_of h))) (state_of h))
                    (clock_of h)) as [H1 H2].
      cbn in H1, H2. rewrite Hrpm in H1, H2. split; assumption.
  - pose proof (check_windows_frame client_ip (Clock.peek c) (state_of h) (clock_of h))
      as [H1 H2].
    rewrite Hrpm in H1, H2. split; assumption.
Qed.


End RateLimiter.

(** ** [rate_limiter.py]: [AdvancedRateLimiter] *)

Module AdvancedRateLimiter.

Import RateLimiter.

(** The subclass adds three attributes to the base object. *)
Record t : Type := {
  base : RateLimiter.t;
  endpoint_limits : gmap string Z;
  whitelist : gset string;
  fingerprints : OrderedDict.t (gset string)
}.

Definition set_base (x : RateLimiter.t) (s : t) : t :=
  {| base := x; endpoint_limits := endpoint_limits s;
     whitelist := whitelist s; fingerprints := fingerprints s |}.

Definition set_whitelist (x : gset string) (s : t) : t :=
  {| base := base s; endpoint_limits := endpoint_limits s;
     whitelist := x; fingerprints := fingerprints s |}.

Definition set_fingerprints (x : OrderedDict.t (gset string)) (s : t) : t :=
  {| base := base s; endpoint_limits := endpoint_limits s;
     whitelist := whitelist s; fingerprints := x |}.

(** [AdvancedRateLimiter.__init__]: [fingerprints] starts as an empty
    [OrderedDict]. *)
Definition init (rpm bs ci : Z) (c : Clock.t) : t * Clock.t :=
  let '(b, c') := RateLimiter.init rpm bs ci c in
  ({| base := b;
      endpoint_limits :=
        <["/api/chat" := 30]> (<["/api/health" := 120]>
          (<["/api/sessions" := 60]> (<["default" := 60]> ∅)));
      whitelist := {["127.0.0.1"]} ∪ {["localhost"]} ∪ {["::1"]};
      fingerprints := [] |},
   c').

(** Run a method of the base class on the base part of the object. *)
Definition on_base {A} (m : M RateLimiter.t A) : M t A :=
  fun s c => let '(a, b', c') := m (base s) c in (a, set_base b' s, c').

Section Fingerprint.

(** [json.dumps(d, sort_keys=True)] on a dictionary of strings, and
    [hashlib.md5(x.encode()).hexdigest()]: library functions. *)
Variable json_dumps_sorted : list (string * string) -> string.
Variable md5_hexdigest : string -> string.

(** [_generate_fingerprint] *)
Definition _generate_fingerprint (headers : gmap string string) : string :=
  let fingerprint_data :=
    [("user_agent", default "" (headers !! "user-agent"));
     ("accept", default "" (headers !! "accept"));
     ("accept_encoding", default "" (headers !! "accept-encoding"));
     ("accept_language", default "" (headers !! "accept-language"))] in
  md5_hexdigest (json_dumps_sorted fingerprint_data).

(** Truth value of an optional dictionary and of an optional string. *)
Definition truthy_headers (headers : option (gmap string string))
  : option (gmap string string) :=
  match headers with
  | Some h => if decide (h = ∅) then None else Some h
  | None => None
  end.

Definition truthy_endpoint (endpoint : option string) : option string :=
  match endpoint with
  | Some "" => None
  | other => other
  end.

(** Lines 237-252 of [is_allowed]: the endpoint override around the call
    of the base class. The limit is restored only when the base call
    returns. *)
Definition limited_call (client_ip : string) (endpoint : option string) : M t Verdict :=
  match truthy_endpoint endpoint with
  | Some ep =>
      s <- get ;;
      match endpoint_limits s !! "default" with
      | None => ret (Raised (KeyError "default"))
      | Some dflt =>
          let original_limit := requests_per_minute (base s) in
          on_base (modify (set_requests_per_minute
                             (default dflt (endpoint_limits s !! ep)))) ;;;
          v <- on_base (RateLimiter.is_allowed client_ip endpoint) ;;
          match v with
          | Returned r =>
              on_base (modify (set_requests_per_minute original_limit)) ;;;
              ret (Returned r)
          | Raised e => ret (Raised e)
          end
      end
  | None => on_base (RateLimiter.is_allowed client_ip endpoint)
  end.

(** [AdvancedRateLimiter.is_allowed]. [self.fingerprints[client_ip]] is a
    plain subscript: it raises [KeyError] for a key that is not in the
    dictionary. *)
Definition is_allowed (client_ip : string) (endpoint : option string)
           (headers : option (gmap string string)) : M t Verdict :=
  s <- get ;;
  if decide (client_ip ∈ whitelist s) then ret (Returned (true, None))
  else
    match truthy_headers headers with
    | Some h =>
        let fingerprint := _generate_fingerprint h in
        match OrderedDict.lookup client_ip (fingerprints s) with
        | None => ret (Raised (KeyError client_ip))
        | Some seen =>
            let seen' := {[fingerprint]} ∪ seen in
            modify (set_fingerprints
                      (OrderedDict.set client_ip seen' (fingerprints s))) ;;;
            if 10 <? Z.of_nat (size seen') then
              on_base (_add_to_blacklist client_ip 300) ;;;
              ret (Returned (false, Some Suspicious))
            else limited_call client_ip endpoint
        end
    | None => limited_call client_ip endpoint
    end.

(** The other public methods of the two classes. *)
Definition add_to_whitelist (client_ip : string) : M t unit :=
  modify (fun s => set_whitelist ({[client_ip]} ∪ whitelist s) s).

Definition remove_from_whitelist (client_ip : string) : M t unit :=
  modify (fun s => set_whitelist (whitelist s ∖ {[client_ip]}) s).

Inductive Reachable : t -> Prop :=
| reach_init rpm bs ci c : Reachable (fst (init rpm bs ci c))
| reach_is_allowed ip ep h s c :
    Reachable s -> Reachable (state_of (is_allowed ip ep h s c))
| reach_add_to_whitelist ip s c :
    Reachable s -> Reachable (state_of (add_to_whitelist ip s c))
| reach_remove_from_whitelist ip s c :
    Reachable s -> Reachable (state_of (remove_from_whitelist ip s c))
| reach_reset_client ip s c :
    Reachable s -> Reachable (state_of (on_base (RateLimiter.reset_client ip) s c)).

Lemma on_base_fingerprints {A} (m : M RateLimiter.t A) (s : t) (c : Clock.t) :
  fingerprints (state_of (on_base m s c)) = fingerprints s.
Proof.
  unfold on_base, state_of. destruct (m (base s) c) as [[a b'] c']. reflexivity.
Qed.

Lemma limited_call_fingerprints (ip : string) (ep : option string) (s : t) (c : Clock.t) :
  fingerprints (state_of (limited_call ip ep s c)) = fingerprints s.
Proof.
  unfold limited_call. destruct (truthy_endpoint ep) as [e|].
  - unfold bind, get. destruct (endpoint_limits s !! "default") as [dflt|];
      [|reflexivity].
    unfold on_base at 1, modify. cbn.
    set (s1 := set_base _ s).
    pose proof (on_base_fingerprints (RateLimiter.is_allowed ip ep) s1 c) as H.
    destruct (on_base (RateLimiter.is_allowed ip ep) s1 c) as [[v s2] c2].
    cbn in H. destruct v; cbn; exact H.
  - apply on_base_fingerprints.
Qed.

(** Nothing ever creates an entry of [fingerprints]. *)
Lemma reachable_no_fingerprints (s : t) : Reachable s -> fingerprints s = [].
Proof.
  induction 1 as [rpm bs ci c | ip ep h s c _ IH | ip s c _ IH | ip s c _ IH
                 | ip s c _ IH].
  - unfold init. destruct (RateLimiter.init rpm bs ci c). reflexivity.
  - unfold is_allowed, bind, get.
    destruct (decide (ip ∈ whitelist s)); [exact IH|].
    destruct (truthy_headers h) as [h'|].
    + rewrite IH. cbn. exact IH.
    + rewrite limited_call_fingerprints. exact IH.
  - exact IH.
  - exact IH.
  - rewrite on_base_fingerprints. exact IH.
Qed.

(** C7, what the code does. On every limiter reachable from the
    constructor, a call of [is_allowed] from a client that is not
    whitelisted, with a non-empty [headers] dictionary, raises
    [KeyError(client_ip)]: no (allowed, reason) pair is returned, and the
    branch that counts distinct fingerprints is never entered. *)
Theorem fingerprinting_raises (client_ip : string) (endpoint : option string)
        (headers : gmap string string) (s : t) (c : Clock.t) :
  Reachable s ->
  client_ip ∉ whitelist s ->
  headers <> ∅ ->
  result_of (is_allowed client_ip endpoint (Some headers) s c) =
    Raised (KeyError client_ip) /\
  blacklist (base (state_of (is_allowed client_ip endpoint (Some headers) s c)))
    = blacklist (base s).
Proof.
  intros Hr Hw Hh. unfold is_allowed, bind, get.
  destruct (decide (client_ip ∈ whitelist s)); [contradiction|].
  unfold truthy_headers. destruct (decide (headers = ∅)); [contradiction|].
  rewrite (reachable_no_fingerprints s Hr). cbn. split; reflexivity.
Qed.

(** *** The whitelist and the per-endpoint limits *)

(** X13. The whitelist bypasses everything. Once [add_to_whitelist(ip)]
    has been called, [is_allowed(ip, ...)] returns [(True, None)] for every
    endpoint and every headers dictionary, whatever the state of the
    limiter (the client may be blacklisted or over its limits), and the
    call changes nothing: no timestamp is recorded, no counter moves, the
    clock is not read. *)
Theorem whitelisted_client_bypasses (client_ip : string) (endpoint : option string)
        (headers : option (gmap string string)) (s : t) (c c' : Clock.t) :
  is_allowed client_ip endpoint headers (state_of (add_to_whitelist client_ip s c)) c' =
  (Returned (true, None), state_of (add_to_whitelist client_ip s c), c').
Proof.
  unfold add_to_whitelist, modify, state_of. cbn.
  unfold is_allowed, bind, get, ret. cbn.
  destruct (decide (client_ip ∈ {[client_ip]} ∪ whitelist s)) as [_|Hn]; [reflexivity|].
  exfalso. apply Hn, elem_of_union_l, elem_of_singleton. reflexivity.
Qed.

(** The limits of [__init__]; nothing changes them afterwards. *)
Definition limits_of_init : gmap string Z :=
  endpoint_limits (fst (init 60 10 300 (Clock.frozen 0))).

Lemma on_base_limits {A} (m : M RateLimiter.t A) (s : t) (c : Clock.t) :
  endpoint_limits (state_of (on_base m s c)) = endpoint_limits s.
Proof.
  unfold on_base, state_of. destruct (m (base s) c) as [[a b'] c']. reflexivity.
Qed.

Lemma limited_call_limits (ip : string) (ep : option string) (s : t) (c : Clock.t) :
  endpoint_limits (state_of (limited_call ip ep s c)) = endpoint_limits s.
Proof.
  unfold limited_call. destruct (truthy_endpoint ep) as [e|].
  - unfold bind, get. destruct (endpoint_limits s !! "default") as [dflt|];
      [|reflexivity].
    unfold on_base at 1, modify. cbn.
    set (s1 := set_base _ s).
    pose proof (on_base_limits (RateLimiter.is_allowed ip ep) s1 c) as H.
    destruct (on_base (RateLimiter.is_allowed ip ep) s1 c) as [[v s2] c2].
    cbn in H. destruct v; cbn; exact H.
  - apply on_base_limits.
Qed.

Lemma reachable_limits (s : t) : Reachable s -> endpoint_limits s = limits_of_init.
Proof.
  induction 1 as [rpm bs ci c | ip ep h s c _ IH | ip s c _ IH | ip s c _ IH
                 | ip s c _ IH].
  - unfold init. destruct (RateLimiter.init rpm bs ci c). reflexivity.
  - rewrite <- IH. unfold is_allowed, bind, get.
    destruct (decide (ip ∈ whitelist s)); [reflexivity|].
    destruct (truthy_headers h) as [h'|]; [|apply limited_call_limits].
    destruct (OrderedDict.lookup ip (fingerprints s)) as [seen|]; [|reflexivity].
    unfold modify.
    destruct (10 <? Z.of_nat (size ({[_generate_fingerprint h']} ∪ seen))).
    + set (s1 := set_fingerprints _ s).
      pose proof (on_base_limits (_add_to_blacklist ip 300) s1 c) as H.
      destruct (on_base (_add_to_blacklist ip 300) s1 c) as [[v s2] c2]. exact H.
    + rewrite limited_call_limits. reflexivity.
  - exact IH.
  - exact IH.
  - rewrite on_base_limits. exact IH.
Qed.

Lemma limits_of_init_default : limits_of_init !! "default" = Some 60.
Proof. vm_compute. reflexivity. Qed.

Lemma limits_of_init_nonneg (ep : string) : 0 <= default 60 (limits_of_init !! ep).
Proof.
  unfold limits_of_init, init. cbn.
  destruct (decide (ep = "/api/chat")) as [->|H1];
    [rewrite lookup_insert_eq; cbn; lia | rewrite lookup_insert_ne by congruence].
  destruct (decide (ep = "/api/health")) as [->|H2];
    [rewrite lookup_insert_eq; cbn; lia | rewrite lookup_insert_ne by congruence].
  destruct (decide (ep = "/api/sessions")) as [->|H3];
    [rewrite lookup_insert_eq; cbn; lia | rewrite lookup_insert_ne by congruence].
  destruct (decide (ep = "default")) as [->|H4];
    [rewrite lookup_insert_eq; cbn; lia | rewrite lookup_insert_ne by congruence].
  rewrite lookup_empty. cbn. lia.
Qed.

(** The override, the base call and the restore, for an endpoint. *)
Lemma limited_call_endpoint (client_ip : string) (endpoint : option string) (ep : string)
      (dflt : Z) (s : t) (c : Clock.t) :
  truthy_endpoint endpoint = Some ep ->
  endpoint_limits s !! "default" = Some dflt ->
  let limit := default dflt (endpoint_limits s !! ep) in
  let r0 := RateLimiter.is_allowed client_ip endpoint
              (set_requests_per_minute limit (base s)) c in
  result_of (limited_call client_ip endpoint s c) = result_of r0 /\
  base (state_of (limited_call client_ip endpoint s c)) =
    match result_of r0 with
    | Returned _ => set_requests_per_minute (requests_per_minute (base s)) (state_of r0)
    | Raised _ => state_of r0
    end.
Proof.
  intros Hep Hd. cbv zeta. unfold limited_call. rewrite Hep.
  unfold bind, get. rewrite Hd. unfold on_base, modify, ret, result_of, state_of. cbn.
  destruct (RateLimiter.is_allowed client_ip endpoint
              (set_requests_per_minute (default dflt (endpoint_limits s !! ep)) (base s)) c)
    as [[v b'] c1]. cbn.
  destruct v; cbn; auto.
Qed.

Lemma limited_call_keeps_limit (client_ip : string) (endpoint : option string)
      (s : t) (c : Clock.t) :
  endpoint_limits s = limits_of_init ->
  requests_per_minute (base (state_of (limited_call client_ip endpoint s c))) =
    requests_per_minute (base s).
Proof.
  intros Hlim. destruct (truthy_endpoint endpoint) as [ep|] eqn:Hep.
  - assert (Hd : endpoint_limits s !! "default" = Some 60)
      by (rewrite Hlim; exact limits_of_init_default).
    destruct (limited_call_endpoint client_ip endpoint ep 60 s c Hep Hd) as [_ Hb].
    rewrite Hb.
    pose proof (is_allowed_frame client_ip endpoint
                  (set_requests_per_minute (default 60 (endpoint_limits s !! ep)) (base s))
                  c) as [_ Hnr].
    cbn in Hnr. rewrite Hlim in Hnr. specialize (Hnr (limits_of_init_nonneg ep)).
    rewrite Hlim.
    destruct (result_of (RateLimiter.is_allowed client_ip endpoint
                (set_requests_per_minute (default 60 (limits_of_init !! ep)) (base s)) c))
      as [x|e]; [reflexivity|].
    exfalso. exact (Hnr e eq_refl).
  - unfold limited_call. rewrite Hep. unfold on_base, state_of.
    pose proof (is_allowed_frame client_ip endpoint (base s) c) as [H _].
    destruct (RateLimiter.is_allowed client_ip endpoint (base s) c) as [[v b'] c1].
    exact H.
Qed.

(** X14. The configured limit survives every call. On a limiter reachable
    from the constructor, [is_allowed] leaves [requests_per_minute] as it
    found it, whatever the client, the endpoint and the headers: the
    per-endpoint override is always undone (the base call cannot raise
    under one of the endpoint limits, none of which is negative). *)
Theorem configured_limit_is_restored (client_ip : string) (endpoint : option string)
        (headers : option (gmap string string)) (s : t) (c : Clock.t) :
  Reachable s ->
  requests_per_minute (base (state_of (is_allowed client_ip endpoint headers s c))) =
    requests_per_minute (base s).
Proof.
  intros Hr. pose proof (reachable_limits s Hr) as Hlim.
  pose proof (reachable_no_fingerprints s Hr) as Hfp.
  unfold is_allowed, bind, get.
  destruct (decide (client_ip ∈ whitelist s)); [reflexivity|].
  destruct (truthy_headers headers) as [h|].
  - rewrite Hfp. reflexivity.
  - apply limited_call_keeps_limit, Hlim.
Qed.


End Fingerprint.

(** The module-level instance [rate_limiter], and one request with a
    [user-agent] header from a client outside the whitelist. The two
    library functions are stood in for by a join of the values and by the
    identity; the call raises before the digest is used. *)
Definition sample_dumps (d : list (string * string)) : string :=
  String.concat "," (List.map snd d).

Definition sample_digest (x : string) : string := x.

Lemma fingerprinting_raises_witness :
  result_of (is_allowed sample_dumps sample_digest "203.0.113.7" None
               (Some {["user-agent" := "curl/8.0"]})
               (fst (init 60 10 300 (Clock.frozen 0))) (Clock.frozen 0)) =
    Raised (KeyError "203.0.113.7").
Proof.
  apply (fingerprinting_raises sample_dumps sample_digest).
  - apply reach_init.
  - cbn. rewrite !elem_of_union, !elem_of_singleton.
    intros [[H|H]|H]; discriminate H.
  - apply insert_non_empty.
Defined.

Lemma configured_limit_is_restored_witness :
  requests_per_minute
    (base (state_of (is_allowed sample_dumps sample_digest "203.0.113.7"
                       (Some "/api/chat") None
                       (fst (init 60 10 300 (Clock.frozen 0))) (Clock.frozen 0)))) = 60.
Proof.
  apply (configured_limit_is_restored sample_dumps sample_digest "203.0.113.7"
           (Some "/api/chat") None (fst (init 60 10 300 (Clock.frozen 0))) (Clock.frozen 0)).
  apply reach_init.
Defined.




End AdvancedRateLimiter.

(** ** [claude_handler.py]: the connection pool *)

Module Pool.

(** An upstream client object, known by its identity. Whether it is still
    connected is a fact of the outside world, supplied where the code
    asks for it. *)
Definition Client : Type := nat.

Record PooledConnection : Type := {
  client : Client;
  created_at : Z;
  last_used : Z;
  use_count : Z;
  is_healthy : bool
}.

Definition POOL_MAX_SIZE : Z := 10.
Definition POOL_MIN_SIZE : Z := 2.
Definition CONNECTION_MAX_AGE_MINUTES : Z := 60.
Definition CONNECTION_MAX_USES : Z := 100.
Definition HEALTH_CHECK_INTERVAL : Z := 300.

(** The pool attribute of the handler, and the clients on which
    [disconnect()] has been called, in call order. *)
Record t : Type := {
  connection_pool : list PooledConnection;
  disconnected : list Client
}.

(** [ClaudeHandler.__init__] *)
Definition init : t := {| connection_pool := []; disconnected := [] |}.

Definition set_connection_pool (x : list PooledConnection) (p : t) : t :=
  {| connection_pool := x; disconnected := disconnected p |}.

Definition disconnect (cl : Client) (p : t) : t :=
  {| connection_pool := connection_pool p; disconnected := disconnected p ++ [cl] |}.

Definition size (p : t) : Z := Z.of_nat (length (connection_pool p)).

(** [age_minutes > CONNECTION_MAX_AGE_MINUTES], with
    [age_minutes = (now - created_at).total_seconds() / 60]. *)
Definition over_age (t_now : Z) (conn : PooledConnection) : bool :=
  Clock.seconds (60 * CONNECTION_MAX_AGE_MINUTES) <? t_now - created_at conn.

Definition over_used (conn : PooledConnection) : bool :=
  CONNECTION_MAX_USES <? use_count conn.

(** The three tests of [_maintain_pool], in its order. *)
Definition to_remove (t_now : Z) (conn : PooledConnection) : bool :=
  if over_age t_now conn then true
  else if over_used conn then true
  else negb (is_healthy conn).

(** Index of the first healthy entry, as the loop of [_get_from_pool]
    finds it. *)
Fixpoint first_healthy (pool : list PooledConnection) : option nat :=
  match pool with
  | [] => None
  | conn :: rest =>
      if is_healthy conn then Some O
      else option_map S (first_healthy rest)
  end.

(** [pool.pop(i)] for an index in range. *)
Definition pop (i : nat) (pool : list PooledConnection) : list PooledConnection :=
  take i pool ++ drop (S i) pool.

(** [_get_from_pool]. The source returns [connection.client]; the whole
    record, after its [last_used] and [use_count] are updated, is returned
    here so that properties can speak of it. *)
Definition _get_from_pool : M t (option PooledConnection) :=
  p <- get ;;
  match first_healthy (connection_pool p) with
  | Some i =>
      match connection_pool p !! i with
      | Some connection =>
          modify (set_connection_pool (pop i (connection_pool p))) ;;;
          t_now <- now ;;
          ret (Some {| client := client connection;
                       created_at := created_at connection;
                       last_used := t_now;
                       use_count := use_count connection + 1;
                       is_healthy := is_healthy connection |})
      | None => ret None
      end
  | None => ret None
  end.

(** [_return_client_to_pool]. The [last_used] argument is evaluated before
    the default of [created_at]. *)
Definition _return_client_to_pool (cl : Client) : M t unit :=
  p <- get ;;
  if POOL_MAX_SIZE <=? size p then modify (disconnect cl)
  else
    t_last_used <- now ;;
    t_created <- now ;;
    let pooled_conn := {| client := cl; created_at := t_created;
                          last_used := t_last_used; use_count := 0;
                          is_healthy := true |} in
    modify (fun p => set_connection_pool (connection_pool p ++ [pooled_conn]) p).

(** Indices collected by the first loop of [_maintain_pool]. *)
Fixpoint connections_to_remove (t_now : Z) (i : nat) (pool : list PooledConnection)
  : list nat :=
  match pool with
  | [] => []
  | conn :: rest =>
      if to_remove t_now conn then i :: connections_to_remove t_now (S i) rest
      else connections_to_remove t_now (S i) rest
  end.

(** One turn of the second loop: pop index [i], disconnect its client. *)
Definition remove_at (p : t) (i : nat) : t :=
  match connection_pool p !! i with
  | Some removed_conn =>
      disconnect (client removed_conn) (set_connection_pool (pop i (connection_pool p)) p)
  | None => p
  end.

(** [_maintain_pool] *)
Definition _maintain_pool : M t unit :=
  t_now <- now ;;
  modify (fun p =>
    fold_left remove_at (rev (connections_to_remove t_now 0 (connection_pool p))) p).

Definition set_is_healthy (h : bool) (conn : PooledConnection) : PooledConnection :=
  {| client := client conn; created_at := created_at conn;
     last_used := last_used conn; use_count := use_count conn; is_healthy := h |}.

(** [_health_check_pool], given what [_is_client_healthy] answers for each
    client at that moment. *)
Definition _health_check_pool (connected : Client -> bool) : M t unit :=
  modify (fun p =>
    set_connection_pool
      (List.map (fun conn => set_is_healthy (connected (client conn)) conn)
                (connection_pool p)) p).

(** [shutdown_pool], the part that touches the pool. *)
Definition shutdown_pool : M t unit :=
  modify (fun p =>
    {| connection_pool := [];
       disconnected := disconnected p ++ List.map client (connection_pool p) |}).

(** The operations that touch the pool; each runs under [pool_lock]. *)
Inductive Op : Type :=
| Acquire
| Release (cl : Client)
| Maintain
| HealthCheck (connected : Client -> bool)
| Shutdown.

Definition run_op (op : Op) : M t unit :=
  match op with
  | Acquire => _get_from_pool ;;; ret tt
  | Release cl => _return_client_to_pool cl
  | Maintain => _maintain_pool
  | HealthCheck connected => _health_check_pool connected
  | Shutdown => shutdown_pool
  end.

Fixpoint run_ops (ops : list Op) : M t unit :=
  match ops with
  | [] => ret tt
  | op :: rest => run_op op ;;; run_ops rest
  end.

(** Pools reachable from the handler's constructor. *)
Definition Reachable (p : t) : Prop :=
  exists (ops : list Op) (c : Clock.t), p = state_of (run_ops ops init c).

(** What holds of every reachable pool: the cap, and idle entries that
    have never been counted as used (an entry is built with [use_count = 0]
    by [_return_client_to_pool] and leaves the pool when it is handed out). *)
Definition Inv (p : t) : Prop :=
  size p <= POOL_MAX_SIZE /\
  Forall (fun entry => use_count entry = 0) (connection_pool p).

(** *** Removing by index *)

Lemma pop_app_length (pre : list PooledConnection) (x : PooledConnection)
      (post : list PooledConnection) :
  pop (length pre) (pre ++ x :: post) = pre ++ post.
Proof.
  unfold pop. induction pre as [|a pre IH]; cbn.
  - rewrite drop_0. reflexivity.
  - f_equal. exact IH.
Qed.

Lemma lookup_app_length (pre : list PooledConnection) (x : PooledConnection)
      (post : list PooledConnection) :
  (pre ++ x :: post) !! length pre = Some x.
Proof. apply list_lookup_middle. reflexivity. Qed.

Lemma remove_marked (t_now : Z) (l : list PooledConnection) :
  forall (pre : list PooledConnection) (p : t),
    connection_pool p = pre ++ l ->
    connection_pool
      (fold_left remove_at (rev (connections_to_remove t_now (length pre) l)) p) =
    pre ++ List.filter (fun conn => negb (to_remove t_now conn)) l.
Proof.
  induction l as [|conn rest IH]; intros pre p Hp; cbn.
  - exact Hp.
  - assert (Hp' : connection_pool p = (pre ++ [conn]) ++ rest)
      by (rewrite <- app_assoc; exact Hp).
    specialize (IH (pre ++ [conn]) p Hp').
    rewrite length_app in IH. cbn [length] in IH.
    replace (length pre + 1)%nat with (S (length pre)) in IH by lia.
    destruct (to_remove t_now conn); cbn.
    + rewrite fold_left_app. cbn. unfold remove_at at 1.
      rewrite IH, <- app_assoc. cbn. rewrite lookup_app_length. cbn.
      apply pop_app_length.
    + rewrite IH, <- app_assoc. reflexivity.
Qed.

Lemma maintain_pool_filter (p : t) (c : Clock.t) :
  connection_pool (state_of (_maintain_pool p c)) =
  List.filter (fun conn => negb (to_remove (Clock.peek c) conn)) (connection_pool p).
Proof.
  unfold _maintain_pool, bind, now, modify, state_of. cbn.
  apply (remove_marked (Clock.peek c) (connection_pool p) [] p). reflexivity.
Qed.

(** *** Handing out *)

Lemma first_healthy_spec (pool : list PooledConnection) (i : nat) :
  first_healthy pool = Some i ->
  exists entry, pool !! i = Some entry /\ is_healthy entry = true /\
                forall j e, (j < i)%nat -> pool !! j = Some e -> is_healthy e = false.
Proof.
  revert i. induction pool as [|conn rest IH]; intros i; cbn; [discriminate|].
  destruct (is_healthy conn) eqn:Hh.
  - intros [= <-]. exists conn. split; [reflexivity|]. split; [exact Hh|]. lia.
  - destruct (first_healthy rest) as [k|]; cbn; [|discriminate].
    intros [= <-]. destruct (IH k eq_refl) as (entry & H1 & H2 & H3).
    exists entry. split; [exact H1|]. split; [exact H2|].
    intros [|j] e Hj; cbn.
    + intros [= <-]. exact Hh.
    + apply H3. lia.
Qed.

Lemma first_healthy_none (pool : list PooledConnection) :
  first_healthy pool = None -> Forall (fun e => is_healthy e = false) pool.
Proof.
  induction pool as [|conn rest IH]; cbn; [constructor|].
  destruct (is_healthy conn) eqn:Hh; [discriminate|].
  destruct (first_healthy rest); cbn; [discriminate|]. intros _.
  constructor; [exact Hh | apply IH; reflexivity].
Qed.

Lemma get_from_pool_spec (p : t) (c : Clock.t) :
  match result_of (_get_from_pool p c) with
  | Some conn =>
      exists (i : nat) (entry : PooledConnection),
        connection_pool p !! i = Some entry /\
        is_healthy entry = true /\
        (forall j e, (j < i)%nat -> connection_pool p !! j = Some e -> is_healthy e = false) /\
        conn = {| client := client entry; created_at := created_at entry;
                  last_used := Clock.peek c; use_count := use_count entry + 1;
                  is_healthy := true |} /\
        connection_pool (state_of (_get_from_pool p c)) = pop i (connection_pool p)
  | None =>
      Forall (fun e => is_healthy e = false) (connection_pool p) /\
      state_of (_get_from_pool p c) = p
  end.
Proof.
  unfold _get_from_pool, bind, get, modify, now, ret, result_of, state_of.
  destruct (first_healthy (connection_pool p)) as [i|] eqn:Hf.
  - destruct (first_healthy_spec _ _ Hf) as (entry & H1 & H2 & H3).
    rewrite H1. cbn. exists i, entry. rewrite H2. auto.
  - cbn. split; [apply first_healthy_none, Hf | reflexivity].
Qed.

Lemma length_pop_le (i : nat) (pool : list PooledConnection) :
  (length (pop i pool) <= length pool)%nat.
Proof. unfold pop. rewrite length_app, length_take, length_drop. lia. Qed.

Lemma Forall_pop (P : PooledConnection -> Prop) (i : nat) (pool : list PooledConnection) :
  Forall P pool -> Forall P (pop i pool).
Proof.
  intros H. unfold pop. apply Forall_app. split.
  - apply Forall_take, H.
  - apply Forall_drop, H.
Qed.

(** *** The invariant *)

Lemma run_op_inv (op : Op) (p : t) (c : Clock.t) :
  Inv p -> Inv (state_of (run_op op p c)).
Proof.
  intros [Hsize Hunused]. unfold Inv, size in *.
  destruct op as [|cl| |connected|]; cbn [run_op].
  - unfold bind, ret. pose proof (get_from_pool_spec p c) as H.
    destruct (_get_from_pool p c) as [[r p'] c']. cbn in *.
    destruct r as [conn|].
    + destruct H as (i & entry & _ & _ & _ & _ & ->).
      pose proof (length_pop_le i (connection_pool p)).
      split; [lia | apply Forall_pop, Hunused].
    + destruct H as [_ ->]. auto.
  - unfold _return_client_to_pool, bind, get, modify, now, state_of, size. cbn.
    destruct (Z.leb_spec POOL_MAX_SIZE (Z.of_nat (length (connection_pool p)))); cbn.
    + auto.
    + rewrite length_app. cbn. split; [lia|].
      apply Forall_app. split; [exact Hunused|]. repeat constructor.
  - rewrite maintain_pool_filter. split.
    + pose proof (List.filter_length_le
                    (fun conn => negb (to_remove (Clock.peek c) conn))
                    (connection_pool p)). lia.
    + rewrite Forall_forall in *. intros x Hx. apply Hunused.
      rewrite list_elem_of_In in *. apply List.filter_In in Hx. tauto.
  - unfold _health_check_pool, modify, state_of. cbn.
    rewrite length_map. split; [lia|].
    rewrite Forall_forall in *. intros x Hx. rewrite list_elem_of_In in Hx.
    apply in_map_iff in Hx as (e & <- & He). cbn. apply Hunused.
    rewrite list_elem_of_In. exact He.
  - unfold shutdown_pool, modify, state_of, POOL_MAX_SIZE. cbn.
    split; [lia | constructor].
Qed.

Lemma run_ops_inv (ops : list Op) : forall (p : t) (c : Clock.t),
  Inv p -> Inv (state_of (run_ops ops p c)).
Proof.
  induction ops as [|op ops IH]; intros p c Hp; [exact Hp|].
  cbn [run_ops]. unfold bind.
  pose proof (run_op_inv op p c Hp) as H.
  destruct (run_op op p c) as [[u p'] c']. apply IH, H.
Qed.

Lemma reachable_inv (p : t) : Reachable p -> Inv p.
Proof.
  intros (ops & c & ->). apply run_ops_inv. split; [unfold size, POOL_MAX_SIZE; cbn; lia|].
  constructor.
Qed.

(** C9. After any sequence of acquire, release, maintenance, health-check
    and shutdown steps from the empty pool, the idle pool holds at most
    [POOL_MAX_SIZE] connections; a release appends the client to the idle
    pool when the pool is below the cap, and otherwise calls [disconnect]
    on it and leaves the pool as it was. *)
Theorem pool_never_exceeds_cap (ops : list Op) (c : Clock.t) :
  size (state_of (run_ops ops init c)) <= POOL_MAX_SIZE /\
  (forall (p : t) (c' : Clock.t) (cl : Client),
     let p' := state_of (_return_client_to_pool cl p c') in
     if POOL_MAX_SIZE <=? size p
     then connection_pool p' = connection_pool p /\
          disconnected p' = disconnected p ++ [cl]
     else (exists conn : PooledConnection,
             connection_pool p' = connection_pool p ++ [conn] /\ client conn = cl) /\
          disconnected p' = disconnected p).
Proof.
  split.
  - apply (reachable_inv (state_of (run_ops ops init c))). exists ops, c. reflexivity.
  - intros p c' cl. unfold _return_client_to_pool, bind, get, modify, now, state_of. cbn.
    destruct (POOL_MAX_SIZE <=? size p); cbn; [auto|].
    split; [|reflexivity]. eexists. split; reflexivity.
Qed.









(** *** Where the clients go *)

(** One operation, with the client it hands out, if any. *)
Definition run_op_out (op : Op) : M t (option Client) :=
  match op with
  | Acquire => r <- _get_from_pool ;; ret (option_map client r)
  | other => run_op other ;;; ret None
  end.

(** A sequence of operations, with the clients handed out, in order. *)
Fixpoint handed_out (ops : list Op) : M t (list Client) :=
  match ops with
  | [] => ret []
  | op :: rest =>
      r <- run_op_out op ;;
      outs <- handed_out rest ;;
      ret (match r with Some cl => cl :: outs | None => outs end)
  end.

(** The clients passed to [_return_client_to_pool], in order. *)
Fixpoint released (ops : list Op) : list Client :=
  match ops with
  | [] => []
  | Release cl :: rest => cl :: released rest
  | _ :: rest => released rest
  end.

Lemma remove_marked_disconnected (t_now : Z) (l : list PooledConnection) :
  forall (pre : list PooledConnection) (p : t),
    connection_pool p = pre ++ l ->
    disconnected
      (fold_left remove_at (rev (connections_to_remove t_now (length pre) l)) p) =
    disconnected p ++ rev (List.map client (List.filter (to_remove t_now) l)).
Proof.
  induction l as [|conn rest IH]; intros pre p Hp; cbn.
  - rewrite app_nil_r. reflexivity.
  - assert (Hp' : connection_pool p = (pre ++ [conn]) ++ rest)
      by (rewrite <- app_assoc; exact Hp).
    pose proof (IH (pre ++ [conn]) p Hp') as IHd.
    pose proof (remove_marked t_now rest (pre ++ [conn]) p Hp') as IHp.
    rewrite length_app in IHd, IHp. cbn [length] in IHd, IHp.
    replace (length pre + 1)%nat with (S (length pre)) in IHd, IHp by lia.
    destruct (to_remove t_now conn); cbn.
    + rewrite fold_left_app. cbn. unfold remove_at at 1.
      rewrite IHp, <- app_assoc. cbn. rewrite lookup_app_length. cbn.
      rewrite IHd, <- app_assoc. reflexivity.
    + exact IHd.
Qed.

Lemma maintenance_pool_and_disconnected (p : t) (c : Clock.t) :
  connection_pool (state_of (_maintain_pool p c)) =
    List.filter (fun conn => negb (to_remove (Clock.peek c) conn)) (connection_pool p) /\
  disconnected (state_of (_maintain_pool p c)) =
    disconnected p ++
    rev (List.map client (List.filter (to_remove (Clock.peek c)) (connection_pool p))).
Proof.
  split; [apply maintain_pool_filter|].
  unfold _maintain_pool, bind, now, modify, state_of. cbn.
  apply (remove_marked_disconnected (Clock.peek c) (connection_pool p) [] p). reflexivity.
Qed.

(** X16. Maintenance disconnects exactly what it removes. [_maintain_pool]
    keeps, in their order, the entries that are healthy, at most
    [CONNECTION_MAX_AGE_MINUTES] old at its clock reading and within
    [CONNECTION_MAX_USES]; it calls [disconnect()] once on the client of
    every entry it removes (last position first) and on no other client. *)
Theorem maintenance_disconnects_removed (p : t) (c : Clock.t) :
  connection_pool (state_of (_maintain_pool p c)) =
    List.filter (fun conn => negb (to_remove (Clock.peek c) conn)) (connection_pool p) /\
  disconnected (state_of (_maintain_pool p c)) =
    disconnected p ++
    rev (List.map client (List.filter (to_remove (Clock.peek c)) (connection_pool p))).
Proof. apply maintenance_pool_and_disconnected. Qed.

Lemma filter_partition_perm {X} (f : X -> bool) (l : list X) :
  l ≡ₚ List.filter (fun x => negb (f x)) l ++ List.filter f l.
Proof.
  induction l as [|x l IH]; cbn; [reflexivity|].
  destruct (f x); cbn.
  - rewrite <- Permutation_middle. constructor. exact IH.
  - constructor. exact IH.
Qed.

Lemma pop_lookup_perm (i : nat) (x : PooledConnection) (pool : list PooledConnection) :
  pool !! i = Some x -> pool ≡ₚ x :: pop i pool.
Proof.
  intros H. unfold pop. rewrite <- (take_drop_middle pool i x H) at 1.
  rewrite <- Permutation_middle. reflexivity.
Qed.

Lemma get_from_pool_effect (p : t) (c : Clock.t) :
  match first_healthy (connection_pool p) with
  | Some i =>
      exists entry : PooledConnection,
        connection_pool p !! i = Some entry /\
        is_healthy entry = true /\
        _get_from_pool p c =
          (Some {| client := client entry; created_at := created_at entry;
                   last_used := Clock.peek c; use_count := use_count entry + 1;
                   is_healthy := true |},
           set_connection_pool (pop i (connection_pool p)) p, Clock.advance c)
  | None => _get_from_pool p c = (None, p, c)
  end.
Proof.
  unfold _get_from_pool, bind, get, modify, now, ret.
  destruct (first_healthy (connection_pool p)) as [i|] eqn:Hf; [|reflexivity].
  destruct (first_healthy_spec _ _ Hf) as (entry & H1 & H2 & _).
  exists entry. rewrite H1, H2. auto.
Qed.

(** What one operation does to the places a client can be. *)
Lemma run_op_out_conserves (op : Op) (p : t) (c : Clock.t) :
  match op with Release cl => [cl] | _ => [] end ++
  List.map client (connection_pool p) ++ disconnected p ≡ₚ
  match result_of (run_op_out op p c) with Some cl => [cl] | None => [] end ++
  List.map client (connection_pool (state_of (run_op_out op p c))) ++
  disconnected (state_of (run_op_out op p c)).
Proof.
  destruct op as [|cl| |connected|]; cbn [run_op_out run_op].
  - unfold bind, ret, result_of, state_of.
    pose proof (get_from_pool_effect p c) as H.
    destruct (first_healthy (connection_pool p)) as [i|].
    + destruct H as (entry & Hi & _ & ->). cbn.
      rewrite (pop_lookup_perm i entry _ Hi) at 1. reflexivity.
    + rewrite H. reflexivity.
  - unfold _return_client_to_pool, bind, get, modify, now, ret, result_of, state_of, size.
    cbn.
    destruct (POOL_MAX_SIZE <=? Z.of_nat (length (connection_pool p))); cbn.
    + rewrite (Permutation_app_comm (disconnected p) [cl]). cbn.
      rewrite Permutation_middle. reflexivity.
    + rewrite List.map_app. cbn. rewrite <- app_assoc. cbn.
      rewrite <- Permutation_middle. reflexivity.
  - destruct (maintenance_pool_and_disconnected p c) as [Hp Hd].
    unfold bind, ret, result_of, state_of in *.
    destruct (_maintain_pool p c) as [[u p'] c']. cbn [fst snd] in *.
    rewrite Hp, Hd. cbn [app].
    rewrite (filter_partition_perm (to_remove (Clock.peek c)) (connection_pool p)) at 1.
    rewrite List.map_app, <- app_assoc.
    apply Permutation_app_head.
    rewrite <- Permutation_rev. apply Permutation_app_comm.
  - unfold _health_check_pool, bind, modify, ret, result_of, state_of. cbn.
    rewrite List.map_map. reflexivity.
  - unfold shutdown_pool, bind, modify, ret, result_of, state_of. cbn.
    apply Permutation_app_comm.
Qed.

Lemma handed_out_conserves (ops : list Op) : forall (p : t) (c : Clock.t),
  released ops ++ List.map client (connection_pool p) ++ disconnected p ≡ₚ
  result_of (handed_out ops p c) ++
  List.map client (connection_pool (state_of (handed_out ops p c))) ++
  disconnected (state_of (handed_out ops p c)).
Proof.
  induction ops as [|op ops IH]; intros p c; [reflexivity|].
  cbn [handed_out]. unfold bind, ret.
  pose proof (run_op_out_conserves op p c) as H1.
  destruct (run_op_out op p c) as [[r p1] c1]. unfold result_of, state_of in H1.
  cbn [fst snd] in H1.
  specialize (IH p1 c1).
  destruct (handed_out ops p1 c1) as [[outs p2] c2].
  unfold result_of, state_of in *. cbn [fst snd] in *.
  assert (Hrel : released (op :: ops) =
                 match op with Release cl => [cl] | _ => [] end ++ released ops)
    by (destruct op; reflexivity).
  rewrite Hrel.
  transitivity (released ops ++
                (match op with Release cl => [cl] | _ => [] end ++
                 List.map client (connection_pool p) ++ disconnected p)).
  { rewrite !app_assoc. apply Permutation_app_tail, Permutation_app_tail.
    apply Permutation_app_comm. }
  rewrite H1.
  transitivity (match r with Some cl => [cl] | None => [] end ++
                (released ops ++ List.map client (connection_pool p1) ++ disconnected p1)).
  { rewrite !app_assoc. apply Permutation_app_tail, Permutation_app_tail.
    apply Permutation_app_comm. }
  rewrite IH. destruct r; reflexivity.
Qed.

(** The pool is the one the plain run reaches. *)
Lemma handed_out_state (ops : list Op) : forall (p : t) (c : Clock.t),
  state_of (handed_out ops p c) = state_of (run_ops ops p c).
Proof.
  induction ops as [|op ops IH]; intros p c; [reflexivity|].
  cbn [handed_out run_ops]. unfold bind, ret.
  assert (H : state_of (run_op_out op p c) = state_of (run_op op p c) /\
              clock_of (run_op_out op p c) = clock_of (run_op op p c)).
  { destruct op as [|cl| |connected|]; cbn [run_op_out run_op];
      unfold bind, ret, state_of, clock_of.
    - destruct (_get_from_pool p c) as [[r p'] c']. auto.
    - destruct (_return_client_to_pool cl p c) as [[r p'] c']. auto.
    - destruct (_maintain_pool p c) as [[r p'] c']. auto.
    - destruct (_health_check_pool connected p c) as [[r p'] c']. auto.
    - destruct (shutdown_pool p c) as [[r p'] c']. auto. }
  destruct (run_op_out op p c) as [[r p1] c1].
  destruct (run_op op p c) as [[u p1'] c1'].
  unfold state_of, clock_of in H. cbn in H. destruct H as [-> ->].
  specialize (IH p1' c1'). unfold state_of in *.
  destruct (handed_out ops p1' c1') as [[outs p2] c2].
  destruct (run_ops ops p1' c1') as [[u2 p2'] c2']. exact IH.
Qed.

(** X17. No connection is lost. After any sequence of acquire, release,
    maintenance, health-check and shutdown steps from the empty pool, the
    clients that were released are, counted with repetition, exactly the
    clients still idle in the pool, those handed out again by an acquire,
    and those on which [disconnect()] was called: a released client is
    never dropped silently, disconnected twice, or handed out while still
    listed as idle. (The run that collects the clients handed out reaches
    the same pool as the plain run.) *)
Theorem released_clients_are_conserved (ops : list Op) (c : Clock.t) :
  state_of (handed_out ops init c) = state_of (run_ops ops init c) /\
  released ops ≡ₚ
  result_of (handed_out ops init c) ++
  List.map client (connection_pool (state_of (handed_out ops init c))) ++
  disconnected (state_of (handed_out ops init c)).
Proof.
  split; [apply handed_out_state|].
  pose proof (handed_out_conserves ops init c) as H. cbn in H.
  rewrite app_nil_r in H. exact H.
Qed.

(** *** Health checks and reuse *)

(** X18. A client found disconnected by the health check is not handed
    out. After [_health_check_pool], the connection returned by
    [_get_from_pool] belongs to a client that was in the pool and that the
    check found connected; and when the acquire returns nothing, the check
    found every pooled client disconnected. *)
Theorem health_check_guards_acquire (connected : Client -> bool) (p : t) (c c' : Clock.t) :
  match result_of (_get_from_pool (state_of (_health_check_pool connected p c)) c') with
  | Some conn =>
      connected (client conn) = true /\
      In (client conn) (List.map client (connection_pool p))
  | None => Forall (fun entry => connected (client entry) = false) (connection_pool p)
  end.
Proof.
  pose proof (get_from_pool_spec (state_of (_health_check_pool connected p c)) c') as H.
  destruct (result_of (_get_from_pool (state_of (_health_check_pool connected p c)) c'))
    as [conn|].
  - destruct H as (i & entry & Hi & Hh & _ & -> & _). cbn [client].
    unfold _health_check_pool, modify, state_of in Hi. cbn in Hi.
    apply list_elem_of_lookup_2 in Hi. rewrite list_elem_of_In in Hi.
    apply in_map_iff in Hi as (e & <- & He). cbn in *.
    split; [exact Hh|]. apply in_map, He.
  - destruct H as [H _]. unfold _health_check_pool, modify, state_of in H. cbn in H.
    rewrite Forall_forall in *. intros e He.
    specialize (H (set_is_healthy (connected (client e)) e)). cbn in H. apply H.
    rewrite list_elem_of_In in *.
    apply (in_map (fun conn => set_is_healthy (connected (client conn)) conn)), He.
Qed.

Lemma first_healthy_app (pool : list PooledConnection) (conn : PooledConnection) :
  Forall (fun entry => is_healthy entry = false) pool ->
  is_healthy conn = true ->
  first_healthy (pool ++ [conn]) = Some (length pool).
Proof.
  intros Hall Hc. induction Hall as [|e pool He _ IH]; cbn.
  - rewrite Hc. reflexivity.
  - rewrite He, IH. reflexivity.
Qed.

Lemma return_below_cap (cl : Client) (p : t) (c : Clock.t) :
  size p < POOL_MAX_SIZE ->
  state_of (_return_client_to_pool cl p c) =
  set_connection_pool
    (connection_pool p ++
     [{| client := cl; created_at := Clock.peek (Clock.advance c);
         last_used := Clock.peek c; use_count := 0; is_healthy := true |}]) p.
Proof.
  intros Hsize. unfold _return_client_to_pool, bind, get, modify, now, state_of. cbn.
  destruct (Z.leb_spec POOL_MAX_SIZE (size p)); [lia | reflexivity].
Qed.

(** X19. A released client is reused. When the pool is below
    [POOL_MAX_SIZE] and holds no healthy idle entry, the client given to
    [_return_client_to_pool] is the one the next [_get_from_pool] hands
    out, with [use_count = 1] and [last_used] set to the clock reading of
    the acquire; the pool is then what it was before the release. *)
Theorem released_client_is_reused (cl : Client) (p : t) (c c' : Clock.t) :
  size p < POOL_MAX_SIZE ->
  Forall (fun entry => is_healthy entry = false) (connection_pool p) ->
  result_of (_get_from_pool (state_of (_return_client_to_pool cl p c)) c') =
    Some {| client := cl; created_at := Clock.peek (Clock.advance c);
            last_used := Clock.peek c'; use_count := 1; is_healthy := true |} /\
  connection_pool (state_of (_get_from_pool (state_of (_return_client_to_pool cl p c)) c')) =
    connection_pool p.
Proof.
  intros Hsize Hall. rewrite (return_below_cap cl p c Hsize).
  set (conn := {| client := cl; created_at := Clock.peek (Clock.advance c);
                  last_used := Clock.peek c; use_count := 0; is_healthy := true |}).
  set (p1 := set_connection_pool (connection_pool p ++ [conn]) p).
  pose proof (get_from_pool_effect p1 c') as H.
  assert (Hf : first_healthy (connection_pool p1) = Some (length (connection_pool p)))
    by (apply first_healthy_app; [exact Hall | reflexivity]).
  rewrite Hf in H. destruct H as (entry & Hi & _ & ->).
  cbn in Hi. rewrite lookup_app_length in Hi. injection Hi as <-.
  unfold result_of, state_of. cbn. rewrite pop_app_length, app_nil_r. auto.
Qed.

Lemma released_client_is_reused_witness :
  result_of (_get_from_pool (state_of (_return_client_to_pool 7%nat init (Clock.frozen 0)))
                            (Clock.frozen (Clock.seconds 5))) =
    Some {| client := 7%nat; created_at := 0; last_used := Clock.seconds 5;
            use_count := 1; is_healthy := true |}.
Proof.
  apply (released_client_is_reused 7%nat init (Clock.frozen 0)
           (Clock.frozen (Clock.seconds 5))).
  - vm_compute. reflexivity.
  - constructor.
Defined.

End Pool.

(** ** Python strings

    A [str] is modelled by its code points, all taken below 256; the
    character tests are those of Python on that range. *)

Module PyStr.

Definition str : Type := list ascii.

Definition code (a : ascii) : nat := nat_of_ascii a.

(** [str.isspace] on one character; also [\s] of [re]. *)
Definition is_space (a : ascii) : bool :=
  let n := code a in
  ((9 <=? n) && (n <=? 13) || (28 <=? n) && (n <=? 32) ||
   (n =? 133) || (n =? 160))%nat.

Definition is_upper_ascii (a : ascii) : bool :=
  let n := code a in ((65 <=? n) && (n <=? 90))%nat.

(** Upper-case letters of the Latin-1 block: all of 192-222 but the
    multiplication sign. *)
Definition is_upper_latin1 (a : ascii) : bool :=
  let n := code a in ((192 <=? n) && (n <=? 222) && negb (n =? 215))%nat.

(** [str.lower] on one character. *)
Definition lower_char (a : ascii) : ascii :=
  if is_upper_ascii a || is_upper_latin1 a then ascii_of_nat (code a + 32) else a.

Definition lower (s : str) : str := List.map lower_char s.

(** [\w] of [re] on a [str] pattern: letters, digits and the underscore. *)
Definition is_word (a : ascii) : bool :=
  let n := code a in
  ((48 <=? n) && (n <=? 57) || (65 <=? n) && (n <=? 90) || (97 <=? n) && (n <=? 122) ||
   (n =? 95) || (n =? 170) || (n =? 178) || (n =? 179) || (n =? 181) || (n =? 185) ||
   (n =? 186) || (n =? 188) || (n =? 189) || (n =? 190) ||
   (192 <=? n) && (n <=? 214) || (216 <=? n) && (n <=? 246) || (248 <=? n))%nat.

Fixpoint lstrip (s : str) : str :=
  match s with
  | [] => []
  | a :: rest => if is_space a then lstrip rest else s
  end.

Definition rstrip (s : str) : str := rev (lstrip (rev s)).

(** [str.strip()] *)
Definition strip (s : str) : str := lstrip (rstrip s).

(** [s.startswith(prefix)] *)
Fixpoint startswith (prefix s : str) : bool :=
  match prefix, s with
  | [], _ => true
  | p :: prefix', a :: s' => Ascii.eqb p a && startswith prefix' s'
  | _ :: _, [] => false
  end.

Definition lit (s : string) : str := list_ascii_of_string s.

(** *** Facts *)

(** A property of every character, checked on the 256 of them. *)
Ltac all_chars a :=
  destruct a as [[] [] [] [] [] [] [] []]; vm_compute; try reflexivity; try discriminate;
  auto.

Lemma lower_char_idem (a : ascii) : lower_char (lower_char a) = lower_char a.
Proof. all_chars a. Qed.

Lemma is_space_lower_char (a : ascii) : is_space (lower_char a) = is_space a.
Proof. all_chars a. Qed.

Lemma lower_idem (s : str) : lower (lower s) = lower s.
Proof.
  unfold lower. rewrite List.map_map. apply List.map_ext. apply lower_char_idem.
Qed.

(** The string is empty or starts with a character that is not a space. *)
Definition head_ok (s : str) : Prop :=
  match s with
  | [] => True
  | a :: _ => is_space a = false
  end.

(** The same of its end. *)
Definition last_ok (s : str) : Prop := head_ok (rev s).

Lemma lstrip_head_ok (s : str) : head_ok (lstrip s).
Proof.
  induction s as [|a s IH]; cbn; [exact I|].
  destruct (is_space a) eqn:E; [exact IH | exact E].
Qed.

Lemma lstrip_id (s : str) : head_ok s -> lstrip s = s.
Proof. destruct s as [|a s]; cbn; [reflexivity|]. intros ->. reflexivity. Qed.

Lemma lstrip_suffix (s : str) : exists pre : str, s = pre ++ lstrip s.
Proof.
  induction s as [|a s [pre IH]]; cbn; [exists []; reflexivity|].
  destruct (is_space a); [|exists []; reflexivity].
  exists (a :: pre). cbn. f_equal. exact IH.
Qed.

Lemma head_ok_app (s1 s2 : str) : head_ok (s1 ++ s2) -> s1 <> [] -> head_ok s1.
Proof. destruct s1 as [|a s1]; cbn; [congruence | auto]. Qed.

Lemma last_ok_suffix (pre s : str) : last_ok (pre ++ s) -> last_ok s.
Proof.
  unfold last_ok. rewrite rev_app_distr. intros H.
  destruct (rev s) as [|a r] eqn:E; [exact I|].
  apply (head_ok_app (a :: r) (rev pre) H). discriminate.
Qed.

Lemma rstrip_last_ok (s : str) : last_ok (rstrip s).
Proof. unfold last_ok, rstrip. rewrite rev_involutive. apply lstrip_head_ok. Qed.

Lemma rstrip_id (s : str) : last_ok s -> rstrip s = s.
Proof.
  unfold last_ok, rstrip. intros H. rewrite lstrip_id by exact H. apply rev_involutive.
Qed.

Lemma strip_ok (s : str) : head_ok (strip s) /\ last_ok (strip s).
Proof.
  unfold strip. split; [apply lstrip_head_ok|].
  destruct (lstrip_suffix (rstrip s)) as [pre H].
  apply (last_ok_suffix pre). rewrite <- H. apply rstrip_last_ok.
Qed.

Lemma strip_id (s : str) : head_ok s -> last_ok s -> strip s = s.
Proof. intros Hh Hl. unfold strip. rewrite rstrip_id by exact Hl. apply lstrip_id, Hh. Qed.

Lemma strip_idem (s : str) : strip (strip s) = strip s.
Proof. destruct (strip_ok s) as [Hh Hl]. apply strip_id; assumption. Qed.

Lemma lstrip_lower (s : str) : lstrip (lower s) = lower (lstrip s).
Proof.
  induction s as [|a s IH]; cbn; [reflexivity|].
  rewrite is_space_lower_char. destruct (is_space a); [exact IH | reflexivity].
Qed.

Lemma strip_lower (s : str) : strip (lower s) = lower (strip s).
Proof.
  unfold strip, rstrip, lower. rewrite <- List.map_rev.
  fold (lower (rev s)). rewrite lstrip_lower. unfold lower.
  rewrite <- List.map_rev. fold (lower (rev (lstrip (rev s)))).
  apply lstrip_lower.
Qed.

Lemma lower_strip_fixed (s : str) : lower (strip (lower (strip s))) = lower (strip s).
Proof. rewrite strip_lower, strip_idem. apply lower_idem. Qed.

(** Stripping keeps every character that is not a space, and adds none. *)
Lemma lstrip_In (a : ascii) (s : str) : In a (lstrip s) -> In a s.
Proof.
  induction s as [|b s IH]; cbn; [auto|].
  destruct (is_space b); cbn; auto.
Qed.

Lemma lstrip_keeps (a : ascii) (s : str) : is_space a = false -> In a s -> In a (lstrip s).
Proof.
  intros Ha. induction s as [|b s IH]; cbn; [auto|].
  destruct (is_space b) eqn:E; cbn; [|auto].
  intros [->|H]; [congruence | auto].
Qed.

Lemma strip_In (a : ascii) (s : str) : In a (strip s) -> In a s.
Proof.
  unfold strip, rstrip. intros H. apply lstrip_In in H.
  apply in_rev in H. apply lstrip_In in H. apply in_rev. exact H.
Qed.

Lemma strip_keeps (a : ascii) (s : str) : is_space a = false -> In a s -> In a (strip s).
Proof.
  intros Ha H. unfold strip, rstrip. apply lstrip_keeps; [exact Ha|].
  apply in_rev. rewrite rev_involutive. apply lstrip_keeps; [exact Ha|].
  apply in_rev in H. exact H.
Qed.

Lemma lstrip_length (s : str) : (length (lstrip s) <= length s)%nat.
Proof.
  induction s as [|b s IH]; cbn; [lia|]. destruct (is_space b); cbn; lia.
Qed.

Lemma strip_length (s : str) : (length (strip s) <= length s)%nat.
Proof.
  unfold strip, rstrip.
  pose proof (lstrip_length (rev (lstrip (rev s)))) as H1.
  pose proof (lstrip_length (rev s)) as H2.
  rewrite !length_rev in *. lia.
Qed.

End PyStr.

(** ** [claude_handler.py]: [send_message], from the [try] on line 308 *)

Module Turn.

(** A value the handler expects to be a string and coerces when it is not:
    a string, a list (its items given by their [str()]), or anything else
    (given by its [str()]). *)
Inductive PyText : Type :=
| PyStr (s : string)
| PyList (items : list string)
| PyOther (as_str : string).

Inductive Block : Type :=
| TextBlock (text : PyText)
| ToolUseBlock (name : PyText) (id : string)
| ToolResultBlock (tool_use_id : string) (content : option PyText)
| OtherBlock.

(** [msg.usage]: an object with [input_tokens] (and, if the attribute is
    there, [output_tokens]), a dictionary, or some other object. *)
Inductive Usage : Type :=
| UsageObject (input_tokens : Z) (output_tokens : option Z)
| UsageDict (d : gmap string Z)
| UsageOther.

(** Messages of the upstream stream. Costs are in millionths of a dollar. *)
Inductive SDKMessage : Type :=
| AssistantMessage (content : list Block)
| UserMessage (content : list Block)
| SystemMessage
| ResultMessage (usage : option Usage) (total_cost_usd : option Z).

(** The dictionaries yielded to the caller. *)
Inductive Event : Type :=
| Processing (session_id : string)
| Content (content : string) (session_id : string)
| ToolUse (name : string) (id : string) (session_id : string)
| ToolResult (tool_id : string) (content : string) (session_id : string)
| Result (session_id : string) (input_tokens output_tokens : option Z)
         (cost_usd : option Z)
| Error (error : string) (session_id : string).

Inductive Exn : Type :=
| Upstream (msg : string)
| AttributeError (msg : string)
| UnboundLocalError (variable : string).

Definition str_of_exn (e : Exn) : string :=
  match e with
  | Upstream msg => msg
  | AttributeError msg => msg
  | UnboundLocalError v =>
      "cannot access local variable '" +:+ v +:+ "' where it is not associated with a value"
  end.

(** How the generator ends: it returns, or an exception leaves it. *)
Inductive Termination : Type :=
| Completed
| Propagated (e : Exn).

Record SessionHistory : Type := {
  messages : list (list (string * string));
  total_tokens : Z;
  total_cost : Z
}.

(** One call of [session_manager.update_session_metrics], by its keyword
    arguments. The session manager itself is outside this module. *)
Inductive MetricsUpdate : Type :=
| TokensAndCount (session_id : string) (total_tokens : Z) (message_count : Z)
| Cost (session_id : string) (total_cost : Z)
| ConnectionErrors (session_id : string) (connection_errors : Z).

(** The attributes of the handler that a turn reads or writes, with the
    calls it makes on the session manager and on the memory integration. *)
Record Handler : Type := {
  session_histories : gmap string SessionHistory;
  metrics_updates : list MetricsUpdate;
  saved_interactions : list (string * string * string)
}.

Definition set_session_histories (x : gmap string SessionHistory) (h : Handler) : Handler :=
  {| session_histories := x; metrics_updates := metrics_updates h;
     saved_interactions := saved_interactions h |}.

Definition log_update (u : MetricsUpdate) (h : Handler) : Handler :=
  {| session_histories := session_histories h;
     metrics_updates := metrics_updates h ++ [u];
     saved_interactions := saved_interactions h |}.

Definition log_interaction (x : string * string * string) (h : Handler) : Handler :=
  {| session_histories := session_histories h;
     metrics_updates := metrics_updates h;
     saved_interactions := saved_interactions h ++ [x] |}.

(** What the outside world does during the turn. *)
Record World : Type := {
  query_raises : option Exn;
  stream : list SDKMessage;
  stream_raises : option Exn;
  memory_integration : bool;
  save_interaction_raises : bool;
  current_connection_errors : option Z
}.

(** *** Strings *)

(** [text.split()]: maximal runs of characters that are not whitespace. *)
Fixpoint split_words (s : string) (word : string) : list string :=
  match s with
  | EmptyString => if String.eqb word "" then [] else [word]
  | String a rest =>
      if PyStr.is_space a
      then (if String.eqb word "" then [] else [word]) ++ split_words rest ""
      else split_words rest (word +:+ String a "")
  end.

Definition split (s : string) : list string := split_words s "".

(** [' '.join(words[i:i+2])] for [i] in [range(0, len(words), 2)]. *)
Fixpoint chunks (words : list string) : list string :=
  match words with
  | [] => []
  | [w] => [w]
  | w1 :: w2 :: rest => (w1 +:+ " " +:+ w2) :: chunks rest
  end.

Definition coerce (x : PyText) : string :=
  match x with
  | PyStr s => s
  | PyList items => String.concat " " items
  | PyOther as_str => as_str
  end.

(** [tool_name[0] if tool_name else "unknown"] for a list. *)
Definition coerce_name (x : PyText) : string :=
  match x with
  | PyStr s => s
  | PyList [] => "unknown"
  | PyList (first :: _) => first
  | PyOther as_str => as_str
  end.

(** [block.content if block.content else ""], then the coercion. *)
Definition coerce_content (x : option PyText) : string :=
  match x with
  | None => ""
  | Some (PyList []) => ""
  | Some other => coerce other
  end.

(** *** The blocks of one message *)

Definition content_events (text : string) (sid : string) : list Event :=
  List.map (fun chunk => Content (chunk +:+ " ") sid)
           (List.filter (fun chunk => negb (String.eqb chunk "")) (chunks (split text))).

(** Blocks of an [AssistantMessage]: events yielded, text accumulated. *)
Fixpoint assistant_blocks (blocks : list Block) (sid : string) (full : string)
  : list Event * string :=
  match blocks with
  | [] => ([], full)
  | TextBlock text :: rest =>
      let text := coerce text in
      let '(evs, full') := assistant_blocks rest sid (full +:+ text) in
      (content_events text sid ++ evs, full')
  | ToolUseBlock name id :: rest =>
      let '(evs, full') := assistant_blocks rest sid full in
      (ToolUse (coerce_name name) id sid :: evs, full')
  | _ :: rest => assistant_blocks rest sid full
  end.

(** Blocks of a [UserMessage]. *)
Fixpoint user_blocks (blocks : list Block) (sid : string) : list Event :=
  match blocks with
  | [] => []
  | ToolResultBlock tool_use_id content :: rest =>
      ToolResult tool_use_id (coerce_content content) sid :: user_blocks rest sid
  | _ :: rest => user_blocks rest sid
  end.

(** *** The [ResultMessage] branch, lines 389-457 *)

(** [hasattr(msg, 'usage') and msg.usage] *)
Definition truthy_usage (usage : option Usage) : option Usage :=
  match usage with
  | Some (UsageDict d) => if decide (d = ∅) then None else Some (UsageDict d)
  | other => other
  end.

(** The token entries put into [result_data]; reading a missing
    [output_tokens] attribute raises. *)
Definition token_fields (u : Usage) : Outcome Exn (option Z * option Z) :=
  match u with
  | UsageObject input (Some output) => Returned (Some input, Some output)
  | UsageObject input None =>
      Raised (AttributeError "object has no attribute 'output_tokens'")
  | UsageDict d =>
      Returned (Some (default 0 (d !! "input_tokens")),
                Some (default 0 (d !! "output_tokens")))
  | UsageOther => Returned (None, None)
  end.

Definition add_tokens (n : Z) (hist : SessionHistory) : SessionHistory :=
  {| messages := messages hist; total_tokens := total_tokens hist + n;
     total_cost := total_cost hist |}.

Definition add_cost (x : Z) (hist : SessionHistory) : SessionHistory :=
  {| messages := messages hist; total_tokens := total_tokens hist;
     total_cost := total_cost hist + x |}.

(** Lines 430-442. *)
Definition update_tokens (session_id : string) (input output : option Z) (h : Handler)
  : Handler :=
  match session_histories h !! session_id, input with
  | Some history, Some input_tokens =>
      let token_count := input_tokens + default 0 output in
      let history' := add_tokens token_count history in
      log_update (TokensAndCount session_id (total_tokens history')
                                 (Z.of_nat (length (messages history')) + 1))
                 (set_session_histories
                    (<[session_id := history']> (session_histories h)) h)
  | _, _ => h
  end.

(** Lines 444-454, for a cost that is not zero. *)
Definition update_cost (session_id : string) (cost : Z) (h : Handler) : Handler :=
  match session_histories h !! session_id with
  | Some history =>
      let history' := add_cost cost history in
      log_update (Cost session_id (total_cost history'))
                 (set_session_histories
                    (<[session_id := history']> (session_histories h)) h)
  | None => h
  end.

Definition truthy_cost (cost : option Z) : option Z :=
  match cost with
  | Some 0 => None
  | other => other
  end.

Definition result_branch (session_id : string) (usage : option Usage) (cost : option Z)
           (h : Handler) : Outcome Exn Event * Handler :=
  let after_usage :=
    match truthy_usage usage with
    | Some u =>
        match token_fields u with
        | Returned (input, output) =>
            Returned (input, output, update_tokens session_id input output h)
        | Raised e => Raised e
        end
    | None => Returned (None, None, h)
    end in
  match after_usage with
  | Raised e => (Raised e, h)
  | Returned (input, output, h1) =>
      match truthy_cost cost with
      | Some x =>
          (Returned (Result session_id input output (Some x)),
           update_cost session_id x h1)
      | None => (Returned (Result session_id input output None), h1)
      end
  end.

(** *** The loop over [client.receive_response()] *)

Inductive LoopEnd : Type :=
| Exhausted
| Broke
| RaisedInLoop (e : Exn).

Fixpoint receive (msgs : list SDKMessage) (stream_end : option Exn)
         (session_id : string) (full : string) (h : Handler)
  : list Event * string * Handler * LoopEnd :=
  match msgs with
  | [] =>
      match stream_end with
      | Some e => ([], full, h, RaisedInLoop e)
      | None => ([], full, h, Exhausted)
      end
  | AssistantMessage blocks :: rest =>
      let '(evs, full') := assistant_blocks blocks session_id full in
      let '(evs', full'', h', e) := receive rest stream_end session_id full' h in
      (evs ++ evs', full'', h', e)
  | UserMessage blocks :: rest =>
      let '(evs', full', h', e) := receive rest stream_end session_id full h in
      (user_blocks blocks session_id ++ evs', full', h', e)
  | SystemMessage :: rest => receive rest stream_end session_id full h
  | ResultMessage usage cost :: _ =>
      match result_branch session_id usage cost h with
      | (Returned ev, h') => ([ev], full, h', Broke)
      | (Raised e, h') => ([], full, h', RaisedInLoop e)
      end
  end.

(** Lines 459-477: the write to the memory store; its failures are
    swallowed. *)
Definition commit (w : World) (message full : string) (session_id : string) (h : Handler)
  : Handler :=
  if memory_integration w && negb (String.eqb full "") && negb (save_interaction_raises w)
  then log_interaction (message, full, session_id) h
  else h.

(** Lines 479-495: the handler of [except Exception as e]. The local
    [real_session_id] is assigned on line 322, after the query; when it has
    no value, building the error dictionary raises [UnboundLocalError]
    and nothing is yielded. *)
Definition except_branch (w : World) (session_id : string)
           (real_session_id : option string) (e : Exn) (h : Handler)
  : list Event * Termination * Handler :=
  let error_count := match current_connection_errors w with
                     | Some n => n + 1
                     | None => 1
                     end in
  let h' := log_update (ConnectionErrors session_id error_count) h in
  match real_session_id with
  | Some sid => ([Error (str_of_exn e) sid], Completed, h')
  | None => ([], Propagated (UnboundLocalError "real_session_id"), h')
  end.

(** [send_message], for a session that exists, from the [try] on. *)
Definition send_message (session_id : string) (message : string) (w : World) (h : Handler)
  : list Event * Termination * Handler :=
  match query_raises w with
  | Some e =>
      let '(evs, term, h') := except_branch w session_id None e h in
      (Processing session_id :: evs, term, h')
  | None =>
      let real_session_id := session_id in
      let '(evs, full, h1, loop_end) :=
        receive (stream w) (stream_raises w) real_session_id "" h in
      match loop_end with
      | RaisedInLoop e =>
          let '(evs', term, h2) :=
            except_branch w session_id (Some real_session_id) e h1 in
          (Processing session_id :: evs ++ evs', term, h2)
      | _ =>
          (Processing session_id :: evs, Completed,
           commit w message full real_session_id h1)
      end
  end.

(** *** Counting events *)

Definition is_processing (ev : Event) : bool :=
  match ev with Processing _ => true | _ => false end.
Definition is_result (ev : Event) : bool :=
  match ev with Result _ _ _ _ => true | _ => false end.
Definition is_error (ev : Event) : bool :=
  match ev with Error _ _ => true | _ => false end.

Definition count (f : Event -> bool) (evs : list Event) : nat :=
  length (List.filter f evs).
Arguments count : simpl never.

Definition events_of (r : list Event * Termination * Handler) : list Event := fst (fst r).
Definition termination_of (r : list Event * Termination * Handler) : Termination :=
  snd (fst r).
Definition handler_of (r : list Event * Termination * Handler) : Handler := snd r.

(** [len(history.messages)], zero for a session without history. *)
Definition message_count (session_id : string) (h : Handler) : Z :=
  match session_histories h !! session_id with
  | Some history => Z.of_nat (length (messages history))
  | None => 0
  end.

(** *** Events of the loop *)

Lemma count_app (f : Event -> bool) (l1 l2 : list Event) :
  count f (l1 ++ l2) = (count f l1 + count f l2)%nat.
Proof. unfold count. rewrite List.filter_app, length_app. reflexivity. Qed.

Lemma count_cons (f : Event -> bool) (ev : Event) (l : list Event) :
  count f (ev :: l) = ((if f ev then 1 else 0) + count f l)%nat.
Proof. unfold count. cbn. destruct (f ev); reflexivity. Qed.

Lemma count_nil (f : Event -> bool) : count f [] = 0%nat.
Proof. reflexivity. Qed.

Lemma content_events_counts (text sid : string) :
  count is_processing (content_events text sid) = 0%nat /\
  count is_result (content_events text sid) = 0%nat /\
  count is_error (content_events text sid) = 0%nat.
Proof.
  unfold content_events.
  induction (List.filter _ (chunks (split text))) as [|x l IH]; cbn;
    rewrite ?count_cons, ?count_nil; cbn; auto.
Qed.

Lemma assistant_blocks_counts (blocks : list Block) (sid : string) : forall full : string,
  count is_processing (fst (assistant_blocks blocks sid full)) = 0%nat /\
  count is_result (fst (assistant_blocks blocks sid full)) = 0%nat /\
  count is_error (fst (assistant_blocks blocks sid full)) = 0%nat.
Proof.
  induction blocks as [|b blocks IH]; intros full; cbn; [auto|].
  destruct b as [text|name id|tid content|]; try apply IH.
  - specialize (IH (full +:+ coerce text)).
    destruct (assistant_blocks blocks sid (full +:+ coerce text)) as [evs full'].
    cbn in *. rewrite !count_app.
    destruct (content_events_counts (coerce text) sid) as (-> & -> & ->). exact IH.
  - specialize (IH full). destruct (assistant_blocks blocks sid full) as [evs full'].
    cbn in *. rewrite !count_cons. cbn. exact IH.
Qed.

Lemma user_blocks_counts (blocks : list Block) (sid : string) :
  count is_processing (user_blocks blocks sid) = 0%nat /\
  count is_result (user_blocks blocks sid) = 0%nat /\
  count is_error (user_blocks blocks sid) = 0%nat.
Proof.
  induction blocks as [|b blocks IH]; cbn; [auto|].
  destruct b; cbn; rewrite ?count_cons; cbn; exact IH.
Qed.

Lemma result_branch_event (sid : string) (usage : option Usage) (cost : option Z)
      (h : Handler) (ev : Event) (h' : Handler) :
  result_branch sid usage cost h = (Returned ev, h') -> is_result ev = true.
Proof.
  unfold result_branch.
  destruct (truthy_usage usage) as [u|].
  - destruct (token_fields u) as [[i o]|e]; [|discriminate].
    destruct (truthy_cost cost); intros [= <- _]; reflexivity.
  - destruct (truthy_cost cost); intros [= <- _]; reflexivity.
Qed.

Definition loop_events (r : list Event * string * Handler * LoopEnd) : list Event :=
  fst (fst (fst r)).
Definition loop_end (r : list Event * string * Handler * LoopEnd) : LoopEnd := snd r.

Lemma receive_counts (msgs : list SDKMessage) (stream_end : option Exn) (sid : string) :
  forall (full : string) (h : Handler),
    let r := receive msgs stream_end sid full h in
    count is_processing (loop_events r) = 0%nat /\
    count is_error (loop_events r) = 0%nat /\
    count is_result (loop_events r) =
      match loop_end r with Broke => 1%nat | _ => 0%nat end.
Proof.
  induction msgs as [|m msgs IH]; intros full h; cbn.
  - destruct stream_end; cbn; auto.
  - destruct m as [blocks|blocks| |usage cost].
    + pose proof (assistant_blocks_counts blocks sid full) as (A1 & A2 & A3).
      destruct (assistant_blocks blocks sid full) as [evs full'].
      specialize (IH full' h).
      destruct (receive msgs stream_end sid full' h) as [[[evs' full''] h'] e].
      unfold loop_events, loop_end in *. cbn in *. rewrite !count_app, A1, A2, A3.
      exact IH.
    + pose proof (user_blocks_counts blocks sid) as (A1 & A2 & A3).
      specialize (IH full h).
      destruct (receive msgs stream_end sid full h) as [[[evs' full''] h'] e].
      unfold loop_events, loop_end in *. cbn in *. rewrite !count_app, A1, A2, A3.
      exact IH.
    + apply IH.
    + destruct (result_branch sid usage cost h) as [[ev|e] h'] eqn:E; cbn; [|auto].
      pose proof (result_branch_event _ _ _ _ _ _ E) as Hres.
      destruct ev; try discriminate. unfold loop_events, loop_end. cbn.
      rewrite !count_cons, !count_nil. cbn. auto.
Qed.

(** C1, the dispatch failure. When [client.query] raises (an upstream
    failure or the expiry of the deadline in [asyncio.wait_for]), the
    generator yields the [processing] event and nothing else: the handler
    reads [real_session_id] before it was ever assigned, so the turn ends
    with [UnboundLocalError] leaving the generator and no [error] event. *)
Theorem dispatch_failure_emits_no_error (session_id message : string) (w : World)
        (h : Handler) (e : Exn) :
  query_raises w = Some e ->
  events_of (send_message session_id message w h) = [Processing session_id] /\
  termination_of (send_message session_id message w h) =
    Propagated (UnboundLocalError "real_session_id") /\
  count is_error (events_of (send_message session_id message w h)) = 0%nat.
Proof.
  intros Hq. unfold send_message. rewrite Hq. cbn. auto.
Qed.

(** The deadline expires on an existing session. *)
Definition timed_out : World :=
  {| query_raises := Some (Upstream "TimeoutError");
     stream := []; stream_raises := None;
     memory_integration := false; save_interaction_raises := false;
     current_connection_errors := None |}.

Definition fresh_handler (session_id : string) : Handler :=
  {| session_histories :=
       {[ session_id := {| messages := []; total_tokens := 0; total_cost := 0 |} ]};
     metrics_updates := []; saved_interactions := [] |}.

Lemma dispatch_failure_emits_no_error_witness :
  events_of (send_message "s1" "hi" timed_out (fresh_handler "s1")) = [Processing "s1"] /\
  termination_of (send_message "s1" "hi" timed_out (fresh_handler "s1")) =
    Propagated (UnboundLocalError "real_session_id") /\
  count is_error (events_of (send_message "s1" "hi" timed_out (fresh_handler "s1"))) = 0%nat.
Proof.
  apply (dispatch_failure_emits_no_error "s1" "hi" timed_out (fresh_handler "s1")
           (Upstream "TimeoutError")).
  reflexivity.
Defined.

(** X20. Once the query has been dispatched the events are as the
    specification says: one [processing]; one [result] and no [error] when
    the stream reaches its [ResultMessage]; one [error] and no [result] when
    an exception is raised first; neither when the stream ends without a
    [ResultMessage]; the generator returns in every case. *)
Lemma events_after_dispatch (session_id message : string) (w : World) (h : Handler) :
  query_raises w = None ->
  let r := send_message session_id message w h in
  let l := receive (stream w) (stream_raises w) session_id "" h in
  termination_of r = Completed /\
  count is_processing (events_of r) = 1%nat /\
  match loop_end l with
  | Broke => count is_result (events_of r) = 1%nat /\ count is_error (events_of r) = 0%nat
  | RaisedInLoop _ =>
      count is_result (events_of r) = 0%nat /\ count is_error (events_of r) = 1%nat
  | Exhausted =>
      count is_result (events_of r) = 0%nat /\ count is_error (events_of r) = 0%nat
  end.
Proof.
  intros Hq. cbv zeta. unfold send_message. rewrite Hq.
  pose proof (receive_counts (stream w) (stream_raises w) session_id "" h) as (A1 & A2 & A3).
  destruct (receive (stream w) (stream_raises w) session_id "" h) as [[[evs full] h1] le].
  unfold loop_events, loop_end, events_of, termination_of in *. cbn in *.
  destruct le; cbn; rewrite ?count_cons, ?count_app, ?count_cons, ?count_nil; cbn;
    rewrite A1, A2, A3; auto.
Qed.

(** *** The session history *)

(** The [messages] list of every history is what it was. *)
Definition same_messages (h h' : Handler) : Prop :=
  forall k : string,
    messages <$> (session_histories h' !! k) = messages <$> (session_histories h !! k).

Lemma same_messages_refl (h : Handler) : same_messages h h.
Proof. intros k. reflexivity. Qed.

Lemma same_messages_trans (h1 h2 h3 : Handler) :
  same_messages h1 h2 -> same_messages h2 h3 -> same_messages h1 h3.
Proof. intros H12 H23 k. rewrite H23. apply H12. Qed.

Lemma update_tokens_same_messages (sid : string) (input output : option Z) (h : Handler) :
  same_messages h (update_tokens sid input output h).
Proof.
  unfold update_tokens. destruct (session_histories h !! sid) as [hist|] eqn:E;
    [|apply same_messages_refl].
  destruct input as [i|]; [|apply same_messages_refl].
  intros k. cbn. destruct (decide (k = sid)) as [->|Hne].
  - rewrite lookup_insert_eq, E. reflexivity.
  - rewrite lookup_insert_ne by congruence. reflexivity.
Qed.

Lemma update_cost_same_messages (sid : string) (cost : Z) (h : Handler) :
  same_messages h (update_cost sid cost h).
Proof.
  unfold update_cost. destruct (session_histories h !! sid) as [hist|] eqn:E;
    [|apply same_messages_refl].
  intros k. cbn. destruct (decide (k = sid)) as [->|Hne].
  - rewrite lookup_insert_eq, E. reflexivity.
  - rewrite lookup_insert_ne by congruence. reflexivity.
Qed.

Lemma result_branch_same_messages (sid : string) (usage : option Usage)
      (cost : option Z) (h : Handler) :
  same_messages h (snd (result_branch sid usage cost h)).
Proof.
  unfold result_branch. destruct (truthy_usage usage) as [u|].
  - destruct (token_fields u) as [[i o]|e]; [|apply same_messages_refl].
    destruct (truthy_cost cost); cbn.
    + eapply same_messages_trans;
        [apply update_tokens_same_messages | apply update_cost_same_messages].
    + apply update_tokens_same_messages.
  - destruct (truthy_cost cost); cbn;
      [apply update_cost_same_messages | apply same_messages_refl].
Qed.

Definition loop_handler (r : list Event * string * Handler * LoopEnd) : Handler :=
  snd (fst r).

Lemma receive_same_messages (msgs : list SDKMessage) (stream_end : option Exn)
      (sid : string) : forall (full : string) (h : Handler),
  same_messages h (loop_handler (receive msgs stream_end sid full h)).
Proof.
  induction msgs as [|m msgs IH]; intros full h; cbn.
  - destruct stream_end; apply same_messages_refl.
  - destruct m as [blocks|blocks| |usage cost].
    + destruct (assistant_blocks blocks sid full) as [evs full'].
      specialize (IH full' h).
      destruct (receive msgs stream_end sid full' h) as [[[evs' full''] h'] e].
      exact IH.
    + specialize (IH full h).
      destruct (receive msgs stream_end sid full h) as [[[evs' full''] h'] e].
      exact IH.
    + apply IH.
    + pose proof (result_branch_same_messages sid usage cost h) as H.
      destruct (result_branch sid usage cost h) as [[ev|e] h']; exact H.
Qed.

Lemma same_messages_histories (h h1 h2 : Handler) :
  session_histories h2 = session_histories h1 ->
  same_messages h h1 -> same_messages h h2.
Proof. intros E H k. rewrite E. apply H. Qed.

Lemma send_message_same_messages (session_id message : string) (w : World) (h : Handler) :
  same_messages h (handler_of (send_message session_id message w h)).
Proof.
  unfold send_message, handler_of. destruct (query_raises w) as [e|].
  - unfold except_branch. cbn.
    apply (same_messages_histories h h); [reflexivity | apply same_messages_refl].
  - pose proof (receive_same_messages (stream w) (stream_raises w) session_id "" h) as H.
    destruct (receive (stream w) (stream_raises w) session_id "" h) as [[[evs full] h1] le].
    unfold loop_handler in H. cbn in H.
    destruct le; cbn.
    + unfold commit. destruct (_ && _); [|exact H].
      apply (same_messages_histories h h1); [reflexivity | exact H].
    + unfold commit. destruct (_ && _); [|exact H].
      apply (same_messages_histories h h1); [reflexivity | exact H].
    + apply (same_messages_histories h h1); [reflexivity | exact H].
Qed.

(** C8, the message count. Whatever the upstream sends, a turn leaves
    [len(history.messages)] of every session as it was: nothing in
    [send_message] appends to [history.messages], so the count does not
    grow by one at the end of a successful turn. *)
Theorem history_messages_never_grow (session_id message : string) (w : World)
        (h : Handler) (k : string) :
  message_count k (handler_of (send_message session_id message w h)) = message_count k h.
Proof.
  unfold message_count.
  pose proof (send_message_same_messages session_id message w h k) as H.
  destruct (session_histories (handler_of (send_message session_id message w h)) !! k);
    destruct (session_histories h !! k); cbn in H; congruence.
Qed.

(** The token total and the cost do follow the usage data: a [Result] with
    a usage object and a cost adds exactly those amounts. *)
Lemma result_adds_reported_amounts (sid : string) (input output cost : Z)
      (h : Handler) (history : SessionHistory) :
  session_histories h !! sid = Some history ->
  cost <> 0 ->
  session_histories
    (snd (result_branch sid (Some (UsageObject input (Some output))) (Some cost) h)) !! sid
  = Some {| messages := messages history;
            total_tokens := total_tokens history + (input + output);
            total_cost := total_cost history + cost |}.
Proof.
  intros Hh Hc. unfold result_branch. cbn.
  destruct cost as [|x|x]; [contradiction| |]; cbn;
    unfold update_cost, update_tokens; rewrite Hh; cbn;
    rewrite lookup_insert_eq; cbn; rewrite lookup_insert_eq; reflexivity.
Qed.

(** A successful turn: one text block, then the result with 10 input
    tokens, 5 output tokens and a cost of 1200 millionths of a dollar. *)
Definition happy : World :=
  {| query_raises := None;
     stream := [AssistantMessage [TextBlock (PyStr "hello there")];
                ResultMessage (Some (UsageObject 10 (Some 5))) (Some 1200)];
     stream_raises := None;
     memory_integration := true; save_interaction_raises := false;
     current_connection_errors := None |}.

Example happy_turn_events :
  events_of (send_message "s1" "hi" happy (fresh_handler "s1")) =
  [Processing "s1"; Content "hello there " "s1";
   Result "s1" (Some 10) (Some 5) (Some 1200)].
Proof. reflexivity. Qed.

(** After that turn, and after a second one, the history still counts no
    message, and the session manager is told [message_count = 1] both
    times. *)
Example happy_turn_history :
  let h1 := handler_of (send_message "s1" "hi" happy (fresh_handler "s1")) in
  let h2 := handler_of (send_message "s1" "hi again" happy h1) in
  session_histories h1 !! "s1" =
    Some {| messages := []; total_tokens := 15; total_cost := 1200 |} /\
  session_histories h2 !! "s1" =
    Some {| messages := []; total_tokens := 30; total_cost := 2400 |} /\
  message_count "s1" h2 = 0 /\
  metrics_updates h2 =
    [TokensAndCount "s1" 15 1; Cost "s1" 1200; TokensAndCount "s1" 30 1; Cost "s1" 2400].
Proof. vm_compute. auto. Qed.

Lemma events_after_dispatch_witness :
  termination_of (send_message "s1" "hi" happy (fresh_handler "s1")) = Completed /\
  count is_processing (events_of (send_message "s1" "hi" happy (fresh_handler "s1"))) = 1%nat /\
  count is_result (events_of (send_message "s1" "hi" happy (fresh_handler "s1"))) = 1%nat /\
  count is_error (events_of (send_message "s1" "hi" happy (fresh_handler "s1"))) = 0%nat.
Proof.
  exact (events_after_dispatch "s1" "hi" happy (fresh_handler "s1") eq_refl).
Defined.

(** *** What the caller is sent *)

(** The [session_id] entry of an event. *)
Definition event_session (ev : Event) : string :=
  match ev with
  | Processing sid | Content _ sid | ToolUse _ _ sid | ToolResult _ _ sid
  | Result sid _ _ _ | Error _ sid => sid
  end.

(** The [content] entry of a [content] event. *)
Definition content_of (ev : Event) : string :=
  match ev with Content text _ => text | _ => "" end.

Definition join_all (l : list string) : string := fold_right String.append "" l.

(** The same outside world with another upstream stream. *)
Definition with_stream (msgs : list SDKMessage) (stream_end : option Exn) (w : World)
  : World :=
  {| query_raises := query_raises w;
     stream := msgs;
     stream_raises := stream_end;
     memory_integration := memory_integration w;
     save_interaction_raises := save_interaction_raises w;
     current_connection_errors := current_connection_errors w |}.

Lemma content_events_sessions (text sid : string) :
  Forall (fun ev => event_session ev = sid) (content_events text sid).
Proof.
  unfold content_events. rewrite Forall_forall. intros ev Hev.
  rewrite list_elem_of_In in Hev. apply in_map_iff in Hev as (chunk & <- & _). reflexivity.
Qed.

Lemma assistant_blocks_sessions (blocks : list Block) (sid : string) : forall full : string,
  Forall (fun ev => event_session ev = sid) (fst (assistant_blocks blocks sid full)).
Proof.
  induction blocks as [|b blocks IH]; intros full; cbn; [constructor|].
  destruct b as [text|name id|tid content|]; try apply IH.
  - specialize (IH (full +:+ coerce text)).
    destruct (assistant_blocks blocks sid (full +:+ coerce text)) as [evs full'].
    cbn in *. apply Forall_app. split; [apply content_events_sessions | exact IH].
  - specialize (IH full). destruct (assistant_blocks blocks sid full) as [evs full'].
    cbn in *. constructor; [reflexivity | exact IH].
Qed.

Lemma user_blocks_sessions (blocks : list Block) (sid : string) :
  Forall (fun ev => event_session ev = sid) (user_blocks blocks sid).
Proof.
  induction blocks as [|b blocks IH]; cbn; [constructor|].
  destruct b; cbn; try exact IH. constructor; [reflexivity | exact IH].
Qed.

Lemma result_branch_session (sid : string) (usage : option Usage) (cost : option Z)
      (h : Handler) (ev : Event) (h' : Handler) :
  result_branch sid usage cost h = (Returned ev, h') -> event_session ev = sid.
Proof.
  unfold result_branch.
  destruct (truthy_usage usage) as [u|].
  - destruct (token_fields u) as [[i o]|e]; [|discriminate].
    destruct (truthy_cost cost); intros [= <- _]; reflexivity.
  - destruct (truthy_cost cost); intros [= <- _]; reflexivity.
Qed.

Lemma receive_sessions (msgs : list SDKMessage) (stream_end : option Exn) (sid : string) :
  forall (full : string) (h : Handler),
    Forall (fun ev => event_session ev = sid)
           (loop_events (receive msgs stream_end sid full h)).
Proof.
  induction msgs as [|m msgs IH]; intros full h; cbn.
  - destruct stream_end; constructor.
  - destruct m as [blocks|blocks| |usage cost].
    + pose proof (assistant_blocks_sessions blocks sid full) as A.
      destruct (assistant_blocks blocks sid full) as [evs full'].
      specialize (IH full' h).
      destruct (receive msgs stream_end sid full' h) as [[[evs' full''] h'] e].
      unfold loop_events in *. cbn in *. apply Forall_app. split; assumption.
    + specialize (IH full h).
      destruct (receive msgs stream_end sid full h) as [[[evs' full''] h'] e].
      unfold loop_events in *. cbn in *. apply Forall_app.
      split; [apply user_blocks_sessions | exact IH].
    + apply IH.
    + destruct (result_branch sid usage cost h) as [[ev|e] h'] eqn:E; cbn;
        [|constructor].
      repeat constructor. exact (result_branch_session _ _ _ _ _ _ E).
Qed.

(** X21. Every event of a turn carries the session id of the turn. Whatever
    the upstream sends or raises, each dictionary yielded by
    [send_message] ([processing], [content], [tool_use], [tool_result],
    [result], [error]) has [session_id] equal to the session the message
    was sent on; an id reported by the upstream is never used. *)
Theorem events_carry_session_id (session_id message : string) (w : World) (h : Handler) :
  Forall (fun ev => event_session ev = session_id)
         (events_of (send_message session_id message w h)).
Proof.
  unfold send_message, events_of. destruct (query_raises w) as [e|].
  - cbn. repeat constructor.
  - pose proof (receive_sessions (stream w) (stream_raises w) session_id "" h) as H.
    destruct (receive (stream w) (stream_raises w) session_id "" h) as [[[evs full] h1] le].
    unfold loop_events in H. cbn in H.
    destruct le; cbn; constructor; try reflexivity; try exact H.
    apply Forall_app. split; [exact H | repeat constructor].
Qed.

Lemma receive_stops_at_result (pre : list SDKMessage) (usage : option Usage)
      (cost : option Z) (post : list SDKMessage) (stream_end : option Exn) (sid : string) :
  forall (full : string) (h : Handler),
    receive (pre ++ ResultMessage usage cost :: post) stream_end sid full h =
    receive (pre ++ [ResultMessage usage cost]) None sid full h.
Proof.
  induction pre as [|m pre IH]; intros full h; cbn; [reflexivity|].
  destruct m as [blocks|blocks| |u c'].
  - destruct (assistant_blocks blocks sid full) as [evs full']. rewrite IH. reflexivity.
  - rewrite IH. reflexivity.
  - apply IH.
  - reflexivity.
Qed.

(** X22. The turn ends at the first [ResultMessage]. Whatever follows it in
    the upstream stream, further messages or a failure of the stream, is
    never read: the events, the way the generator ends and the handler's
    state are those of the stream cut after that message. *)
Theorem nothing_is_read_after_result (session_id message : string) (w : World)
        (h : Handler) (pre : list SDKMessage) (usage : option Usage) (cost : option Z)
        (post : list SDKMessage) :
  stream w = pre ++ ResultMessage usage cost :: post ->
  send_message session_id message w h =
  send_message session_id message
               (with_stream (pre ++ [ResultMessage usage cost]) None w) h.
Proof.
  intros Hs. unfold send_message. cbn [query_raises with_stream stream stream_raises].
  destruct (query_raises w) as [e|]; [reflexivity|].
  rewrite Hs, receive_stops_at_result. reflexivity.
Qed.

(** The successful turn, followed upstream by more text and a failure. *)
Definition noisy : World :=
  {| query_raises := None;
     stream := [AssistantMessage [TextBlock (PyStr "hello there")];
                ResultMessage (Some (UsageObject 10 (Some 5))) (Some 1200);
                AssistantMessage [TextBlock (PyStr "too late")]];
     stream_raises := Some (Upstream "connection reset");
     memory_integration := true; save_interaction_raises := false;
     current_connection_errors := None |}.

Lemma nothing_is_read_after_result_witness :
  send_message "s1" "hi" noisy (fresh_handler "s1") =
  send_message "s1" "hi"
    (with_stream ([AssistantMessage [TextBlock (PyStr "hello there")]] ++
                  [ResultMessage (Some (UsageObject 10 (Some 5))) (Some 1200)]) None noisy)
    (fresh_handler "s1").
Proof.
  apply (nothing_is_read_after_result "s1" "hi" noisy (fresh_handler "s1")
           [AssistantMessage [TextBlock (PyStr "hello there")]]
           (Some (UsageObject 10 (Some 5))) (Some 1200)
           [AssistantMessage [TextBlock (PyStr "too late")]]).
  reflexivity.
Defined.

(** *** The text of a block, in chunks *)

Lemma append_assoc (a b c : string) : (a +:+ b) +:+ c = a +:+ (b +:+ c).
Proof.
  induction a as [|x a IH]; [reflexivity|].
  change (String x ((a +:+ b) +:+ c) = String x (a +:+ (b +:+ c))). rewrite IH. reflexivity.
Qed.

Lemma split_words_nonempty (s : string) : forall word : string,
  Forall (fun x => x <> "") (split_words s word).
Proof.
  induction s as [|a s IH]; intros word; cbn.
  - destruct (String.eqb_spec word ""); constructor; [assumption | constructor].
  - destruct (PyStr.is_space a); [|apply IH].
    apply Forall_app. split; [|apply IH].
    destruct (String.eqb_spec word ""); constructor; [assumption | constructor].
Qed.

Lemma chunks_join (n : nat) : forall words : list string,
  (length words <= n)%nat ->
  Forall (fun x => x <> "") words ->
  Forall (fun x => x <> "") (chunks words) /\
  join_all (List.map (fun chunk => chunk +:+ " ") (chunks words)) =
  join_all (List.map (fun word => word +:+ " ") words).
Proof.
  induction n as [|n IH]; intros words Hlen Hne.
  - destruct words; [|cbn in Hlen; lia]. cbn. auto.
  - destruct words as [|w1 [|w2 rest]]; cbn; [auto | auto |].
    apply Forall_cons in Hne as [H1 Hne]. apply Forall_cons in Hne as [H2 Hne].
    destruct (IH rest ltac:(cbn in Hlen; lia) Hne) as [I1 I2].
    split.
    + constructor; [|exact I1]. destruct w1; [contradiction | discriminate].
    + unfold join_all in I2. rewrite I2, !append_assoc. reflexivity.
Qed.

Lemma filter_nonempty (l : list string) :
  Forall (fun x => x <> "") l ->
  List.filter (fun chunk => negb (String.eqb chunk "")) l = l.
Proof.
  induction 1 as [|x l Hx _ IH]; cbn; [reflexivity|].
  destruct (String.eqb_spec x ""); [contradiction|]. cbn. rewrite IH. reflexivity.
Qed.

(** X23. The text of a block reaches the caller whole. The [content]
    events yielded for one text block hold, put end to end, the words of
    the text in their order, each followed by one space: nothing is lost,
    repeated or reordered by the cutting into chunks of two words;
    whitespace between words is not kept as it was. *)
Theorem chunks_carry_the_text (text sid : string) :
  join_all (List.map content_of (content_events text sid)) =
  join_all (List.map (fun word => word +:+ " ") (split text)).
Proof.
  unfold content_events, split.
  destruct (chunks_join (length (split_words text "")) (split_words text "")
              (Nat.le_refl _) (split_words_nonempty text "")) as [Hne Hjoin].
  rewrite (filter_nonempty _ Hne), List.map_map. cbn [content_of]. exact Hjoin.
Qed.

(** *** Failed turns *)

Lemma receive_side_effects (msgs : list SDKMessage) (stream_end : option Exn)
      (sid : string) : forall (full : string) (h : Handler),
  saved_interactions (loop_handler (receive msgs stream_end sid full h)) =
    saved_interactions h /\
  exists updates : list MetricsUpdate,
    metrics_updates (loop_handler (receive msgs stream_end sid full h)) =
      metrics_updates h ++ updates /\
    Forall (fun u => match u with ConnectionErrors _ _ => False | _ => True end) updates.
Proof.
  assert (Hnil : forall h : Handler,
             saved_interactions h = saved_interactions h /\
             exists updates : list MetricsUpdate,
               metrics_updates h = metrics_updates h ++ updates /\
               Forall (fun u => match u with ConnectionErrors _ _ => False | _ => True end)
                      updates).
  { intros h. split; [reflexivity|]. exists []. rewrite app_nil_r. split; [reflexivity|].
    constructor. }
  induction msgs as [|m msgs IH]; intros full h; cbn.
  - destruct stream_end; apply Hnil.
  - destruct m as [blocks|blocks| |usage cost].
    + destruct (assistant_blocks blocks sid full) as [evs full'].
      specialize (IH full' h).
      destruct (receive msgs stream_end sid full' h) as [[[evs' full''] h'] e].
      exact IH.
    + specialize (IH full h).
      destruct (receive msgs stream_end sid full h) as [[[evs' full''] h'] e].
      exact IH.
    + apply IH.
    + assert (H : saved_interactions (snd (result_branch sid usage cost h)) =
                    saved_interactions h /\
                  exists updates : list MetricsUpdate,
                    metrics_updates (snd (result_branch sid usage cost h)) =
                      metrics_updates h ++ updates /\
                    Forall (fun u => match u with
                                     | ConnectionErrors _ _ => False
                                     | _ => True
                                     end) updates).
      { unfold result_branch, update_cost, update_tokens.
        destruct (truthy_usage usage) as [u|]; [destruct (token_fields u) as [[i o]|e]|];
          try apply Hnil;
          destruct (truthy_cost cost) as [x|]; cbn;
          repeat match goal with
                 | |- context [session_histories ?hh !! sid] =>
                     destruct (session_histories hh !! sid); cbn
                 | |- context [match ?i with Some _ => _ | None => _ end] =>
                     destruct i; cbn
                 end;
          try apply Hnil;
          (split; [reflexivity|]);
          try (eexists [_]; split; [reflexivity | repeat constructor]; fail);
          try (eexists [_; _]; split; [rewrite <- app_assoc; reflexivity
                                      | repeat constructor]; fail). }
      destruct (result_branch sid usage cost h) as [[ev|e] h']; exact H.
Qed.

(** X24. A failed turn leaves no trace in the memory store and is counted
    as one connection error. When the query or the stream raises, nothing
    is passed to [save_interaction], even if text had already been
    streamed; and the last thing told to the session manager is
    [connection_errors], one more than the number it had on record (1 when
    it had none), the only such update of the turn. *)
Theorem failed_turn_saves_nothing (session_id message : string) (w : World)
        (h : Handler) (e : Exn) :
  query_raises w = Some e \/
  (query_raises w = None /\
   loop_end (receive (stream w) (stream_raises w) session_id "" h) = RaisedInLoop e) ->
  saved_interactions (handler_of (send_message session_id message w h)) =
    saved_interactions h /\
  exists updates : list MetricsUpdate,
    metrics_updates (handler_of (send_message session_id message w h)) =
      metrics_updates h ++ updates ++
      [ConnectionErrors session_id
         (match current_connection_errors w with Some n => n + 1 | None => 1 end)] /\
    Forall (fun u => match u with ConnectionErrors _ _ => False | _ => True end) updates.
Proof.
  intros [Hq | [Hq Hl]]; unfold send_message, handler_of; rewrite Hq.
  - cbn. split; [reflexivity|]. exists []. split; [reflexivity | constructor].
  - pose proof (receive_side_effects (stream w) (stream_raises w) session_id "" h)
      as (Hs & updates & Hm & Hu).
    destruct (receive (stream w) (stream_raises w) session_id "" h) as [[[evs full] h1] le].
    unfold loop_end, loop_handler in *. cbn in Hl, Hs, Hm. subst le. cbn.
    split; [exact Hs|]. exists updates. rewrite Hm, <- app_assoc. auto.
Qed.

(** The stream breaks after the first text. *)
Definition broken : World :=
  {| query_raises := None;
     stream := [AssistantMessage [TextBlock (PyStr "hello there")]];
     stream_raises := Some (Upstream "connection reset");
     memory_integration := true; save_interaction_raises := false;
     current_connection_errors := Some 2 |}.

Lemma failed_turn_saves_nothing_witness :
  saved_interactions (handler_of (send_message "s1" "hi" broken (fresh_handler "s1"))) = [].
Proof.
  destruct (failed_turn_saves_nothing "s1" "hi" broken (fresh_handler "s1")
              (Upstream "connection reset")) as [H _].
  - right. split; reflexivity.
  - exact H.
Defined.

End Turn.

(** ** [cache_manager.py] *)

Module CacheManager.

(** Serialized data. *)
Definition bytes : Type := list Byte.byte.

Section Cache.

(** The values put in the cache, with the two library round trips the
    cache relies on: [pickle.dumps] / [pickle.loads] ([None] when the call
    raises) and [gzip.compress] / [gzip.decompress]. *)
Variable V : Type.
Variable pickle_dumps : V -> option bytes.
Variable pickle_loads : bytes -> option V.
Variable gzip_compress : bytes -> bytes.
Variable gzip_decompress : bytes -> option bytes.

Hypothesis pickle_round_trip :
  forall (v : V) (b : bytes), pickle_dumps v = Some b -> pickle_loads b = Some v.
Hypothesis gzip_round_trip :
  forall b : bytes, gzip_decompress (gzip_compress b) = Some b.

(** What sits in [self.cache]: the value itself, or the compressed
    bytes produced by [_compress]. *)
Inductive Stored : Type :=
| Plain (v : V)
| Compressed (data : bytes).

Record Stats : Type := {
  hits : Z;
  misses : Z;
  evictions : Z;
  expirations : Z;
  total_requests : Z
}.

Record t : Type := {
  max_size : Z;
  default_ttl : Z;
  compression_threshold : Z;
  cache : OrderedDict.t Stored;
  ttl_data : gmap string Z;
  compressed_keys : gset string;
  stats : Stats
}.

(** [CacheManager.__init__] *)
Definition init (size ttl threshold : Z) : t :=
  {| max_size := size; default_ttl := ttl; compression_threshold := threshold;
     cache := []; ttl_data := ∅; compressed_keys := ∅;
     stats := {| hits := 0; misses := 0; evictions := 0; expirations := 0;
                 total_requests := 0 |} |}.

Definition set_cache (x : OrderedDict.t Stored) (s : t) : t :=
  {| max_size := max_size s; default_ttl := default_ttl s;
     compression_threshold := compression_threshold s;
     cache := x; ttl_data := ttl_data s; compressed_keys := compressed_keys s;
     stats := stats s |}.

Definition set_ttl_data (x : gmap string Z) (s : t) : t :=
  {| max_size := max_size s; default_ttl := default_ttl s;
     compression_threshold := compression_threshold s;
     cache := cache s; ttl_data := x; compressed_keys := compressed_keys s;
     stats := stats s |}.

Definition set_compressed_keys (x : gset string) (s : t) : t :=
  {| max_size := max_size s; default_ttl := default_ttl s;
     compression_threshold := compression_threshold s;
     cache := cache s; ttl_data := ttl_data s; compressed_keys := x;
     stats := stats s |}.

Definition set_stats (x : Stats) (s : t) : t :=
  {| max_size := max_size s; default_ttl := default_ttl s;
     compression_threshold := compression_threshold s;
     cache := cache s; ttl_data := ttl_data s; compressed_keys := compressed_keys s;
     stats := x |}.

Definition bump_total_requests (s : t) : t :=
  set_stats {| hits := hits (stats s); misses := misses (stats s);
               evictions := evictions (stats s); expirations := expirations (stats s);
               total_requests := total_requests (stats s) + 1 |} s.
Definition bump_hits (s : t) : t :=
  set_stats {| hits := hits (stats s) + 1; misses := misses (stats s);
               evictions := evictions (stats s); expirations := expirations (stats s);
               total_requests := total_requests (stats s) |} s.
Definition bump_misses (s : t) : t :=
  set_stats {| hits := hits (stats s); misses := misses (stats s) + 1;
               evictions := evictions (stats s); expirations := expirations (stats s);
               total_requests := total_requests (stats s) |} s.
Definition bump_evictions (s : t) : t :=
  set_stats {| hits := hits (stats s); misses := misses (stats s);
               evictions := evictions (stats s) + 1; expirations := expirations (stats s);
               total_requests := total_requests (stats s) |} s.
Definition bump_expirations (s : t) : t :=
  set_stats {| hits := hits (stats s); misses := misses (stats s);
               evictions := evictions (stats s); expirations := expirations (stats s) + 1;
               total_requests := total_requests (stats s) |} s.

(** [_should_compress]: a value that cannot be pickled is not compressed. *)
Definition _should_compress (value : V) (s : t) : bool :=
  match pickle_dumps value with
  | Some serialized => compression_threshold s <? Z.of_nat (length serialized)
  | None => false
  end.

(** [_compress], for a value that can be pickled. *)
Definition _compress (value : V) : option bytes :=
  option_map gzip_compress (pickle_dumps value).

(** [_decompress]; it is handed whatever is stored under the key. *)
Definition _decompress (x : Stored) : option V :=
  match x with
  | Compressed data =>
      match gzip_decompress data with
      | Some decompressed => pickle_loads decompressed
      | None => None
      end
  | Plain _ => None
  end.

(** [_is_expired]: the clock is read only for a key that has a TTL. *)
Definition _is_expired (key : string) : M t bool :=
  s <- get ;;
  match ttl_data s !! key with
  | None => ret true
  | Some expiry => t_now <- now ;; ret (expiry <? t_now)
  end.

(** [_remove] *)
Definition _remove (key : string) (s : t) : t :=
  set_compressed_keys (compressed_keys s ∖ {[key]})
    (set_ttl_data (delete key (ttl_data s))
       (set_cache (OrderedDict.remove key (cache s)) s)).

(** [_evict_lru] *)
Definition _evict_lru (s : t) : t :=
  match cache s with
  | [] => s
  | (key, _) :: _ => bump_evictions (_remove key s)
  end.

(** [while len(self.cache) > self.max_size: self._evict_lru()], run for
    at most [fuel] turns; [false] when the turns did not suffice. On an
    empty cache [_evict_lru] changes nothing, so a loop still running
    then never ends. *)
Fixpoint evict_loop (fuel : nat) (s : t) : bool * t :=
  if max_size s <? OrderedDict.len (cache s) then
    match fuel with
    | O => (false, s)
    | S fuel' => evict_loop fuel' (_evict_lru s)
    end
  else (true, s).

Inductive Exn : Type :=
| Corrupt
| NonTermination.

(** [get]: [Returned None] stands for the [default] of the caller. *)
Definition get_ (key : string) : M t (Outcome Exn (option V)) :=
  modify bump_total_requests ;;;
  s <- get ;;
  match OrderedDict.lookup key (cache s) with
  | None => modify bump_misses ;;; ret (Returned None)
  | Some _ =>
      expired <- _is_expired key ;;
      if expired then
        modify (_remove key) ;;;
        modify bump_expirations ;;;
        modify bump_misses ;;;
        ret (Returned None)
      else
        modify (fun s => set_cache (OrderedDict.move_to_end key (cache s)) s) ;;;
        modify bump_hits ;;;
        s <- get ;;
        match OrderedDict.lookup key (cache s) with
        | None => ret (Raised Corrupt)
        | Some value =>
            if decide (key ∈ compressed_keys s) then
              match _decompress value with
              | Some v => ret (Returned (Some v))
              | None => ret (Raised Corrupt)
              end
            else
              match value with
              | Plain v => ret (Returned (Some v))
              | Compressed _ => ret (Raised Corrupt)
              end
        end
  end.

(** [ttl or self.default_ttl] *)
Definition effective_ttl (ttl : option Z) (s : t) : Z :=
  match ttl with
  | Some 0 | None => default_ttl s
  | Some x => x
  end.

(** Lines 111-128 of [set]: drop the old entry, compress if the value is
    large, append at the recent end, stamp the expiry. *)
Definition store (key : string) (value : V) (ttl : option Z) : M t unit :=
  s <- get ;;
  when (OrderedDict.contains key (cache s))
       (modify (fun s => set_cache (OrderedDict.remove key (cache s)) s) ;;;
        modify (fun s => set_compressed_keys (compressed_keys s ∖ {[key]}) s)) ;;;
  s <- get ;;
  let stored_value :=
    if _should_compress value s
    then match _compress value with
         | Some data => Compressed data
         | None => Plain value
         end
    else Plain value in
  when (_should_compress value s)
       (modify (fun s => set_compressed_keys ({[key]} ∪ compressed_keys s) s)) ;;;
  modify (fun s => set_cache (OrderedDict.set key stored_value (cache s)) s) ;;;
  t_now <- now ;;
  modify (fun s => set_ttl_data
            (<[key := t_now + Clock.seconds (effective_ttl ttl s)]> (ttl_data s)) s).

(** [set]: the above, then lines 130-132. The [tags] argument is not
    used by the source. *)
Definition set_ (key : string) (value : V) (ttl : option Z) : M t (Outcome Exn unit) :=
  store key value ttl ;;;
  s <- get ;;
  let '(finished, s') := evict_loop (S (length (cache s))) s in
  put s' ;;;
  ret (if finished then Returned tt else Raised NonTermination).

(** [delete] and [clear] *)
Definition delete_ (key : string) : M t bool :=
  s <- get ;;
  if OrderedDict.contains key (cache s)
  then modify (_remove key) ;;; ret true
  else ret false.

Definition clear : M t unit :=
  modify (fun s => set_compressed_keys ∅ (set_ttl_data ∅ (set_cache [] s))).

(** Keys are unique, and only keys of the cache are marked compressed. *)
Definition Inv (s : t) : Prop :=
  NoDup (OrderedDict.keys (cache s)) /\
  forall k : string, k ∈ compressed_keys s -> OrderedDict.lookup k (cache s) <> None.

(** Caches reachable from the constructor by the public methods. *)
Inductive Reachable : t -> Prop :=
| reach_init size ttl threshold : Reachable (init size ttl threshold)
| reach_set key value ttl s c :
    Reachable s -> Reachable (state_of (set_ key value ttl s c))
| reach_get key s c : Reachable s -> Reachable (state_of (get_ key s c))
| reach_delete key s c : Reachable s -> Reachable (state_of (delete_ key s c))
| reach_clear s c : Reachable s -> Reachable (state_of (clear s c)).

(** *** The invariant *)

Lemma remove_Inv (key : string) (s : t) : Inv s -> Inv (_remove key s).
Proof.
  intros [Hnd Hck]. split; cbn.
  - apply OrderedDict.NoDup_remove, Hnd.
  - intros k. rewrite elem_of_difference, elem_of_singleton. intros [Hin Hne].
    rewrite OrderedDict.lookup_remove_ne by exact Hne. apply Hck, Hin.
Qed.

Lemma evict_lru_Inv (s : t) : Inv s -> Inv (_evict_lru s).
Proof.
  intros H. unfold _evict_lru. destruct (cache s) as [|[key v] d] eqn:E; [exact H|].
  apply (remove_Inv key) in H. exact H.
Qed.

Lemma evict_loop_Inv (fuel : nat) : forall s : t, Inv s -> Inv (snd (evict_loop fuel s)).
Proof.
  induction fuel as [|fuel IH]; intros s H; cbn;
    destruct (max_size s <? OrderedDict.len (cache s)); cbn; try exact H.
  apply IH, evict_lru_Inv, H.
Qed.

Lemma store_Inv (key : string) (value : V) (ttl : option Z) (s : t) (c : Clock.t) :
  Inv s -> Inv (state_of (store key value ttl s c)).
Proof.
  intros [Hnd Hck].
  unfold store, bind, get, when, modify, now, ret, state_of, OrderedDict.contains.
  destruct (OrderedDict.lookup key (cache s)) as [old|] eqn:El; cbn;
    destruct (_should_compress value _); cbn; split; cbn;
    try (apply OrderedDict.NoDup_set; try apply OrderedDict.NoDup_remove; exact Hnd);
    intros k; rewrite ?elem_of_union, ?elem_of_difference, ?elem_of_singleton;
    intros Hk; destruct (decide (k = key)) as [->|Hne];
    try (rewrite OrderedDict.lookup_set_eq; discriminate);
    rewrite OrderedDict.lookup_set_ne by exact Hne;
    rewrite ?OrderedDict.lookup_remove_ne by exact Hne;
    apply Hck; tauto.
Qed.

Lemma set_Inv (key : string) (value : V) (ttl : option Z) (s : t) (c : Clock.t) :
  Inv s -> Inv (state_of (set_ key value ttl s c)).
Proof.
  intros H. pose proof (store_Inv key value ttl s c H) as Hs.
  unfold set_, bind, get, put, ret, state_of in *.
  destruct (store key value ttl s c) as [[u s_b] c_b]. cbn in Hs.
  pose proof (evict_loop_Inv (S (length (cache s_b))) s_b Hs) as He.
  destruct (evict_loop (S (length (cache s_b))) s_b) as [finished s']. exact He.
Qed.

Lemma get_Inv (key : string) (s : t) (c : Clock.t) :
  Inv s -> Inv (state_of (get_ key s c)).
Proof.
  intros H. pose proof H as [Hnd Hck].
  unfold get_, _is_expired, bind, get, modify, now, ret, state_of. cbn.
  destruct (OrderedDict.lookup key (cache s)) as [st|] eqn:El; cbn; [|exact H].
  assert (Hhit : Inv (bump_hits (set_cache (OrderedDict.move_to_end key (cache s))
                                           (bump_total_requests s)))).
  { split; cbn; [apply OrderedDict.NoDup_move_to_end, Hnd|].
    intros k Hk. destruct (decide (k = key)) as [->|Hne].
    - rewrite (OrderedDict.lookup_move_to_end key st _ Hnd El). discriminate.
    - rewrite OrderedDict.lookup_move_to_end_ne by exact Hne. apply Hck, Hk. }
  assert (Hexp : Inv (bump_misses (bump_expirations (_remove key (bump_total_requests s)))))
    by (apply (remove_Inv key (bump_total_requests s)); exact H).
  destruct (ttl_data s !! key) as [expiry|]; cbn; [|exact Hexp].
  destruct (expiry <? Clock.peek c); cbn; [exact Hexp|].
  rewrite (OrderedDict.lookup_move_to_end key st _ Hnd El).
  destruct (decide (key ∈ compressed_keys s)); cbn.
  - destruct (_decompress st); exact Hhit.
  - destruct st; exact Hhit.
Qed.

Lemma reachable_Inv (s : t) : Reachable s -> Inv s.
Proof.
  induction 1 as [size ttl threshold | key value ttl s c _ IH | key s c _ IH
                 | key s c _ IH | s c _ IH].
  - split; cbn; [constructor | intros k Hk; set_solver].
  - apply set_Inv, IH.
  - apply get_Inv, IH.
  - unfold delete_, bind, get, modify, ret, state_of.
    destruct (OrderedDict.contains key (cache s)); cbn; [|exact IH].
    apply remove_Inv, IH.
  - split; cbn; [constructor | intros k Hk; set_solver].
Qed.

(** *** Eviction spares the entry just written *)

Lemma NoDup_last_fresh (front : OrderedDict.t Stored) (k : string) (st : Stored) :
  NoDup (OrderedDict.keys (front ++ [(k, st)])) ->
  OrderedDict.lookup k front = None.
Proof.
  rewrite OrderedDict.keys_app. cbn. intros H.
  apply NoDup_app in H as (_ & H & _).
  apply OrderedDict.lookup_not_in. intros Hin.
  apply (H k); [rewrite list_elem_of_In; exact Hin | set_solver].
Qed.

Lemma evict_loop_keeps_last (front : OrderedDict.t Stored) :
  forall (s : t) (fuel : nat) (k : string) (st : Stored),
    cache s = front ++ [(k, st)] ->
    NoDup (OrderedDict.keys (cache s)) ->
    1 <= max_size s ->
    (length front < fuel)%nat ->
    exists s' : t,
      evict_loop fuel s = (true, s') /\
      OrderedDict.lookup k (cache s') = Some st /\
      NoDup (OrderedDict.keys (cache s')) /\
      ttl_data s' !! k = ttl_data s !! k /\
      (k ∈ compressed_keys s' <-> k ∈ compressed_keys s).
Proof.
  induction front as [|[k0 v0] front IH]; intros s fuel k st Hc Hnd Hmax Hfuel.
  - exists s. destruct fuel as [|fuel]; [cbn in Hfuel; lia|].
    cbn [evict_loop]. rewrite Hc. unfold OrderedDict.len. cbn [length app].
    destruct (Z.ltb_spec (max_size s) (Z.of_nat 1)); [lia|].
    split; [reflexivity|]. rewrite Hc in Hnd. cbn.
    rewrite String.eqb_refl. auto.
  - destruct fuel as [|fuel]; [cbn in Hfuel; lia|].
    cbn [evict_loop].
    destruct (max_size s <? OrderedDict.len (cache s)).
    + assert (Hne : k <> k0).
      { rewrite Hc in Hnd. cbn in Hnd. apply NoDup_cons in Hnd as [Hk0 _].
        intros ->. apply Hk0.
        change (List.map fst (front ++ [(k0, st)]))
          with (OrderedDict.keys (front ++ [(k0, st)])).
        rewrite OrderedDict.keys_app. cbn. set_solver. }
      assert (Hc' : cache (_evict_lru s) = front ++ [(k, st)]).
      { unfold _evict_lru. rewrite Hc. cbn. rewrite Hc. cbn.
        rewrite String.eqb_refl. reflexivity. }
      destruct (IH (_evict_lru s) fuel k st Hc') as (s' & H1 & H2 & H3 & H4 & H5).
      * rewrite Hc'. rewrite Hc in Hnd. cbn in Hnd.
        apply NoDup_cons in Hnd as [_ Hnd]. exact Hnd.
      * unfold _evict_lru. rewrite Hc. exact Hmax.
      * cbn in Hfuel. lia.
      * exists s'. split; [exact H1|]. split; [exact H2|]. split; [exact H3|].
        unfold _evict_lru in H4, H5. rewrite Hc in H4, H5. cbn in H4, H5.
        rewrite lookup_delete_ne in H4 by congruence.
        split; [exact H4|]. rewrite H5, elem_of_difference, elem_of_singleton.
        tauto.
    + exists s. split; [reflexivity|]. split; [|auto].
      rewrite Hc in Hnd |- *.
      apply OrderedDict.lookup_app_last, (NoDup_last_fresh _ _ st), Hnd.
Qed.

(** *** [set], then [get] *)

(** What [set] stores for a value. *)
Definition stored_for (value : V) (s : t) : Stored :=
  if _should_compress value s
  then match _compress value with
       | Some data => Compressed data
       | None => Plain value
       end
  else Plain value.

Lemma stored_for_decodes (value : V) (s : t) :
  if _should_compress value s
  then _decompress (stored_for value s) = Some value
  else stored_for value s = Plain value.
Proof using pickle_round_trip gzip_round_trip.
  unfold stored_for, _should_compress, _compress.
  destruct (pickle_dumps value) as [b|] eqn:E; [|reflexivity].
  destruct (compression_threshold s <? Z.of_nat (length b)); [|reflexivity].
  cbn. rewrite gzip_round_trip. apply pickle_round_trip, E.
Qed.

Lemma store_spec (key : string) (value : V) (ttl : option Z) (s : t) (c : Clock.t) :
  Inv s ->
  exists (s_b : t) (front : OrderedDict.t Stored),
    store key value ttl s c = (tt, s_b, Clock.advance c) /\
    cache s_b = front ++ [(key, stored_for value s)] /\
    NoDup (OrderedDict.keys (cache s_b)) /\
    max_size s_b = max_size s /\
    ttl_data s_b !! key = Some (Clock.peek c + Clock.seconds (effective_ttl ttl s)) /\
    (key ∈ compressed_keys s_b <-> _should_compress value s = true).
Proof.
  intros [Hnd Hck].
  assert (Happ : forall (d : OrderedDict.t Stored) (st : Stored),
             NoDup (OrderedDict.keys d) -> OrderedDict.lookup key d = None ->
             NoDup (OrderedDict.keys (d ++ [(key, st)]))).
  { intros d st Hd Hl. rewrite OrderedDict.keys_app. cbn. apply NoDup_app.
    split; [exact Hd|]. split; [|apply NoDup_singleton].
    intros x Hx Hx'. apply list_elem_of_singleton in Hx'. subst x.
    rewrite list_elem_of_In in Hx. revert Hx Hl. clear.
    induction d as [|[k' v'] d IH]; cbn; [tauto|].
    destruct (String.eqb_spec key k'); [discriminate|].
    intros [?|?] ?; [congruence|auto]. }
  unfold store, bind, get, when, modify, now, ret, OrderedDict.contains,
    stored_for, _should_compress, _compress.
  destruct (OrderedDict.lookup key (cache s)) as [old|] eqn:El; cbn.
  - pose proof (OrderedDict.lookup_remove_eq key (cache s) Hnd) as Hrm.
    pose proof (OrderedDict.NoDup_remove key (cache s) Hnd) as Hnd'.
    destruct (pickle_dumps value) as [b|]; cbn.
    + destruct (compression_threshold s <? Z.of_nat (length b)); cbn;
        rewrite (OrderedDict.set_fresh _ _ _ Hrm);
        eexists; exists (OrderedDict.remove key (cache s));
        (split; [reflexivity|]); cbn;
        (split; [reflexivity|]); (split; [apply Happ; assumption|]);
        (split; [reflexivity|]); (split; [apply lookup_insert_eq|]);
        rewrite ?elem_of_union, elem_of_difference, elem_of_singleton;
        split; first [tauto | discriminate | intros; exfalso; tauto | auto].
    + rewrite (OrderedDict.set_fresh _ _ _ Hrm);
        eexists; exists (OrderedDict.remove key (cache s));
        (split; [reflexivity|]); cbn;
        (split; [reflexivity|]); (split; [apply Happ; assumption|]);
        (split; [reflexivity|]); (split; [apply lookup_insert_eq|]);
        rewrite elem_of_difference, elem_of_singleton;
        split; first [discriminate | intros; exfalso; tauto].
  - assert (Hnot : key ∉ compressed_keys s)
      by (intros Hin; apply (Hck key Hin), El).
    destruct (pickle_dumps value) as [b|]; cbn.
    + destruct (compression_threshold s <? Z.of_nat (length b)); cbn;
        rewrite (OrderedDict.set_fresh _ _ _ El);
        eexists; exists (cache s);
        (split; [reflexivity|]); cbn;
        (split; [reflexivity|]); (split; [apply Happ; assumption|]);
        (split; [reflexivity|]); (split; [apply lookup_insert_eq|]);
        rewrite ?elem_of_union, ?elem_of_singleton;
        split; first [tauto | discriminate | intros; exfalso; tauto | auto].
    + rewrite (OrderedDict.set_fresh _ _ _ El);
        eexists; exists (cache s);
        (split; [reflexivity|]); cbn;
        (split; [reflexivity|]); (split; [apply Happ; assumption|]);
        (split; [reflexivity|]); (split; [apply lookup_insert_eq|]);
        split; first [discriminate | intros; exfalso; tauto].
Qed.

Lemma set_spec (key : string) (value : V) (ttl : option Z) (s : t) (c : Clock.t) :
  Inv s ->
  1 <= max_size s ->
  exists s1 : t,
    set_ key value ttl s c = (Returned tt, s1, Clock.advance c) /\
    OrderedDict.lookup key (cache s1) = Some (stored_for value s) /\
    NoDup (OrderedDict.keys (cache s1)) /\
    ttl_data s1 !! key = Some (Clock.peek c + Clock.seconds (effective_ttl ttl s)) /\
    (key ∈ compressed_keys s1 <-> _should_compress value s = true).
Proof.
  intros Hinv Hmax.
  destruct (store_spec key value ttl s c Hinv)
    as (s_b & front & Hst & Hc & Hnd & Hmx & Httl & Hck).
  destruct (evict_loop_keeps_last front s_b (S (length (cache s_b))) key
              (stored_for value s) Hc Hnd) as (s1 & H1 & H2 & H3 & H4 & H5).
  { rewrite Hmx. exact Hmax. }
  { rewrite Hc, length_app. cbn. lia. }
  exists s1. unfold set_, bind, get, put, ret. rewrite Hst, H1.
  split; [reflexivity|]. split; [exact H2|]. split; [exact H3|].
  split; [rewrite H4; exact Httl | rewrite H5; exact Hck].
Qed.

Lemma get_spec (key : string) (st : Stored) (expiry : Z) (s : t) (c : Clock.t) :
  NoDup (OrderedDict.keys (cache s)) ->
  OrderedDict.lookup key (cache s) = Some st ->
  ttl_data s !! key = Some expiry ->
  Clock.peek c <= expiry ->
  result_of (get_ key s c) =
    if decide (key ∈ compressed_keys s)
    then match _decompress st with
         | Some v => Returned (Some v)
         | None => Raised Corrupt
         end
    else match st with
         | Plain v => Returned (Some v)
         | Compressed _ => Raised Corrupt
         end.
Proof.
  intros Hnd Hl Httl Hle.
  unfold get_, _is_expired, bind, get, modify, now, ret, result_of. cbn.
  rewrite Hl. cbn. rewrite Httl. cbn.
  destruct (Z.ltb_spec expiry (Clock.peek c)); [lia|]. cbn.
  rewrite (OrderedDict.lookup_move_to_end key st _ Hnd Hl).
  destruct (decide (key ∈ compressed_keys s)); cbn.
  - destruct (_decompress st); reflexivity.
  - destruct st; reflexivity.
Qed.

(** C6. Cache round trip. On a cache reachable from its constructor,
    with room for at least one entry, [set(k, v)] returns, and a [get(k)]
    made while the clock has not passed the expiry written by that [set]
    returns [v], whether or not the pickled value was longer than the
    compression threshold: a compressed entry is decompressed and
    unpickled back to [v]. *)
Theorem cache_round_trip (key : string) (value : V) (ttl : option Z)
        (s : t) (c c' : Clock.t) :
  Reachable s ->
  1 <= max_size s ->
  Clock.peek c' <= Clock.peek c + Clock.seconds (effective_ttl ttl s) ->
  result_of (set_ key value ttl s c) = Returned tt /\
  result_of (get_ key (state_of (set_ key value ttl s c)) c') = Returned (Some value).
Proof using pickle_round_trip gzip_round_trip.
  intros Hr Hmax Hle.
  destruct (set_spec key value ttl s c (reachable_Inv s Hr) Hmax)
    as (s1 & Hset & Hl & Hnd & Httl & Hck).
  rewrite Hset. unfold result_of at 1, state_of. cbn [fst snd].
  split; [reflexivity|].
  rewrite (get_spec key _ _ s1 c' Hnd Hl Httl Hle).
  pose proof (stored_for_decodes value s) as Hdec.
  destruct (_should_compress value s).
  - destruct (decide (key ∈ compressed_keys s1)) as [_|Hn]; [|tauto].
    rewrite Hdec. reflexivity.
  - destruct (decide (key ∈ compressed_keys s1)) as [Hin|_].
    + apply Hck in Hin. discriminate.
    + rewrite Hdec. reflexivity.
Qed.

(** *** Size, counters, expiry and eviction order *)

(** The invariant again, from the code alone: the library round trips
    play no part in it. *)
Lemma reachable_unique_keys (s : t) : Reachable s -> Inv s.
Proof using Type.
  clear pickle_round_trip gzip_round_trip.
  induction 1 as [size ttl threshold | key value ttl s c _ IH | key s c _ IH
                 | key s c _ IH | s c _ IH].
  - split; cbn; [constructor | intros k Hk; apply elem_of_empty in Hk as []].
  - apply set_Inv, IH.
  - apply get_Inv, IH.
  - unfold delete_, bind, get, modify, ret, state_of.
    destruct (OrderedDict.contains key (cache s)); cbn; [|exact IH].
    apply remove_Inv, IH.
  - split; cbn; [constructor | intros k Hk; apply elem_of_empty in Hk as []].
Qed.

Lemma evict_lru_length (s : t) :
  max_size (_evict_lru s) = max_size s /\
  length (cache (_evict_lru s)) = Nat.pred (length (cache s)).
Proof.
  unfold _evict_lru. destruct (cache s) as [|[key v] d] eqn:E; cbn; rewrite E; cbn.
  - auto.
  - rewrite String.eqb_refl. auto.
Qed.

Lemma evict_loop_bound (fuel : nat) : forall s : t,
  0 <= max_size s ->
  (length (cache s) < fuel)%nat ->
  fst (evict_loop fuel s) = true /\
  max_size (snd (evict_loop fuel s)) = max_size s /\
  OrderedDict.len (cache (snd (evict_loop fuel s))) <= max_size s.
Proof.
  induction fuel as [|fuel IH]; intros s Hmax Hfuel; [lia|].
  cbn [evict_loop]. unfold OrderedDict.len in *.
  destruct (Z.ltb_spec (max_size s) (Z.of_nat (length (cache s)))); [|cbn; auto].
  destruct (evict_lru_length s) as [Hm Hl].
  destruct (IH (_evict_lru s)) as (H1 & H2 & H3); [lia | lia |].
  rewrite Hm in *. auto.
Qed.

Lemma evict_loop_stats (fuel : nat) : forall s : t,
  hits (stats (snd (evict_loop fuel s))) = hits (stats s) /\
  misses (stats (snd (evict_loop fuel s))) = misses (stats s) /\
  expirations (stats (snd (evict_loop fuel s))) = expirations (stats s) /\
  total_requests (stats (snd (evict_loop fuel s))) = total_requests (stats s) /\
  max_size (snd (evict_loop fuel s)) = max_size s.
Proof.
  induction fuel as [|fuel IH]; intros s; cbn [evict_loop];
    destruct (max_size s <? OrderedDict.len (cache s)); cbn; auto 10.
  destruct (IH (_evict_lru s)) as (H1 & H2 & H3 & H4 & H5).
  rewrite H1, H2, H3, H4, H5. unfold _evict_lru.
  destruct (cache s) as [|[key v] d]; cbn; auto 10.
Qed.

Lemma store_frame (key : string) (value : V) (ttl : option Z) (s : t) (c : Clock.t) :
  stats (state_of (store key value ttl s c)) = stats s /\
  max_size (state_of (store key value ttl s c)) = max_size s.
Proof.
  unfold store, bind, get, when, modify, now, ret, state_of.
  destruct (OrderedDict.contains key (cache s)); cbn;
    destruct (_should_compress value _); cbn; auto.
Qed.

(** The counters and the capacity across one method call. *)
Definition counters_kept (s s' : t) : Prop :=
  hits (stats s') = hits (stats s) /\
  misses (stats s') = misses (stats s) /\
  expirations (stats s') = expirations (stats s) /\
  total_requests (stats s') = total_requests (stats s) /\
  max_size s' = max_size s.

Lemma set_counters (key : string) (value : V) (ttl : option Z) (s : t) (c : Clock.t) :
  counters_kept s (state_of (set_ key value ttl s c)).
Proof.
  pose proof (store_frame key value ttl s c) as [Hs Hm].
  unfold set_, bind, get, put, ret, state_of in *.
  destruct (store key value ttl s c) as [[u s_b] c_b]. cbn in Hs, Hm.
  pose proof (evict_loop_stats (S (length (cache s_b))) s_b) as (H1 & H2 & H3 & H4 & H5).
  destruct (evict_loop (S (length (cache s_b))) s_b) as [finished s']. cbn in *.
  unfold counters_kept. rewrite H1, H2, H3, H4, H5, Hs, Hm. auto.
Qed.

(** The outcomes of [get]: a miss, an expired entry, or a hit. *)
Lemma get_cases (key : string) (s : t) (c : Clock.t) :
  let expired_state := bump_misses (bump_expirations (_remove key (bump_total_requests s))) in
  (OrderedDict.lookup key (cache s) = None /\
   get_ key s c = (Returned None, bump_misses (bump_total_requests s), c)) \/
  (OrderedDict.lookup key (cache s) <> None /\ ttl_data s !! key = None /\
   get_ key s c = (Returned None, expired_state, c)) \/
  (exists expiry : Z,
     OrderedDict.lookup key (cache s) <> None /\ ttl_data s !! key = Some expiry /\
     expiry < Clock.peek c /\
     get_ key s c = (Returned None, expired_state, Clock.advance c)) \/
  (exists expiry : Z,
     OrderedDict.lookup key (cache s) <> None /\ ttl_data s !! key = Some expiry /\
     Clock.peek c <= expiry /\
     state_of (get_ key s c) =
       bump_hits (set_cache (OrderedDict.move_to_end key (cache s))
                            (bump_total_requests s))).
Proof.
  cbv zeta. unfold get_, _is_expired, bind, get, modify, now, ret, state_of. cbn.
  destruct (OrderedDict.lookup key (cache s)) as [st|] eqn:El; cbn; [|auto].
  right. destruct (ttl_data s !! key) as [expiry|] eqn:Et; cbn.
  - right. destruct (Z.ltb_spec expiry (Clock.peek c)); cbn.
    + left. exists expiry. repeat split; [discriminate | assumption].
    + right. exists expiry. split; [discriminate|]. split; [reflexivity|].
      split; [assumption|].
      destruct (OrderedDict.lookup key (OrderedDict.move_to_end key (cache s))); cbn;
        [|reflexivity].
      destruct (decide (key ∈ compressed_keys s)); cbn.
      * destruct (_decompress s0); reflexivity.
      * destruct s0; reflexivity.
  - left. split; [discriminate|]. auto.
Qed.

Lemma length_remove_present {X} (k : string) (d : OrderedDict.t X) :
  OrderedDict.lookup k d <> None ->
  S (length (OrderedDict.remove k d)) = length d.
Proof.
  induction d as [|[k' v'] d IH]; cbn; [congruence|].
  destruct (String.eqb k k'); cbn; [reflexivity|]. intros H. rewrite IH by exact H.
  reflexivity.
Qed.

Lemma length_move_to_end {X} (k : string) (d : OrderedDict.t X) :
  length (OrderedDict.move_to_end k d) = length d.
Proof.
  unfold OrderedDict.move_to_end.
  destruct (OrderedDict.lookup k d) as [v|] eqn:E; [|reflexivity].
  rewrite length_app. cbn.
  pose proof (length_remove_present k d ltac:(congruence)). lia.
Qed.

(** The size is within the capacity, and the counters of [get] add up. *)
Definition Bounded (s : t) : Prop :=
  (0 <= max_size s -> OrderedDict.len (cache s) <= max_size s) /\
  hits (stats s) + misses (stats s) = total_requests (stats s) /\
  0 <= expirations (stats s) <= misses (stats s) /\
  0 <= hits (stats s).

Lemma get_Bounded (key : string) (s : t) (c : Clock.t) :
  Bounded s -> Bounded (state_of (get_ key s c)).
Proof.
  intros (Hsize & Hsum & Hexp & Hhits).
  assert (Hrm : Bounded (bump_misses (bump_expirations (_remove key (bump_total_requests s))))).
  { unfold Bounded. cbn. split; [|lia].
    intros Hm. specialize (Hsize Hm).
    pose proof (OrderedDict.length_remove_le key (cache s)).
    unfold OrderedDict.len in *. lia. }
  destruct (get_cases key s c) as [[_ E]|[(_ & _ & E)|[(e & _ & _ & _ & E)|(e & _ & _ & _ & E)]]];
    cbv zeta in E; rewrite E; try exact Hrm.
  - unfold Bounded, state_of. cbn. split; [exact Hsize | lia].
  - unfold Bounded. cbn. split; [|lia].
    unfold OrderedDict.len in *. rewrite length_move_to_end. exact Hsize.
Qed.

Lemma reachable_Bounded (s : t) : Reachable s -> Bounded s.
Proof.
  induction 1 as [size ttl threshold | key value ttl s c _ IH | key s c _ IH
                 | key s c _ IH | s c _ IH].
  - unfold Bounded, OrderedDict.len. cbn. split; [auto | lia].
  - destruct IH as (Hsize & Hsum & Hexp & Hhits).
    pose proof (set_counters key value ttl s c) as (H1 & H2 & H3 & H4 & H5).
    unfold Bounded. rewrite H1, H2, H3, H4, H5. split; [|auto].
    intros Hm. clear Hsize.
    pose proof (store_frame key value ttl s c) as [_ Hmb].
    unfold set_, bind, get, put, ret, state_of in *.
    destruct (store key value ttl s c) as [[u s_b] c_b]. cbn in Hmb.
    destruct (evict_loop_bound (S (length (cache s_b))) s_b) as (_ & _ & Hb);
      [lia | lia |].
    destruct (evict_loop (S (length (cache s_b))) s_b) as [finished s']. cbn in *.
    rewrite <- Hmb. exact Hb.
  - apply get_Bounded, IH.
  - destruct IH as (Hsize & Hrest).
    unfold delete_, bind, get, modify, ret, state_of.
    destruct (OrderedDict.contains key (cache s)); cbn; [|split; assumption].
    unfold Bounded. cbn. split; [|exact Hrest].
    intros Hm. specialize (Hsize Hm).
    pose proof (OrderedDict.length_remove_le key (cache s)).
    unfold OrderedDict.len in *. lia.
  - destruct IH as (Hsize & Hrest). unfold Bounded, OrderedDict.len. cbn.
    split; [auto | exact Hrest].
Qed.

(** X25. The cache never holds more than [max_size] entries. On every
    cache reachable from the constructor by [set], [get], [delete] and
    [clear], with a capacity that is not negative, [len(self.cache)] is at
    most [max_size]: [set] evicts until the new entry fits. *)
Theorem cache_within_capacity (s : t) :
  Reachable s -> 0 <= max_size s -> OrderedDict.len (cache s) <= max_size s.
Proof using Type. intros Hr. apply (reachable_Bounded s Hr). Qed.

(** X26. Every lookup is a hit or a miss. On every reachable cache
    [hits + misses = total_requests]; an expired entry counts as a miss,
    so [expirations <= misses]; [set], [delete] and [clear] do not touch
    these counters. *)
Theorem hits_and_misses_add_up (s : t) :
  Reachable s ->
  hits (stats s) + misses (stats s) = total_requests (stats s) /\
  0 <= expirations (stats s) <= misses (stats s) /\
  0 <= hits (stats s).
Proof using Type. intros Hr. apply (reachable_Bounded s Hr). Qed.

(** X27. An expired entry is dropped by the [get] that finds it. On a
    reachable cache, [get(key)] for a key whose expiry is earlier than the
    clock reading returns the default, removes the key from the cache,
    from the expiry table and from the set of compressed keys, and counts
    one expiration and one miss; no hit is counted. *)
Theorem expired_entry_is_dropped (key : string) (expiry : Z) (s : t) (c : Clock.t) :
  Reachable s ->
  OrderedDict.lookup key (cache s) <> None ->
  ttl_data s !! key = Some expiry ->
  expiry < Clock.peek c ->
  result_of (get_ key s c) = Returned None /\
  OrderedDict.lookup key (cache (state_of (get_ key s c))) = None /\
  ttl_data (state_of (get_ key s c)) !! key = None /\
  (key ∉ compressed_keys (state_of (get_ key s c))) /\
  expirations (stats (state_of (get_ key s c))) = expirations (stats s) + 1 /\
  misses (stats (state_of (get_ key s c))) = misses (stats s) + 1 /\
  hits (stats (state_of (get_ key s c))) = hits (stats s).
Proof using Type.
  clear pickle_round_trip gzip_round_trip.
  intros Hr Hl Ht Hlt. destruct (reachable_unique_keys s Hr) as [Hnd _].
  destruct (get_cases key s c) as [[E _]|[(_ & E & _)|[(e & _ & Et & _ & E)|(e & _ & Et & Hle & _)]]];
    try congruence.
  - cbv zeta in E. rewrite E. unfold result_of, state_of. cbn.
    split; [reflexivity|]. split; [apply OrderedDict.lookup_remove_eq, Hnd|].
    split; [apply lookup_delete_eq|].
    split; [rewrite elem_of_difference, elem_of_singleton; tauto | auto].
  - rewrite Ht in Et. injection Et. lia.
Qed.

Lemma remove_app_other (k' k : string) (st : Stored) (d : OrderedDict.t Stored) :
  k' <> k ->
  OrderedDict.remove k' (d ++ [(k, st)]) = OrderedDict.remove k' d ++ [(k, st)].
Proof.
  intros Hne. induction d as [|[k0 v0] d IH]; cbn.
  - destruct (String.eqb_spec k' k); [contradiction|reflexivity].
  - destruct (String.eqb k' k0); [reflexivity|]. rewrite IH. reflexivity.
Qed.

Lemma lookup_app_fresh (k : string) (front tail : OrderedDict.t Stored) :
  OrderedDict.lookup k front = None ->
  OrderedDict.lookup k (front ++ tail) = OrderedDict.lookup k tail.
Proof.
  induction front as [|[k0 v0] front IH]; cbn; [reflexivity|].
  destruct (String.eqb k k0); [discriminate|]. exact IH.
Qed.

Lemma NoDup_tail_fresh (k : string) (st : Stored) (front tail : OrderedDict.t Stored) :
  NoDup (OrderedDict.keys (front ++ tail)) ->
  OrderedDict.lookup k tail = Some st ->
  OrderedDict.lookup k front = None.
Proof.
  rewrite OrderedDict.keys_app. intros H Hl.
  apply NoDup_app in H as (_ & H & _).
  apply OrderedDict.lookup_not_in. intros Hin.
  apply (H k); rewrite list_elem_of_In; [exact Hin|].
  apply (OrderedDict.lookup_in k st), Hl.
Qed.

(** The loop of [set] removes from the old end only: the most recent
    entries, as many as the capacity allows, stay as they are. *)
Lemma evict_loop_keeps_recent (front : OrderedDict.t Stored) :
  forall (s : t) (fuel : nat) (tail : OrderedDict.t Stored) (k : string) (st : Stored),
    cache s = front ++ tail ->
    NoDup (OrderedDict.keys (cache s)) ->
    Z.of_nat (length tail) <= max_size s ->
    (length front < fuel)%nat ->
    OrderedDict.lookup k tail = Some st ->
    exists s' : t,
      evict_loop fuel s = (true, s') /\
      OrderedDict.lookup k (cache s') = Some st /\
      NoDup (OrderedDict.keys (cache s')) /\
      ttl_data s' !! k = ttl_data s !! k /\
      (k ∈ compressed_keys s' <-> k ∈ compressed_keys s).
Proof.
  induction front as [|[k0 v0] front IH]; intros s fuel tail k st Hc Hnd Hmax Hfuel Hl.
  - exists s. destruct fuel as [|fuel]; [cbn in Hfuel; lia|].
    cbn [evict_loop]. rewrite Hc. unfold OrderedDict.len. cbn [app].
    destruct (Z.ltb_spec (max_size s) (Z.of_nat (length tail))); [lia|].
    split; [reflexivity|]. rewrite Hc in Hnd. cbn in Hnd. auto.
  - destruct fuel as [|fuel]; [cbn in Hfuel; lia|].
    cbn [evict_loop].
    pose proof Hnd as Hfresh. rewrite Hc in Hfresh.
    apply (NoDup_tail_fresh k st) in Hfresh; [|exact Hl].
    destruct (max_size s <? OrderedDict.len (cache s)).
    + assert (Hne : k <> k0).
      { intros ->. cbn in Hfresh. rewrite String.eqb_refl in Hfresh. discriminate. }
      assert (Hc' : cache (_evict_lru s) = front ++ tail).
      { unfold _evict_lru. rewrite Hc. cbn. rewrite Hc. cbn.
        rewrite String.eqb_refl. reflexivity. }
      destruct (IH (_evict_lru s) fuel tail k st Hc') as (s' & H1 & H2 & H3 & H4 & H5).
      * rewrite Hc'. rewrite Hc in Hnd. cbn in Hnd.
        apply NoDup_cons in Hnd as [_ Hnd]. exact Hnd.
      * unfold _evict_lru. rewrite Hc. exact Hmax.
      * cbn in Hfuel. lia.
      * exact Hl.
      * exists s'. split; [exact H1|]. split; [exact H2|]. split; [exact H3|].
        unfold _evict_lru in H4, H5. rewrite Hc in H4, H5. cbn in H4, H5.
        rewrite lookup_delete_ne in H4 by congruence.
        split; [exact H4|]. rewrite H5, elem_of_difference, elem_of_singleton.
        tauto.
    + exists s. split; [reflexivity|]. split; [|auto].
      rewrite Hc, (lookup_app_fresh k _ tail Hfresh). exact Hl.
Qed.

(** What [store] leaves for a key other than the one written. *)
Lemma store_other (key k : string) (value : V) (ttl : option Z) (s : t) (c : Clock.t) :
  NoDup (OrderedDict.keys (cache s)) ->
  k <> key ->
  exists s_b : t,
    store key value ttl s c = (tt, s_b, Clock.advance c) /\
    cache s_b = OrderedDict.remove key (cache s) ++ [(key, stored_for value s)] /\
    max_size s_b = max_size s /\
    ttl_data s_b !! k = ttl_data s !! k /\
    (k ∈ compressed_keys s_b <-> k ∈ compressed_keys s).
Proof.
  intros Hnd Hne.
  unfold store, bind, get, when, modify, now, ret, OrderedDict.contains,
    stored_for, _should_compress, _compress.
  destruct (OrderedDict.lookup key (cache s)) as [old|] eqn:El; cbn.
  - pose proof (OrderedDict.lookup_remove_eq key (cache s) Hnd) as Hrm.
    destruct (pickle_dumps value) as [b|]; cbn;
      [destruct (compression_threshold s <? Z.of_nat (length b)); cbn|];
      rewrite (OrderedDict.set_fresh _ _ _ Hrm);
      eexists; (split; [reflexivity|]); cbn;
      (split; [reflexivity|]); (split; [reflexivity|]);
      (split; [apply lookup_insert_ne; congruence|]);
      rewrite ?elem_of_union, elem_of_difference, elem_of_singleton;
      split; intros; try tauto; destruct H; tauto.
  - rewrite (OrderedDict.remove_absent _ _ El).
    destruct (pickle_dumps value) as [b|]; cbn;
      [destruct (compression_threshold s <? Z.of_nat (length b)); cbn|];
      rewrite (OrderedDict.set_fresh _ _ _ El);
      eexists; (split; [reflexivity|]); cbn;
      (split; [reflexivity|]); (split; [reflexivity|]);
      (split; [apply lookup_insert_ne; congruence|]);
      rewrite ?elem_of_union, ?elem_of_singleton;
      split; intros; try tauto; destruct H; tauto.
Qed.

(** X28. Eviction follows the order of use. On a reachable cache with
    room for at least two entries, after a [get(k)] that returned a value,
    a [set] of another key returns and does not evict [k]: a [get(k)] made
    before the expiry of [k] returns the same value again. *)
Theorem entry_just_read_survives_next_set (k k' : string) (v value' : V)
        (ttl : option Z) (expiry : Z) (s : t) (c1 c2 c3 : Clock.t) :
  Reachable s ->
  2 <= max_size s ->
  k' <> k ->
  result_of (get_ k s c1) = Returned (Some v) ->
  ttl_data s !! k = Some expiry ->
  Clock.peek c3 <= expiry ->
  result_of (set_ k' value' ttl (state_of (get_ k s c1)) c2) = Returned tt /\
  result_of (get_ k (state_of (set_ k' value' ttl (state_of (get_ k s c1)) c2)) c3)
    = Returned (Some v).
Proof using Type.
  clear pickle_round_trip gzip_round_trip.
  intros Hr Hmax Hne Hres Httl Hc3.
  destruct (reachable_unique_keys s Hr) as [Hnd _].
  pose proof (get_Inv k s c1 (reachable_unique_keys s Hr)) as Hinv1.
  destruct (get_cases k s c1) as [[_ E]|[(_ & _ & E)|[(e & _ & _ & _ & E)|(e & Hl & Et & Hle & Es)]]];
    try (cbv zeta in E; rewrite E in Hres; discriminate Hres).
  assert (e = expiry) by congruence. subst e.
  destruct (OrderedDict.lookup k (cache s)) as [st|] eqn:Hlk; [clear Hl|congruence].
  rewrite (get_spec k st expiry s c1 Hnd Hlk Httl Hle) in Hres.
  rewrite Es in *. clear Es.
  set (s1 := bump_hits (set_cache (OrderedDict.move_to_end k (cache s))
                                  (bump_total_requests s))) in *.
  assert (Hc1 : cache s1 = OrderedDict.remove k (cache s) ++ [(k, st)]).
  { unfold s1, OrderedDict.move_to_end. cbn. rewrite Hlk. reflexivity. }
  destruct (store_other k' k value' ttl s1 c2 (proj1 Hinv1) ltac:(congruence))
    as (s_b & Hst & Hcb & Hmb & Htb & Hkb).
  pose proof (store_Inv k' value' ttl s1 c2 Hinv1) as Hinvb.
  rewrite Hst in Hinvb. unfold state_of in Hinvb. cbn [fst snd] in Hinvb.
  destruct Hinvb as [Hndb _].
  rewrite Hc1, remove_app_other, <- app_assoc in Hcb by exact Hne.
  cbn [app] in Hcb.
  destruct (evict_loop_keeps_recent _ s_b (S (length (cache s_b)))
              [(k, st); (k', stored_for value' s1)] k st Hcb Hndb)
    as (s2 & H1 & H2 & H3 & H4 & H5).
  { rewrite Hmb. cbn. exact Hmax. }
  { rewrite Hcb, length_app. cbn. lia. }
  { cbn. rewrite String.eqb_refl. reflexivity. }
  unfold set_, bind, get, put, ret. rewrite Hst, H1.
  unfold result_of at 1, state_of. cbn [fst snd].
  split; [reflexivity|].
  rewrite (get_spec k st expiry s2 c3 H3 H2); [| rewrite H4, Htb; exact Httl | exact Hc3].
  rewrite <- Hres.
  assert (Hiff : k ∈ compressed_keys s2 <-> k ∈ compressed_keys s)
    by (rewrite H5, Hkb; reflexivity).
  destruct (decide (k ∈ compressed_keys s2)), (decide (k ∈ compressed_keys s));
    try reflexivity; tauto.
Qed.

End Cache.

(** A cache of byte strings with a threshold of two bytes; pickling is the
    identity and compression doubles every byte. The value below is
    stored compressed. *)
Definition sample_compress (b : bytes) : bytes :=
  List.concat (List.map (fun x => [x; x]) b).

Fixpoint sample_decompress (b : bytes) : option bytes :=
  match b with
  | [] => Some []
  | x :: _ :: rest => option_map (cons x) (sample_decompress rest)
  | [_] => None
  end.

Lemma sample_round_trip (b : bytes) : sample_decompress (sample_compress b) = Some b.
Proof.
  induction b as [|x b IH]; [reflexivity|].
  change (sample_compress (x :: b)) with (x :: x :: sample_compress b).
  cbn. rewrite IH. reflexivity.
Qed.

Definition sample_value : bytes := [Byte.x68; Byte.x65; Byte.x6c; Byte.x6c; Byte.x6f].

Lemma cache_round_trip_witness :
  result_of (set_ bytes Some sample_compress "k" sample_value None
               (init bytes 1000 300 2) (Clock.frozen 0)) = Returned tt /\
  result_of (get_ bytes Some sample_decompress "k"
               (state_of (set_ bytes Some sample_compress "k" sample_value None
                            (init bytes 1000 300 2) (Clock.frozen 0)))
               (Clock.frozen (Clock.seconds 299))) = Returned (Some sample_value).
Proof.
  apply (cache_round_trip bytes Some Some sample_compress sample_decompress).
  - intros v b H. symmetry. exact H.
  - exact sample_round_trip.
  - apply reach_init.
  - cbn. lia.
  - vm_compute. discriminate.
Defined.

(** A cache of two entries, ["a"] written before ["b"], at time 0. *)
Definition cache_ab (size : Z) : t bytes :=
  state_of (set_ bytes Some sample_compress "b" sample_value None
              (state_of (set_ bytes Some sample_compress "a" sample_value None
                           (init bytes size 300 2) (Clock.frozen 0)))
              (Clock.frozen 0)).

Lemma cache_ab_reachable (size : Z) :
  Reachable bytes Some Some sample_compress sample_decompress (cache_ab size).
Proof. unfold cache_ab. apply reach_set, reach_set, reach_init. Qed.

Lemma cache_within_capacity_witness :
  OrderedDict.len (cache bytes (cache_ab 1)) <= max_size bytes (cache_ab 1).
Proof.
  apply (cache_within_capacity bytes Some Some sample_compress sample_decompress).
  - apply cache_ab_reachable.
  - vm_compute. discriminate.
Defined.

Lemma hits_and_misses_add_up_witness :
  let s := state_of (get_ bytes Some sample_decompress "c" (cache_ab 10)
                       (Clock.frozen 0)) in
  hits (stats bytes s) + misses (stats bytes s)
    = total_requests (stats bytes s) /\
  0 <= expirations (stats bytes s) <= misses (stats bytes s) /\
  0 <= hits (stats bytes s).
Proof.
  apply (hits_and_misses_add_up bytes Some Some sample_compress sample_decompress).
  apply reach_get, cache_ab_reachable.
Defined.

Lemma expired_entry_is_dropped_witness :
  let r := get_ bytes Some sample_decompress "a" (cache_ab 10)
             (Clock.frozen (Clock.seconds 301)) in
  result_of r = Returned None /\
  OrderedDict.lookup "a" (cache bytes (state_of r)) = None /\
  ttl_data bytes (state_of r) !! "a" = None /\
  ("a" ∉ compressed_keys bytes (state_of r)) /\
  expirations (stats bytes (state_of r))
    = expirations (stats bytes (cache_ab 10)) + 1 /\
  misses (stats bytes (state_of r)) = misses (stats bytes (cache_ab 10)) + 1 /\
  hits (stats bytes (state_of r)) = hits (stats bytes (cache_ab 10)).
Proof.
  apply (expired_entry_is_dropped bytes Some Some sample_compress sample_decompress
           "a" (Clock.seconds 300)).
  - apply cache_ab_reachable.
  - vm_compute. discriminate.
  - vm_compute. reflexivity.
  - vm_compute. reflexivity.
Defined.

Lemma entry_just_read_survives_next_set_witness :
  let s1 := state_of (get_ bytes Some sample_decompress "a" (cache_ab 2)
                        (Clock.frozen (Clock.seconds 1))) in
  result_of (set_ bytes Some sample_compress "c" sample_value None s1
               (Clock.frozen (Clock.seconds 2))) = Returned tt /\
  result_of (get_ bytes Some sample_decompress "a"
               (state_of (set_ bytes Some sample_compress "c" sample_value None s1
                            (Clock.frozen (Clock.seconds 2))))
               (Clock.frozen (Clock.seconds 3))) = Returned (Some sample_value).
Proof.
  apply (entry_just_read_survives_next_set bytes Some Some sample_compress
           sample_decompress "a" "c" sample_value sample_value None (Clock.seconds 300)).
  - apply cache_ab_reachable.
  - vm_compute. discriminate.
  - discriminate.
  - vm_compute. reflexivity.
  - vm_compute. reflexivity.
  - vm_compute. discriminate.
Defined.

End CacheManager.

(** ** [input_validator.py] *)

Module InputValidator.

Import PyStr.

(** *** The part of [re] the validator uses

    A pattern is a sequence of items: one character of a class, a greedy
    star of a class, a lazy star of a class, or [$]. [match_here] gives
    the length of the match found first by backtracking, as [re.match]
    does. *)
Inductive Item : Type :=
| One (p : ascii -> bool)
| Star (p : ascii -> bool)
| LazyStar (p : ascii -> bool)
| Dollar.

Definition regex : Type := list Item.

Definition newline : ascii := ascii_of_nat 10.

(** [$]: the end of the string, or just before a final newline. *)
Definition at_end (s : str) : bool :=
  match s with
  | [] => true
  | [a] => Ascii.eqb a newline
  | _ => false
  end.

Fixpoint match_here (r : regex) : str -> option nat :=
  match r with
  | [] => fun _ => Some O
  | One p :: r' =>
      fun s => match s with
               | a :: s' => if p a then option_map S (match_here r' s') else None
               | [] => None
               end
  | Star p :: r' =>
      fix star (s : str) : option nat :=
        match s with
        | a :: s' =>
            if p a then
              match star s' with
              | Some n => Some (S n)
              | None => match_here r' s
              end
            else match_here r' s
        | [] => match_here r' s
        end
  | LazyStar p :: r' =>
      fix lazy_star (s : str) : option nat :=
        match match_here r' s with
        | Some n => Some n
        | None =>
            match s with
            | a :: s' => if p a then option_map S (lazy_star s') else None
            | [] => None
            end
        end
  | Dollar :: r' => fun s => if at_end s then match_here r' s else None
  end.

(** [re.search(pattern, s)] as a truth value. *)
Fixpoint search (r : regex) (s : str) : bool :=
  match match_here r s with
  | Some _ => true
  | None =>
      match s with
      | _ :: s' => search r s'
      | [] => false
      end
  end.

(** [re.sub(pattern, '', s)] for a pattern that matches no empty string:
    matches are found left to right and cut out; [skip] counts the
    characters of the current match still to be dropped. *)
Fixpoint sub_go (r : regex) (skip : nat) (s : str) : str :=
  match s with
  | [] => []
  | a :: s' =>
      match skip with
      | S k => sub_go r k s'
      | O =>
          match match_here r s with
          | Some (S n) => sub_go r n s'
          | _ => a :: sub_go r O s'
          end
      end
  end.

Definition sub (r : regex) (s : str) : str := sub_go r O s.

(** Character classes. [ci c] is the literal [c] under [re.IGNORECASE]. *)
Definition ci (c : ascii) : ascii -> bool :=
  fun a => Ascii.eqb (lower_char a) (lower_char c).
Definition exactly (c : ascii) : ascii -> bool := fun a => Ascii.eqb a c.
Definition not_gt : ascii -> bool := fun a => negb (Ascii.eqb a ">").
Definition dot : ascii -> bool := fun a => negb (Ascii.eqb a newline).
Definition hex_lower : ascii -> bool :=
  fun a => let n := code a in
           ((48 <=? n) && (n <=? 57) || (97 <=? n) && (n <=? 102))%nat.
Definition word_or_dash : ascii -> bool := fun a => is_word a || Ascii.eqb a "-".

Definition lits (s : string) : regex := List.map (fun c => One (ci c)) (lit s).

(** [XSS_PATTERNS], compiled with [re.IGNORECASE]. *)
Definition XSS_PATTERNS : list regex :=
  [ lits "<script" ++ [Star not_gt; One (ci ">"); LazyStar dot] ++ lits "</script>";
    lits "javascript:";
    lits "on" ++ [One is_word; Star is_word; Star is_space; One (ci "=")];
    lits "<iframe" ++ [Star not_gt; One (ci ">")];
    lits "vbscript:";
    lits "data:text/html" ].

(** [^[a-f0-9]{8}-[a-f0-9]{4}-[a-f0-9]{4}-[a-f0-9]{4}-[a-f0-9]{12}$] *)
Definition uuid_pattern : regex :=
  repeat (One hex_lower) 8 ++ [One (exactly "-")] ++
  repeat (One hex_lower) 4 ++ [One (exactly "-")] ++
  repeat (One hex_lower) 4 ++ [One (exactly "-")] ++
  repeat (One hex_lower) 4 ++ [One (exactly "-")] ++
  repeat (One hex_lower) 12 ++ [Dollar].

(** [^[\w\-]+$] *)
Definition project_id_pattern : regex :=
  [One word_or_dash; Star word_or_dash; Dollar].

(** [^[a-f0-9]{16}$] *)
Definition address_pattern : regex := repeat (One hex_lower) 16 ++ [Dollar].

(** *** [html.escape] *)

Definition double_quote : ascii := ascii_of_nat 34.

Definition escape_char (a : ascii) : str :=
  if Ascii.eqb a "&" then lit "&amp;"
  else if Ascii.eqb a "<" then lit "&lt;"
  else if Ascii.eqb a ">" then lit "&gt;"
  else if Ascii.eqb a double_quote then lit "&quot;"
  else if Ascii.eqb a "'" then lit "&#x27;"
  else [a].

(** The five replacements of [html.escape] are made one after the other,
    the ampersand first; none of the texts put in contains a character
    replaced later, so the result is the character-wise one. *)
Definition html_escape (s : str) : str := List.concat (List.map escape_char s).

(** *** The validators; [None] stands for [ValidationError] *)

Definition nul : ascii := ascii_of_nat 0.

(** [value.replace('\x00', '')] *)
Definition remove_nul (s : str) : str :=
  List.filter (fun a => negb (Ascii.eqb a nul)) s.

(** The loop over [XSS_PATTERNS]: a pattern that is found is cut out. *)
Definition scrub (patterns : list regex) (value : str) : str :=
  fold_left (fun v pattern => if search pattern v then sub pattern v else v)
            patterns value.

Definition _validate_message (value : str) : option str :=
  let value := remove_nul value in
  if 50000 <? Z.of_nat (length value) then None
  else
    let value := scrub XSS_PATTERNS value in
    let value := html_escape value in
    Some (strip value).

Definition is_match (r : regex) (s : str) : bool :=
  match match_here r s with Some _ => true | None => false end.

Definition _validate_session_id (value : str) : option str :=
  let value := lower (strip value) in
  if is_match uuid_pattern value then Some value else None.

Definition _validate_project_id (value : str) : option str :=
  let value := strip value in
  if 100 <? Z.of_nat (length value) then None
  else if is_match project_id_pattern value then Some value else None.

Definition validate_address (value : str) : option str :=
  let value := lower (strip value) in
  let value := if startswith (lit "0x") value then drop 2 value else value in
  if is_match address_pattern value then Some value else None.

(** *** Session id and project id *)

Lemma session_id_idempotent (x y : str) :
  _validate_session_id x = Some y -> _validate_session_id y = Some y.
Proof.
  unfold _validate_session_id.
  destruct (is_match uuid_pattern (lower (strip x))) eqn:E; [|discriminate].
  intros [= <-]. rewrite lower_strip_fixed, E. reflexivity.
Qed.

Lemma project_id_idempotent (x y : str) :
  _validate_project_id x = Some y -> _validate_project_id y = Some y.
Proof.
  unfold _validate_project_id.
  destruct (100 <? Z.of_nat (length (strip x))) eqn:E1; [discriminate|].
  destruct (is_match project_id_pattern (strip x)) eqn:E2; [|discriminate].
  intros [= <-]. rewrite strip_idem, E1, E2. reflexivity.
Qed.

(** *** Address *)

(** A pattern of [n] characters of one class, then [$], matches a string
    made of [n] such characters and, at most, a final newline. *)
Lemma match_ones (p : ascii -> bool) (n : nat) : forall (s : str) (k : nat),
  match_here (repeat (One p) n ++ [Dollar]) s = Some k ->
  exists pre rest : str,
    s = pre ++ rest /\ length pre = n /\ Forall (fun a => p a = true) pre /\
    at_end rest = true.
Proof.
  induction n as [|n IH]; intros s k; cbn.
  - destruct (at_end s) eqn:E; [|discriminate]. intros _.
    exists [], s. repeat split; [constructor | exact E].
  - destruct s as [|a s]; [discriminate|].
    destruct (p a) eqn:Ep; [|discriminate].
    destruct (match_here (repeat (One p) n ++ [Dollar]) s) as [k'|] eqn:E; [|discriminate].
    intros _. destruct (IH s k' E) as (pre & rest & -> & Hlen & Hall & Hend).
    exists (a :: pre), rest. cbn. repeat split; [congruence | | exact Hend].
    constructor; assumption.
Qed.

Lemma hex_lower_facts (a : ascii) :
  hex_lower a = true ->
  is_space a = false /\ lower_char a = a /\ Ascii.eqb "x" a = false.
Proof.
  destruct a as [[] [] [] [] [] [] [] []]; vm_compute; intros H;
    first [discriminate H | auto].
Qed.

Lemma last_ok_lower (s : str) : last_ok s -> last_ok (lower s).
Proof.
  unfold last_ok, lower. rewrite <- List.map_rev.
  destruct (rev s) as [|a r]; cbn; [auto|]. rewrite is_space_lower_char. auto.
Qed.

Lemma last_ok_not_newline (pre rest : str) :
  last_ok (pre ++ rest) -> at_end rest = true -> rest = [].
Proof.
  intros Hl He. destruct rest as [|a [|b rest]]; [reflexivity| |discriminate].
  cbn in He. apply Ascii.eqb_eq in He. subst a.
  unfold last_ok in Hl. rewrite rev_app_distr in Hl. cbn in Hl. discriminate Hl.
Qed.

Lemma all_hex_fixed (s : str) :
  Forall (fun a => hex_lower a = true) s ->
  (2 <= length s)%nat ->
  strip s = s /\ lower s = s /\ startswith (lit "0x") s = false.
Proof.
  intros Hall Hlen. split; [|split].
  - apply strip_id.
    + destruct s as [|a s]; [exact I|]. cbn.
      apply Forall_cons in Hall as [Ha _]. apply hex_lower_facts, Ha.
    + unfold last_ok. destruct (rev s) as [|a r] eqn:E; [exact I|]. cbn.
      assert (Hin : In a s) by (apply in_rev; rewrite E; left; reflexivity).
      rewrite Forall_forall in Hall. apply hex_lower_facts, Hall.
      rewrite list_elem_of_In. exact Hin.
  - unfold lower. clear Hlen. induction Hall as [|a l Ha _ IH]; cbn; [reflexivity|].
    f_equal; [apply hex_lower_facts, Ha | exact IH].
  - destruct s as [|a [|b s]]; cbn in Hlen; try lia.
    apply Forall_cons in Hall as [_ Hall]. apply Forall_cons in Hall as [Hb _].
    unfold lit. cbn [list_ascii_of_string startswith].
    destruct (hex_lower_facts b Hb) as (_ & _ & ->).
    cbn [andb]. rewrite Bool.andb_false_r. reflexivity.
Qed.

Lemma address_idempotent (x y : str) :
  validate_address x = Some y -> validate_address y = Some y.
Proof.
  unfold validate_address.
  set (v := lower (strip x)).
  set (v' := if startswith (lit "0x") v then drop 2 v else v).
  unfold is_match at 1.
  destruct (match_here address_pattern v') as [k|] eqn:E; [|discriminate].
  intros [= <-].
  destruct (match_ones hex_lower 16 v' k E) as (pre & rest & Hv' & Hlen & Hall & Hend).
  assert (Hlast : last_ok v').
  { assert (Hv : last_ok v) by (apply last_ok_lower, strip_ok).
    subst v'. destruct (startswith (lit "0x") v); [|exact Hv].
    apply (last_ok_suffix (take 2 v)). rewrite take_drop. exact Hv. }
  rewrite Hv' in Hlast. rewrite (last_ok_not_newline pre rest Hlast Hend) in Hv'.
  rewrite app_nil_r in Hv'.
  destruct (all_hex_fixed pre Hall ltac:(lia)) as (Hs & Hl & Hp).
  rewrite Hv', Hs, Hl, Hp. rewrite <- Hv'. unfold is_match. rewrite E. reflexivity.
Qed.

(** *** Chat message *)

Definition amp : ascii := "&"%char.

Lemma sub_go_In (r : regex) (a : ascii) (s : str) : forall k : nat,
  In a (sub_go r k s) -> In a s.
Proof.
  induction s as [|b s IH]; intros k; cbn; [auto|].
  destruct k as [|k]; [|intros H; right; exact (IH k H)].
  destruct (match_here r (b :: s)) as [[|n]|].
  - cbn. intros [H|H]; [auto | right; exact (IH _ H)].
  - intros H. right. exact (IH _ H).
  - cbn. intros [H|H]; [auto | right; exact (IH _ H)].
Qed.

Lemma sub_go_length (r : regex) (s : str) : forall k : nat,
  (length (sub_go r k s) <= length s)%nat.
Proof.
  induction s as [|b s IH]; intros k; cbn; [lia|].
  destruct k as [|k]; [|specialize (IH k); lia].
  destruct (match_here r (b :: s)) as [[|n]|]; cbn;
    [specialize (IH O) | specialize (IH n) | specialize (IH O)]; lia.
Qed.

Lemma scrub_In (patterns : list regex) (a : ascii) : forall s : str,
  In a (scrub patterns s) -> In a s.
Proof.
  unfold scrub. induction patterns as [|r patterns IH]; intros s; cbn; [auto|].
  intros H. apply IH in H. destruct (search r s); [|exact H].
  apply (sub_go_In r a s O), H.
Qed.

Lemma scrub_length (patterns : list regex) : forall s : str,
  (length (scrub patterns s) <= length s)%nat.
Proof.
  unfold scrub. induction patterns as [|r patterns IH]; intros s; cbn; [lia|].
  etransitivity; [apply IH|]. destruct (search r s); [|lia].
  apply (sub_go_length r s O).
Qed.

Lemma scrub_clean (patterns : list regex) (s : str) :
  Forall (fun r => search r s = false) patterns -> scrub patterns s = s.
Proof.
  unfold scrub. induction 1 as [|r patterns Hr _ IH]; cbn; [reflexivity|].
  rewrite Hr. exact IH.
Qed.

Lemma escape_char_cases (a : ascii) : escape_char a = [a] \/ In amp (escape_char a).
Proof.
  destruct a as [[] [] [] [] [] [] [] []]; vm_compute;
    first [left; reflexivity | right; left; reflexivity].
Qed.

Lemma escape_char_nul (a : ascii) : In nul (escape_char a) -> a = nul.
Proof.
  destruct a as [[] [] [] [] [] [] [] []]; vm_compute; intros H;
    first [reflexivity | exfalso; intuition discriminate].
Qed.

Lemma html_escape_id (s : str) :
  Forall (fun a => escape_char a = [a]) s -> html_escape s = s.
Proof.
  unfold html_escape. induction 1 as [|a l Ha _ IH]; cbn; [reflexivity|].
  rewrite Ha, IH. reflexivity.
Qed.

Lemma html_escape_In (b : ascii) (s : str) :
  In b (html_escape s) -> exists a : ascii, In a s /\ In b (escape_char a).
Proof.
  unfold html_escape. induction s as [|a s IH]; cbn; [tauto|].
  rewrite in_app_iff. intros [H|H].
  - exists a. auto.
  - destruct (IH H) as (a' & H1 & H2). exists a'. auto.
Qed.

Lemma html_escape_amp (a : ascii) (s : str) :
  In a s -> In amp (escape_char a) -> In amp (html_escape s).
Proof.
  unfold html_escape. induction s as [|a' s IH]; cbn; [tauto|].
  rewrite in_app_iff. intros [->|H] Hamp; auto.
Qed.

Lemma no_amp_no_specials (s : str) :
  ~ In amp (html_escape s) -> Forall (fun a => escape_char a = [a]) s.
Proof.
  intros H. rewrite Forall_forall. intros a Ha. rewrite list_elem_of_In in Ha.
  destruct (escape_char_cases a) as [E|E]; [exact E|].
  exfalso. apply H. exact (html_escape_amp a s Ha E).
Qed.

Lemma remove_nul_id (s : str) : ~ In nul s -> remove_nul s = s.
Proof.
  unfold remove_nul. induction s as [|a s IH]; cbn; [reflexivity|]. intros H.
  destruct (Ascii.eqb_spec a nul) as [->|Hne]; [tauto|]. cbn.
  rewrite IH by tauto. reflexivity.
Qed.

Lemma remove_nul_clean (s : str) : ~ In nul (remove_nul s).
Proof.
  unfold remove_nul. intros H. apply List.filter_In in H as [_ H].
  rewrite Ascii.eqb_refl in H. discriminate.
Qed.

(** A sanitized message that holds no ampersand and none of the patterns
    is returned as it is. *)
Lemma message_idempotent (x y : str) :
  _validate_message x = Some y ->
  ~ In amp y ->
  Forall (fun r => search r y = false) XSS_PATTERNS ->
  _validate_message y = Some y.
Proof.
  unfold _validate_message.
  destruct (Z.ltb_spec 50000 (Z.of_nat (length (remove_nul x)))) as [|Hlen]; [discriminate|].
  set (z := scrub XSS_PATTERNS (remove_nul x)).
  intros [= <-] Hamp Hclean.
  assert (Hz : Forall (fun a => escape_char a = [a]) z).
  { apply no_amp_no_specials. intros Hin. apply Hamp.
    apply strip_keeps; [reflexivity | exact Hin]. }
  rewrite (html_escape_id z Hz) in *.
  assert (Hnul : ~ In nul (strip z)).
  { intros Hin. apply strip_In in Hin. apply scrub_In in Hin.
    exact (remove_nul_clean x Hin). }
  rewrite (remove_nul_id _ Hnul).
  assert (Hle : (length (strip z) <= length (remove_nul x))%nat).
  { etransitivity; [apply strip_length | apply scrub_length]. }
  destruct (Z.ltb_spec 50000 (Z.of_nat (length (strip z)))); [lia|].
  rewrite (scrub_clean _ _ Hclean).
  assert (Hy : Forall (fun a => escape_char a = [a]) (strip z)).
  { rewrite Forall_forall in *. intros a Ha. apply Hz.
    rewrite list_elem_of_In in *. apply strip_In, Ha. }
  rewrite (html_escape_id _ Hy), strip_idem. reflexivity.
Qed.

Inductive InputType : Type :=
| TEXT | EMAIL | URL | NUMBER | JSON | PATH | SESSION_ID | MESSAGE | PROJECT_ID.

(** Values handed to [validate]: strings and numbers. Floats and their
    conversions are those of the Python runtime. *)
Section Numbers.

Variable F : Type.
(** [float(s)] for a string, [float(n)] for an integer, [None] when the
    call raises; [f.is_integer()]; [int(f)]; [str(n)] and [str(f)]. *)
Variable float_of_str : str -> option F.
Variable float_of_int : Z -> option F.
Variable is_integer : F -> bool.
Variable int_of_float : F -> Z.
Variable str_of_int : Z -> str.
Variable str_of_float : F -> str.

Inductive Value : Type :=
| VStr (s : str)
| VInt (n : Z)
| VFloat (f : F).

Definition py_str (v : Value) : str :=
  match v with
  | VStr s => s
  | VInt n => str_of_int n
  | VFloat f => str_of_float f
  end.

Definition py_float (v : Value) : option F :=
  match v with
  | VStr s => float_of_str s
  | VInt n => float_of_int n
  | VFloat f => Some f
  end.

Definition _validate_number (value : Value) : option Value :=
  match py_float value with
  | Some num => Some (if is_integer num then VInt (int_of_float num) else VFloat num)
  | None => None
  end.

(** [validate]; the value is never [None] here. *)
Definition validate (value : Value) (input_type : InputType) : option Value :=
  match input_type with
  | MESSAGE => option_map VStr (_validate_message (py_str value))
  | SESSION_ID => option_map VStr (_validate_session_id (py_str value))
  | NUMBER => _validate_number value
  | PROJECT_ID => option_map VStr (_validate_project_id (py_str value))
  | _ => Some (VStr (py_str value))
  end.

(** An integer-valued float converts to an integer that converts back
    to an integer-valued float of the same integer value. *)
Hypothesis int_round_trip :
  forall f : F,
    is_integer f = true ->
    exists f' : F,
      float_of_int (int_of_float f) = Some f' /\
      is_integer f' = true /\ int_of_float f' = int_of_float f.

Lemma number_idempotent (v w : Value) :
  _validate_number v = Some w -> _validate_number w = Some w.
Proof using int_round_trip.
  unfold _validate_number.
  destruct (py_float v) as [num|]; [|discriminate].
  destruct (is_integer num) eqn:E; intros [= <-]; cbn.
  - destruct (int_round_trip num E) as (f' & -> & -> & ->). reflexivity.
  - rewrite E. reflexivity.
Qed.

(** C5, as the code has it. Validation is idempotent on every accepted
    value for session ids, project ids, numbers and the pass-through
    types, and for addresses. For a chat message it is idempotent when
    the sanitized message holds no ampersand and none of the XSS
    patterns; a message whose sanitized form holds an ampersand is
    escaped again by a second validation. Equality is that of the values;
    for floats it is identity, not IEEE comparison. *)
Theorem validation_idempotent :
  (forall (input_type : InputType) (v w : Value),
     input_type <> MESSAGE ->
     validate v input_type = Some w -> validate w input_type = Some w) /\
  (forall x y : str, validate_address x = Some y -> validate_address y = Some y) /\
  (forall (v : Value) (y : str),
     validate v MESSAGE = Some (VStr y) ->
     ~ In amp y ->
     Forall (fun r => search r y = false) XSS_PATTERNS ->
     validate (VStr y) MESSAGE = Some (VStr y)).
Proof using int_round_trip.
  split; [|split].
  - intros ty v w Hty. destruct ty; cbn; try contradiction;
      try (intros [= <-]; reflexivity).
    + apply number_idempotent.
    + destruct (_validate_session_id (py_str v)) as [y|] eqn:E; [|discriminate].
      intros [= <-]. cbn. rewrite (session_id_idempotent _ _ E). reflexivity.
    + destruct (_validate_project_id (py_str v)) as [y|] eqn:E; [|discriminate].
      intros [= <-]. cbn. rewrite (project_id_idempotent _ _ E). reflexivity.
  - apply address_idempotent.
  - intros v y. cbn.
    destruct (_validate_message (py_str v)) as [y'|] eqn:E; [|discriminate].
    intros [= <-] Hamp Hclean. rewrite (message_idempotent _ _ E Hamp Hclean).
    reflexivity.
Qed.

(** *** The format of accepted identifiers *)

Definition dash : ascii := "-"%char.

(** Five groups of 8, 4, 4, 4 and 12 lower-case hexadecimal digits,
    with a dash between them. *)
Definition uuid_shape (s : str) : Prop :=
  exists p1 p2 p3 p4 p5 : str,
    s = p1 ++ dash :: p2 ++ dash :: p3 ++ dash :: p4 ++ dash :: p5 /\
    length p1 = 8%nat /\ length p2 = 4%nat /\ length p3 = 4%nat /\
    length p4 = 4%nat /\ length p5 = 12%nat /\
    Forall (fun a => hex_lower a = true) (p1 ++ p2 ++ p3 ++ p4 ++ p5).

(** One to a hundred characters, each a word character or a dash. *)
Definition project_id_shape (s : str) : Prop :=
  (1 <= length s <= 100)%nat /\ Forall (fun a => word_or_dash a = true) s.

Lemma match_ones_then (p : ascii -> bool) (r : regex) (n : nat) :
  forall (s : str) (k : nat),
    match_here (repeat (One p) n ++ r) s = Some k ->
    exists (pre rest : str) (k' : nat),
      s = pre ++ rest /\ length pre = n /\ Forall (fun a => p a = true) pre /\
      match_here r rest = Some k'.
Proof using Type.
  induction n as [|n IH]; intros s k; cbn [repeat app].
  - intros H. exists [], s, k. repeat split; [constructor | exact H].
  - cbn [match_here]. destruct s as [|a s]; [discriminate|].
    destruct (p a) eqn:Ep; [|discriminate].
    destruct (match_here (repeat (One p) n ++ r) s) as [k'|] eqn:E; [|discriminate].
    intros _. destruct (IH s k' E) as (pre & rest & k'' & -> & Hlen & Hall & Hr).
    exists (a :: pre), rest, k''. cbn. repeat split; [congruence | | exact Hr].
    constructor; assumption.
Qed.

Lemma match_exactly (c : ascii) (r : regex) (s : str) (k : nat) :
  match_here (One (exactly c) :: r) s = Some k ->
  exists (rest : str) (k' : nat), s = c :: rest /\ match_here r rest = Some k'.
Proof using Type.
  cbn [match_here]. destruct s as [|a s]; [discriminate|]. unfold exactly.
  destruct (Ascii.eqb_spec a c) as [->|]; [|discriminate].
  destruct (match_here r s) as [k'|] eqn:E; [|discriminate].
  intros _. exists s, k'. split; [reflexivity | exact E].
Qed.

Lemma match_star_cons (p : ascii -> bool) (r : regex) (a : ascii) (s : str) :
  match_here (Star p :: r) (a :: s) =
  if p a then
    match match_here (Star p :: r) s with
    | Some n => Some (S n)
    | None => match_here r (a :: s)
    end
  else match_here r (a :: s).
Proof using Type. reflexivity. Qed.

Lemma match_star_end (p : ascii -> bool) : forall (s : str) (k : nat),
  match_here [Star p; Dollar] s = Some k ->
  exists pre rest : str,
    s = pre ++ rest /\ Forall (fun a => p a = true) pre /\ at_end rest = true.
Proof using Type.
  assert (Hend : forall (s : str) (k : nat),
             match_here [Dollar] s = Some k ->
             exists pre rest : str,
               s = pre ++ rest /\ Forall (fun a => p a = true) pre /\ at_end rest = true).
  { intros s k. cbn [match_here]. destruct (at_end s) eqn:E; [|discriminate].
    intros _. exists [], s. repeat split; [constructor | exact E]. }
  induction s as [|a s IH]; intros k.
  - intros _. exists [], []. repeat split. constructor.
  - rewrite match_star_cons. destruct (p a) eqn:Ep; [|apply Hend].
    destruct (match_here [Star p; Dollar] s) as [n|] eqn:E; [|apply Hend].
    intros _. destruct (IH n eq_refl) as (pre & rest & -> & Hall & He).
    exists (a :: pre), rest. repeat split; [|exact He]. constructor; assumption.
Qed.

Lemma session_id_shape (x y : str) :
  _validate_session_id x = Some y -> uuid_shape y.
Proof using Type.
  unfold _validate_session_id, is_match.
  destruct (match_here uuid_pattern (lower (strip x))) as [k|] eqn:E; [|discriminate].
  intros [= <-].
  assert (Hlast : last_ok (lower (strip x))) by apply last_ok_lower, strip_ok.
  revert E Hlast. generalize (lower (strip x)) as y. intros y E Hlast.
  unfold uuid_pattern in E.
  apply match_ones_then in E as (p1 & r1 & k1 & -> & L1 & F1 & E). cbn [app] in E.
  apply match_exactly in E as (r2 & k2 & -> & E).
  apply match_ones_then in E as (p2 & r3 & k3 & -> & L2 & F2 & E). cbn [app] in E.
  apply match_exactly in E as (r4 & k4 & -> & E).
  apply match_ones_then in E as (p3 & r5 & k5 & -> & L3 & F3 & E). cbn [app] in E.
  apply match_exactly in E as (r6 & k6 & -> & E).
  apply match_ones_then in E as (p4 & r7 & k7 & -> & L4 & F4 & E). cbn [app] in E.
  apply match_exactly in E as (r8 & k8 & -> & E).
  apply match_ones_then in E as (p5 & rest & k9 & -> & L5 & F5 & E).
  cbn [match_here] in E. destruct (at_end rest) eqn:Hend; [clear E|discriminate].
  apply last_ok_suffix, (last_ok_suffix [dash]) in Hlast.
  apply last_ok_suffix, (last_ok_suffix [dash]) in Hlast.
  apply last_ok_suffix, (last_ok_suffix [dash]) in Hlast.
  apply last_ok_suffix, (last_ok_suffix [dash]) in Hlast.
  rewrite (last_ok_not_newline p5 rest Hlast Hend), app_nil_r.
  exists p1, p2, p3, p4, p5. repeat (split; [first [reflexivity | assumption]|]).
  repeat (apply Forall_app; split; [assumption|]). assumption.
Qed.

Lemma project_id_shaped (x y : str) :
  _validate_project_id x = Some y -> project_id_shape y.
Proof using Type.
  unfold _validate_project_id, is_match.
  destruct (Z.ltb_spec 100 (Z.of_nat (length (strip x)))) as [|Hlen]; [discriminate|].
  destruct (match_here project_id_pattern (strip x)) as [k|] eqn:E; [|discriminate].
  intros [= <-].
  assert (Hlast : last_ok (strip x)) by apply strip_ok.
  revert E Hlast Hlen. generalize (strip x) as y. intros y E Hlast Hlen.
  change project_id_pattern
    with (repeat (One word_or_dash) 1 ++ [Star word_or_dash; Dollar]) in E.
  apply match_ones_then in E as (first & y' & k' & -> & Hone & Hfirst & E).
  destruct (match_star_end word_or_dash y' k' E) as (pre & rest & -> & Hall & Hend).
  rewrite app_assoc in Hlast, Hlen |- *.
  rewrite (last_ok_not_newline (first ++ pre) rest Hlast Hend), app_nil_r in *.
  split; [rewrite length_app in *; lia | apply Forall_app; split; assumption].
Qed.

(** X30. An identifier accepted by [validate] has the documented format.
    A session id that is returned is a lower-case UUID: groups of 8, 4, 4,
    4 and 12 characters of [0-9a-f] joined by dashes, 36 characters and
    nothing after them. A project id that is returned has 1 to 100
    characters, each a word character or a dash. *)
Theorem accepted_identifiers_well_formed (input_type : InputType) (v y : Value) :
  input_type = SESSION_ID \/ input_type = PROJECT_ID ->
  validate v input_type = Some y ->
  exists s : str,
    y = VStr s /\
    match input_type with
    | SESSION_ID => uuid_shape s
    | _ => project_id_shape s
    end.
Proof using Type.
  intros [-> | ->]; cbn [validate].
  - destruct (_validate_session_id (py_str v)) as [s|] eqn:E; [|discriminate].
    intros [= <-]. exists s. split; [reflexivity|]. exact (session_id_shape _ _ E).
  - destruct (_validate_project_id (py_str v)) as [s|] eqn:E; [|discriminate].
    intros [= <-]. exists s. split; [reflexivity|]. exact (project_id_shaped _ _ E).
Qed.

End Numbers.

(** A stand-in for the floats, enough to run [validate] on strings: every
    float is an integer. *)
Definition validate_str (value : str) (input_type : InputType) : option (Value Z) :=
  validate Z (fun _ => None) Some (fun _ => true) (fun n => n)
           (fun _ => []) (fun _ => []) (VStr Z value) input_type.

Lemma validation_idempotent_witness :
  validate_str (lit "12345678-1234-1234-1234-1234567890ab") SESSION_ID =
    Some (VStr Z (lit "12345678-1234-1234-1234-1234567890ab")) /\
  validate_address (lit "0123456789abcdef") = Some (lit "0123456789abcdef") /\
  validate_str (lit "hello there") MESSAGE = Some (VStr Z (lit "hello there")).
Proof.
  assert (Hlaw : forall f : Z, (fun _ : Z => true) f = true ->
            exists f' : Z, Some ((fun n : Z => n) f) = Some f' /\
                           (fun _ : Z => true) f' = true /\
                           (fun n : Z => n) f' = (fun n : Z => n) f)
    by (intros f _; exists f; auto).
  destruct (validation_idempotent Z (fun _ => None) Some (fun _ => true) (fun n => n)
              (fun _ => []) (fun _ => []) Hlaw) as (H1 & H2 & H3).
  split; [|split].
  - apply (H1 SESSION_ID (VStr Z (lit " 12345678-1234-1234-1234-1234567890AB "))).
    + discriminate.
    + vm_compute. reflexivity.
  - apply (H2 (lit " 0x0123456789ABCDEF ")). vm_compute. reflexivity.
  - apply (H3 (VStr Z (lit "  hello there "))).
    + vm_compute. reflexivity.
    + vm_compute. intuition discriminate.
    + unfold XSS_PATTERNS. repeat (constructor; [vm_compute; reflexivity|]). constructor.
Defined.

(** C5, counterexample. The message [a&b] is accepted and sanitized to
    [a&amp;b]; validating that again gives [a&amp;amp;b]. *)
Lemma validation_idempotent_counterexample :
  validate_str (lit "a&b") MESSAGE = Some (VStr Z (lit "a&amp;b")) /\
  validate_str (lit "a&amp;b") MESSAGE = Some (VStr Z (lit "a&amp;amp;b")) /\
  validate_str (lit "a&amp;b") MESSAGE <> validate_str (lit "a&b") MESSAGE.
Proof.
  split; [vm_compute; reflexivity|]. split; [vm_compute; reflexivity|].
  vm_compute. discriminate.
Qed.

Lemma accepted_identifiers_well_formed_witness :
  exists s : str,
    VStr Z (lit "12345678-1234-1234-1234-1234567890ab") = VStr Z s /\ uuid_shape s.
Proof.
  apply (accepted_identifiers_well_formed Z (fun _ => None) Some (fun _ => true)
           (fun n => n) (fun _ => []) (fun _ => [])
           SESSION_ID (VStr Z (lit " 12345678-1234-1234-1234-1234567890AB "))).
  - left. reflexivity.
  - vm_compute. reflexivity.
Defined.

(** *** What a sanitized message can hold *)

Lemma escape_char_safe (a b : ascii) :
  In b (escape_char a) ->
  b <> "<"%char /\ b <> ">"%char /\ b <> double_quote /\ b <> "'"%char.
Proof.
  unfold escape_char.
  destruct (Ascii.eqb_spec a "&");
    [vm_compute; intros H; repeat split; intros ->; intuition discriminate|].
  destruct (Ascii.eqb_spec a "<");
    [vm_compute; intros H; repeat split; intros ->; intuition discriminate|].
  destruct (Ascii.eqb_spec a ">");
    [vm_compute; intros H; repeat split; intros ->; intuition discriminate|].
  destruct (Ascii.eqb_spec a double_quote);
    [vm_compute; intros H; repeat split; intros ->; intuition discriminate|].
  destruct (Ascii.eqb_spec a "'");
    [vm_compute; intros H; repeat split; intros ->; intuition discriminate|].
  intros [<-|[]]. auto.
Qed.

(** X29. A sanitized message is safe to put in HTML. Whatever the input,
    a message returned by [_validate_message] holds none of the characters
    [<], [>], the double quote and the single quote, and no NUL; it
    neither starts nor ends with white space. *)
Theorem sanitized_message_is_html_safe (x y : str) :
  _validate_message x = Some y ->
  ~ In "<"%char y /\ ~ In ">"%char y /\ ~ In double_quote y /\ ~ In "'"%char y /\
  ~ In nul y /\ head_ok y /\ last_ok y.
Proof.
  unfold _validate_message.
  destruct (50000 <? Z.of_nat (length (remove_nul x))); [discriminate|].
  intros [= <-].
  assert (Hsafe : forall b : ascii,
             In b (strip (html_escape (scrub XSS_PATTERNS (remove_nul x)))) ->
             b <> "<"%char /\ b <> ">"%char /\ b <> double_quote /\ b <> "'"%char /\
             b <> nul).
  { intros b Hb. apply strip_In, html_escape_In in Hb as (a & Ha & Hb).
    destruct (escape_char_safe a b Hb) as (H1 & H2 & H3 & H4).
    repeat (split; [assumption|]). intros ->.
    apply escape_char_nul in Hb. subst a. apply scrub_In in Ha.
    exact (remove_nul_clean x Ha). }
  repeat (split; [intros Hin; apply Hsafe in Hin; tauto|]).
  apply strip_ok.
Qed.

Lemma sanitized_message_is_html_safe_witness :
  let y := lit "&lt;b&gt;&#x27;hi&#x27; &amp; &quot;bye&quot;&lt;/b&gt;" in
  ~ In "<"%char y /\ ~ In ">"%char y /\ ~ In double_quote y /\ ~ In "'"%char y /\
  ~ In nul y /\ head_ok y /\ last_ok y.
Proof.
  apply (sanitized_message_is_html_safe
           (lit " <b>'hi' & " ++ double_quote :: lit "bye" ++ double_quote :: lit "</b> ")).
  vm_compute. reflexivity.
Defined.

End InputValidator.
